(** * Dataset documentation generator

    A shallow embedding of [tools/generate_dataset_docs.py]: the version
    resolver, the schema flattener, the wildcard expansion of join groups,
    the enumeration of join pairs and the join statistics.

    Conventions of the embedding.
    - Python [str] values are [string]s over 8-bit characters; [<] on
      strings is the code-point order [String.ltb].
    - A Python exception is a value of [exn]; code that can raise returns
      an [outcome].
    - The warehouse client [bq] is a parameter: the functions that call it
      take its (already parsed) answers as arguments.
    - [re] patterns are interpreted by a small backtracking matcher that
      covers the constructs the program's patterns are made of. *)

From Stdlib Require Import ZArith QArith Ascii String List Lia Permutation.
From stdpp Require Import base option list gmap strings sets.
Import ListNotations.

Close Scope Q_scope.
Local Open Scope string_scope.
Local Open Scope list_scope.
Local Open Scope stdpp_scope.

(** ** Exceptions and outcomes *)

Inductive exn : Type :=
| ValueError
| IndexError
| TypeError_not_iterable
| TypeError_fields_not_found
    (first : string) (from_found : bool) (second : string) (to_found : bool)
| ZeroDivisionError
| re_error.

(** [Unmodelled] marks a pattern that uses [re] syntax outside the fragment
    interpreted below; no statement is made about such runs. *)
Inductive outcome (A : Type) : Type :=
| Ok (a : A)
| Raise (e : exn)
| Unmodelled.

Arguments Ok {A} a.
Arguments Raise {A} e.
Arguments Unmodelled {A}.

#[global] Instance outcome_ret : MRet outcome := fun A a => Ok a.
#[global] Instance outcome_bind : MBind outcome := fun A B f x =>
  match x with
  | Ok a => f a
  | Raise e => Raise e
  | Unmodelled => Unmodelled
  end.

(** ** Python string helpers *)

Definition chars (s : string) : list ascii := list_ascii_of_string s.
Definition str (l : list ascii) : string := string_of_list_ascii l.

Definition star_char : ascii := "*"%char.
Definition plus_char : ascii := "+"%char.
Definition bar_char : ascii := "|"%char.
Definition dot_char : ascii := "."%char.
Definition newline_char : ascii := "010"%char.

(** ["*" in s] *)
Definition has_star (s : string) : bool :=
  existsb (Ascii.eqb star_char) (chars s).

(** [s.replace("*", ".*")] *)
Fixpoint replace_star_chars (l : list ascii) : list ascii :=
  match l with
  | [] => []
  | c :: l' =>
      if Ascii.eqb c star_char
      then dot_char :: star_char :: replace_star_chars l'
      else c :: replace_star_chars l'
  end.

Definition replace_star (s : string) : string :=
  str (replace_star_chars (chars s)).

(** [s.split(sep)] for a one-character separator: the parts between the
    occurrences of [sep], always at least one part. *)
Fixpoint split_chars (sep : ascii) (cur : list ascii) (l : list ascii)
  : list (list ascii) :=
  match l with
  | [] => [rev cur]
  | c :: l' =>
      if Ascii.eqb c sep
      then rev cur :: split_chars sep [] l'
      else split_chars sep (c :: cur) l'
  end.

Definition split (sep : ascii) (s : string) : list string :=
  map str (split_chars sep [] (chars s)).

(** [a, b = parts]: unpacking into exactly two names. *)
Definition unpack2 (parts : list string) : outcome (string * string) :=
  match parts with
  | [a; b] => Ok (a, b)
  | _ => Raise ValueError
  end.

(** [s.startswith("+")] *)
Definition startswith_plus (s : string) : bool :=
  match s with
  | String c _ => Ascii.eqb c plus_char
  | EmptyString => false
  end.

(** [s.lstrip("+")]: every leading [+] is removed. *)
Fixpoint lstrip_plus (s : string) : string :=
  match s with
  | String c s' => if Ascii.eqb c plus_char then lstrip_plus s' else s
  | EmptyString => EmptyString
  end.

(** ** Regular expressions

    The abstract syntax of the patterns the program uses, and a
    backtracking matcher with greedy repetition and numbered groups, as
    [re.match] has them: the match starts at the first character of the
    subject and need not reach its end. *)

Inductive re : Type :=
| REps
| RChar (c : ascii)
| RAny
| RSet (ranges : list (ascii * ascii))
| RBol
| RSeq (a b : re)
| RStar (a : re)
| RPlus (a : re)
| ROpt (a : re)
| RGroup (n : nat) (a : re).

Definition caps : Type := list (nat * list ascii).

Definition set_group (n : nat) (w : list ascii) (c : caps) : caps :=
  (n, w) :: List.filter (fun p => negb (Nat.eqb (fst p) n)) c.

Fixpoint get_group (n : nat) (c : caps) : option (list ascii) :=
  match c with
  | [] => None
  | (i, w) :: c' => if Nat.eqb i n then Some w else get_group n c'
  end.

Definition in_range (x : ascii) (r : ascii * ascii) : bool :=
  (nat_of_ascii (fst r) <=? nat_of_ascii x)%nat
  && (nat_of_ascii x <=? nat_of_ascii (snd r))%nat.

Definition in_ranges (x : ascii) (rs : list (ascii * ascii)) : bool :=
  existsb (in_range x) rs.

Definition kont : Type := list ascii -> caps -> option caps.
Definition matcher : Type := list ascii -> caps -> kont -> option caps.

(** Greedy repetition of [body]: one more round first, the continuation
    when that fails. A round that consumes nothing is not repeated. *)
Fixpoint star (body : matcher) (fuel : nat) (s : list ascii) (c : caps)
  (k : kont) : option caps :=
  match fuel with
  | O => k s c
  | S fuel' =>
      match body s c (fun s' c' =>
                        if (List.length s' <? List.length s)%nat
                        then star body fuel' s' c' k
                        else None) with
      | Some r => Some r
      | None => k s c
      end
  end.

(** [whole] is the length of the subject, by which [^] recognises the
    start of the subject. *)
Fixpoint run (whole : nat) (r : re) : matcher :=
  match r with
  | REps => fun s c k => k s c
  | RChar a => fun s c k =>
      match s with
      | x :: s' => if Ascii.eqb x a then k s' c else None
      | [] => None
      end
  | RAny => fun s c k =>
      match s with
      | x :: s' => if Ascii.eqb x newline_char then None else k s' c
      | [] => None
      end
  | RSet rs => fun s c k =>
      match s with
      | x :: s' => if in_ranges x rs then k s' c else None
      | [] => None
      end
  | RBol => fun s c k =>
      if (List.length s =? whole)%nat then k s c else None
  | RSeq a b => fun s c k =>
      run whole a s c (fun s' c' => run whole b s' c' k)
  | RStar a => fun s c k =>
      star (run whole a) (S (List.length s)) s c k
  | RPlus a => fun s c k =>
      run whole a s c
        (fun s' c' => star (run whole a) (S (List.length s')) s' c' k)
  | ROpt a => fun s c k =>
      match run whole a s c k with
      | Some r => Some r
      | None => k s c
      end
  | RGroup n a => fun s c k =>
      run whole a s c
        (fun s' c' =>
           k s' (set_group n (take (List.length s - List.length s') s) c'))
  end.

(** [re.match] on a compiled pattern: the groups of the first match found,
    or [None]. *)
Definition match_re (r : re) (s : string) : option caps :=
  run (List.length (chars s)) r (chars s) [] (fun _ c => Some c).

(** *** Compiling a pattern string

    The fragment: ordinary characters, [.], [^], numbered groups [( )],
    character sets [[ ]] of characters and ranges, and the postfix
    operators [*], [+] and [?] applied to the item before them. A postfix
    operator with nothing to repeat before it, [*] after another postfix
    operator, an unbalanced parenthesis, an unterminated set and a reversed
    range are errors of the compiler. The other special characters, group
    extensions [(?...)], negated sets, escapes, and [?] or [+] after a
    postfix operator (lazy and possessive repetition) are outside the
    fragment. *)

Inductive compiled : Type :=
| Compiled (r : re)
| CompileError
| NotModelled.

Definition is_postfix (c : ascii) : bool :=
  Ascii.eqb c "*"%char || Ascii.eqb c "+"%char || Ascii.eqb c "?"%char.

Definition is_other_special (c : ascii) : bool :=
  existsb (Ascii.eqb c) ["\"%char; "{"%char; "$"%char; "|"%char].

Definition postfix (c : ascii) (a : re) : re :=
  if Ascii.eqb c "*"%char then RStar a
  else if Ascii.eqb c "+"%char then RPlus a
  else ROpt a.

Definition seq_of (items : list re) : re := foldr RSeq REps items.

Definition is_bol (a : re) : bool :=
  match a with RBol => true | _ => false end.

(** [items] holds the items of the innermost open group read so far, last
    one first, and [rep] tells whether the last one is a repetition;
    [stack] holds, for each open group, its number and the items before
    it; [next] is the number of the next group; [cls] holds the ranges of
    the character set being read, if one is open. *)
Fixpoint parse_items (stack : list (nat * list re)) (next : nat)
  (items : list re) (rep : bool) (cls : option (list (ascii * ascii)))
  (p : list ascii) {struct p} : compiled :=
  match cls with
  | Some rs =>
      match p with
      | [] => CompileError
      | c :: p' =>
          if Ascii.eqb c "]"%char then
            match rs with
            | [] => NotModelled
            | _ => parse_items stack next (RSet (rev rs) :: items) false None p'
            end
          else if Ascii.eqb c "\"%char || Ascii.eqb c "["%char then NotModelled
          else if Ascii.eqb c "^"%char && bool_decide (rs = []) then NotModelled
          else
            match p' with
            | dash :: d :: p'' =>
                if Ascii.eqb dash "-"%char && negb (Ascii.eqb d "]"%char) then
                  if Ascii.eqb d "\"%char || Ascii.eqb d "["%char
                  then NotModelled
                  else if (nat_of_ascii d <? nat_of_ascii c)%nat
                  then CompileError
                  else parse_items stack next items rep (Some ((c, d) :: rs)) p''
                else parse_items stack next items rep (Some ((c, c) :: rs)) p'
            | _ => parse_items stack next items rep (Some ((c, c) :: rs)) p'
            end
      end
  | None =>
      match p with
      | [] =>
          match stack with
          | [] => Compiled (seq_of (rev items))
          | _ :: _ => CompileError
          end
      | c :: p' =>
          if is_postfix c then
            match items with
            | [] => CompileError
            | a :: items' =>
                if is_bol a then CompileError
                else if rep
                then (if Ascii.eqb c "*"%char then CompileError else NotModelled)
                else parse_items stack next (postfix c a :: items') true None p'
            end
          else if Ascii.eqb c dot_char
          then parse_items stack next (RAny :: items) false None p'
          else if Ascii.eqb c "^"%char
          then parse_items stack next (RBol :: items) false None p'
          else if Ascii.eqb c "["%char
          then parse_items stack next items rep (Some []) p'
          else if Ascii.eqb c "("%char then
            match p' with
            | q :: _ =>
                if Ascii.eqb q "?"%char then NotModelled
                else parse_items ((next, items) :: stack) (S next) [] false None p'
            | [] => CompileError
            end
          else if Ascii.eqb c ")"%char then
            match stack with
            | [] => CompileError
            | (n, outer) :: stack' =>
                parse_items stack' next
                  (RGroup n (seq_of (rev items)) :: outer) false None p'
            end
          else if is_other_special c then NotModelled
          else parse_items stack next (RChar c :: items) false None p'
      end
  end.

Definition re_compile (pattern : string) : compiled :=
  parse_items [] 1 [] false None (chars pattern).

(** [re.match(pattern, s)]: the groups of the match, or [None]. *)
Definition re_match (pattern s : string) : outcome (option caps) :=
  match re_compile pattern with
  | Compiled r => Ok (match_re r s)
  | CompileError => Raise re_error
  | NotModelled => Unmodelled
  end.

(** [re.match(pattern, s)] used as a condition. *)
Definition re_matches (pattern s : string) : outcome bool :=
  m ← re_match pattern s; mret (bool_decide (is_Some m)).

(** ** Data model

    The attributes the modelled phases read or write. [fields] is [None]
    until the schema of the table is loaded, as the class default is;
    [old_version] is [false] for the default [None] and [true] once set.
    The back-references ([Field.table], [Table.dataset]) and the
    attributes only the templates read are left out. *)

Record Field : Type := mkField {
  field_name : string;
  field_description : string;
  field_type : string;
  field_mode : string
}.

Record Table : Type := mkTable {
  table_name : string;
  version : option string;
  fields : option (list Field);
  old_version : bool
}.

Record Dataset : Type := mkDataset {
  dataset_name : string;
  tables : list Table
}.

(** [Table(name=..., dataset=..., dataset_description=...)] *)
Definition new_table (name : string) : Table :=
  {| table_name := name; version := None; fields := None;
     old_version := false |}.

(** The datasets as the discovery loop leaves them: for each dataset, in
    order, the names of its tables in the order they were appended. *)
Definition discovered (names : list (string * list string)) : list Dataset :=
  map (fun d => {| dataset_name := fst d; tables := map new_table (snd d) |})
    names.

Definition all_tables (datasets : list Dataset) : list Table :=
  concat (map tables datasets).

(** ** Version resolver *)

Definition version_pattern : string := "^(.+)_([0-9]+[0-9a-zA-Z]*)".

Definition version_re : re :=
  Eval vm_compute in
    match re_compile version_pattern with
    | Compiled r => r
    | _ => REps
    end.

(** [m.group(n)] for a group that took part in the match. *)
Definition group_str (n : nat) (c : caps) : string :=
  str (default [] (get_group n c)).

Record vstate : Type := mkVstate {
  latest_table_base : gmap string string;
  no_version_tables : gset string
}.

Definition vstate_init : vstate :=
  {| latest_table_base := ∅; no_version_tables := ∅ |}.

(** The body of the detection loop for one table. *)
Definition detect_table (st : vstate) (table : Table) : vstate * Table :=
  match match_re version_re (table_name table) with
  | None =>
      ({| latest_table_base :=
            <[table_name table := table_name table]> (latest_table_base st);
          no_version_tables := {[table_name table]} ∪ no_version_tables st |},
       table)
  | Some m =>
      let base := group_str 1 m in
      let table' :=
        {| table_name := table_name table;
           version := Some (group_str 2 m);
           fields := fields table;
           old_version := old_version table |} in
      match latest_table_base st !! base with
      | None =>
          ({| latest_table_base :=
                <[base := table_name table]> (latest_table_base st);
              no_version_tables := no_version_tables st |}, table')
      | Some latest =>
          if (latest <? table_name table)%string
             && negb (bool_decide (base ∈ no_version_tables st))
          then
            ({| latest_table_base :=
                  <[base := table_name table]> (latest_table_base st);
                no_version_tables := no_version_tables st |}, table')
          else (st, table')
      end
  end.

Fixpoint detect_tables (st : vstate) (ts : list Table) : vstate * list Table :=
  match ts with
  | [] => (st, [])
  | t :: ts' =>
      let '(st1, t') := detect_table st t in
      let '(st2, ts'') := detect_tables st1 ts' in
      (st2, t' :: ts'')
  end.

Fixpoint detect_datasets (st : vstate) (ds : list Dataset)
  : vstate * list Dataset :=
  match ds with
  | [] => (st, [])
  | d :: ds' =>
      let '(st1, ts) := detect_tables st (tables d) in
      let '(st2, ds'') := detect_datasets st1 ds' in
      (st2, {| dataset_name := dataset_name d; tables := ts |} :: ds'')
  end.

(** [latest_tables]: the values of [latest_table_base], as a set. *)
Definition latest_tables (st : vstate) : gset string :=
  map_img (latest_table_base st).

Definition mark_table (latest : gset string) (table : Table) : Table :=
  if bool_decide (table_name table ∈ latest) then table
  else {| table_name := table_name table; version := version table;
          fields := fields table; old_version := true |}.

Definition mark_datasets (latest : gset string) (ds : list Dataset)
  : list Dataset :=
  map (fun d => {| dataset_name := dataset_name d;
                   tables := map (mark_table latest) (tables d) |}) ds.

(** Lines 150-177: detection, then marking. *)
Definition resolve_versions (ds : list Dataset) : list Dataset :=
  let '(st, ds') := detect_datasets vstate_init ds in
  mark_datasets (latest_tables st) ds'.

(** ** Schema loader *)

#[local] Set Warnings "-register-all".

(** A field of the schema the warehouse returns: its name, the optional
    [description], [type] and [mode], and the optional nested [fields]. *)
Inductive schema_field : Type :=
| SchemaField (name : string) (description type mode : option string)
    (sub : option (list schema_field)).

(** [add_fields(parent, fields)], appending to [table_fields]. *)
Fixpoint add_field (parent : string) (field : schema_field)
  (table_fields : list Field) {struct field} : list Field :=
  match field with
  | SchemaField n d ty mo sub =>
      let name := if bool_decide (parent = "") then n else parent +:+ "." +:+ n in
      let table_fields :=
        table_fields ++ [ {| field_name := name;
                             field_description := default "" d;
                             field_type := default "" ty;
                             field_mode := default "" mo |} ] in
      match sub with
      | Some fs =>
          (fix add_all (fs : list schema_field) (acc : list Field) : list Field :=
             match fs with
             | [] => acc
             | g :: gs => add_all gs (add_field name g acc)
             end) fs table_fields
      | None => table_fields
      end
  end.

Fixpoint add_fields (parent : string) (fs : list schema_field)
  (table_fields : list Field) : list Field :=
  match fs with
  | [] => table_fields
  | g :: gs => add_fields parent gs (add_field parent g table_fields)
  end.

(** The loading loop for one table; [show name] is the schema the
    warehouse returns for the table. *)
Definition load_table (show : string -> list schema_field) (table : Table)
  : Table :=
  if old_version table then table
  else {| table_name := table_name table; version := version table;
          fields := Some (add_fields "" (show (table_name table)) []);
          old_version := old_version table |}.

Definition load_datasets (show : string -> list schema_field)
  (ds : list Dataset) : list Dataset :=
  map (fun d => {| dataset_name := dataset_name d;
                   tables := map (load_table show) (tables d) |}) ds.

(** ** Field lookup *)

Fixpoint find_in_fields (column : string) (fs : list Field) : option Field :=
  match fs with
  | [] => None
  | f :: fs' =>
      if bool_decide (column = field_name f) then Some f
      else find_in_fields column fs'
  end.

(** The loop over the tables of one dataset: [Ok (Some f)] when it
    returns [f], [Ok None] when it runs to its end. Iterating the [None]
    of a table whose fields were never loaded raises. *)
Fixpoint find_in_tables (name column : string) (ts : list Table)
  : outcome (option Field) :=
  match ts with
  | [] => Ok None
  | t :: ts' =>
      if bool_decide (table_name t = name) then
        match fields t with
        | None => Raise TypeError_not_iterable
        | Some fs =>
            match find_in_fields column fs with
            | Some f => Ok (Some f)
            | None => find_in_tables name column ts'
            end
        end
      else find_in_tables name column ts'
  end.

Fixpoint find_field (datasets : list Dataset) (name column : string)
  : outcome (option Field) :=
  match datasets with
  | [] => Ok None
  | d :: ds' =>
      match find_in_tables name column (tables d) with
      | Ok None => find_field ds' name column
      | r => r
      end
  end.

(** ** Join resolver: wildcard expansion *)

(** The loop over the fields of one table. *)
Fixpoint match_fields (column_fmt name : string) (fs : list Field)
  (matches : list string) : outcome (list string) :=
  match fs with
  | [] => Ok matches
  | field :: fs' =>
      b ← re_matches (replace_star column_fmt) (field_name field);
      match_fields column_fmt name fs'
        (if b : bool then matches ++ [name +:+ "|" +:+ field_name field]
         else matches)
  end.

(** The body of the loop over the tables: the table pattern is matched
    first, then [old_version] is looked at. *)
Definition match_table (table_fmt column_fmt : string) (table : Table)
  (matches : list string) : outcome (list string) :=
  b ← re_matches (replace_star table_fmt) (table_name table);
  if negb b || old_version table then Ok matches
  else
    match fields table with
    | None => Raise TypeError_not_iterable
    | Some fs => match_fields column_fmt (table_name table) fs matches
    end.

Fixpoint match_tables (table_fmt column_fmt : string) (ts : list Table)
  (matches : list string) : outcome (list string) :=
  match ts with
  | [] => Ok matches
  | t :: ts' =>
      matches' ← match_table table_fmt column_fmt t matches;
      match_tables table_fmt column_fmt ts' matches'
  end.

Fixpoint match_datasets (table_fmt column_fmt : string) (ds : list Dataset)
  (matches : list string) : outcome (list string) :=
  match ds with
  | [] => Ok matches
  | d :: ds' =>
      matches' ← match_tables table_fmt column_fmt (tables d) matches;
      match_datasets table_fmt column_fmt ds' matches'
  end.

(** [l.insert(i, v)] *)
Definition list_insert_at {A : Type} (i : nat) (v : A) (l : list A) : list A :=
  take i l ++ v :: drop i l.

(** [for v in matches: join_group.insert(i, v); i += 1] *)
Fixpoint insert_matches (matches : list string) (i : nat)
  (join_group : list string) : nat * list string :=
  match matches with
  | [] => (i, join_group)
  | v :: vs => insert_matches vs (S i) (list_insert_at i v join_group)
  end.

(** The [while i < len(join_group)] loop for one join group. [fuel]
    bounds the number of rounds; [None] is a loop cut short by it. *)
Fixpoint expand_loop (fuel : nat) (datasets : list Dataset) (i : nat)
  (join_group : list string) : option (outcome (list string)) :=
  match join_group !! i with
  | None => Some (Ok join_group)
  | Some entry =>
      match fuel with
      | O => None
      | S fuel' =>
          if negb (has_star entry)
          then expand_loop fuel' datasets (i + 1) join_group
          else
            match unpack2 (split bar_char entry) with
            | Ok (table_fmt, column_fmt) =>
                match match_datasets table_fmt column_fmt datasets [] with
                | Ok matches =>
                    let '(i', join_group') :=
                      insert_matches matches i (delete i join_group) in
                    expand_loop fuel' datasets i' join_group'
                | Raise e => Some (Raise e)
                | Unmodelled => Some Unmodelled
                end
            | Raise e => Some (Raise e)
            | Unmodelled => Some Unmodelled
            end
      end
  end.

(** One round per entry of the group suffices (see [expand_loop_total]). *)
Definition expand_group (datasets : list Dataset) (join_group : list string)
  : option (outcome (list string)) :=
  expand_loop (List.length join_group) datasets 0 join_group.

(** [join_config]: the join groups in the order of the dictionary. *)
Definition join_config : Type := list (string * list string).

Fixpoint expand_config (datasets : list Dataset) (config : join_config)
  : option (outcome join_config) :=
  match config with
  | [] => Some (Ok [])
  | (name, join_group) :: config' =>
      match expand_group datasets join_group with
      | Some (Ok join_group') =>
          match expand_config datasets config' with
          | Some (Ok config'') => Some (Ok ((name, join_group') :: config''))
          | r => r
          end
      | Some (Raise e) => Some (Raise e)
      | Some Unmodelled => Some Unmodelled
      | None => None
      end
  end.

(** ** Join resolver: pairing and statistics *)

(** [table.replace(":", ".")] *)
Definition tsql (table : string) : string :=
  str (map (fun c => if Ascii.eqb c ":"%char then dot_char else c)
         (chars table)).

(** The query sent to the warehouse, by the values formatted into its
    text; [q_group_by] is [None] for the query without [GROUP BY]. *)
Record JoinQuery : Type := mkJoinQuery {
  q_first_table : string;
  q_first_column : string;
  q_second_table : string;
  q_second_column : string;
  q_group_by : option string
}.

(** A row of the answer, with [cnt] and [second_cnt] already converted
    by [int]. *)
Record Row : Type := mkRow {
  cnt : Z;
  second_cnt : Z;
  grouped : string;
  sample_value : string
}.

(** [percent] is the exact quotient; the program's float is its nearest
    double. *)
Record JoinStat : Type := mkJoinStat {
  stat_percent : Q;
  stat_num_rows : Z;
  stat_key : string;
  stat_sample_value : string
}.

Record Join : Type := mkJoin {
  join_name : string;
  from_table : string;
  from_field : Field;
  to_table : string;
  to_field : Field;
  percent : Q;
  num_rows : Z;
  join_stats : gmap string JoinStat;
  sql : JoinQuery
}.

(** [a / b] on integers *)
Definition true_div (a b : Z) : outcome Q :=
  if (b =? 0)%Z then Raise ZeroDivisionError
  else Ok (inject_Z a / inject_Z b)%Q.

Record stats_state : Type := mkStats {
  total_rows : Z;
  joined_rows : Z;
  stats : gmap string JoinStat
}.

(** [not group_by]: no entry in [group_config], or an empty one. *)
Definition no_group_by (group_by : option string) : bool :=
  match group_by with
  | None => true
  | Some g => bool_decide (g = "")
  end.

(** The body of [for row in result]. *)
Definition stats_row (group_by : option string) (st : stats_state)
  (row : Row) : outcome stats_state :=
  let total := (total_rows st + cnt row)%Z in
  let joined := (joined_rows st + second_cnt row)%Z in
  p ← true_div (second_cnt row) (cnt row);
  if no_group_by group_by then
    Ok {| total_rows := total; joined_rows := joined;
          stats := <["" := {| stat_percent := p;
                              stat_num_rows := second_cnt row;
                              stat_key := "all";
                              stat_sample_value := sample_value row |}]>
                     (stats st) |}
  else
    Ok {| total_rows := total; joined_rows := joined;
          stats := <[grouped row := {| stat_percent := p;
                                       stat_num_rows := second_cnt row;
                                       stat_key := grouped row;
                                       stat_sample_value := sample_value row |}]>
                     (stats st) |}.

Fixpoint stats_rows (group_by : option string) (st : stats_state)
  (result : list Row) : outcome stats_state :=
  match result with
  | [] => Ok st
  | row :: result' =>
      st' ← stats_row group_by st row;
      stats_rows group_by st' result'
  end.

(** Lines 298-322: the loop over the rows, then the overall percent and
    row count of the join. *)
Definition join_statistics (group_by : option string) (result : list Row)
  : outcome (Q * Z * gmap string JoinStat) :=
  st ← stats_rows group_by
         {| total_rows := 0; joined_rows := 0; stats := ∅ |} result;
  p ← true_div (joined_rows st) (total_rows st);
  mret (p, joined_rows st, stats st).

Record pstate : Type := mkPstate {
  join_done : gset string;
  joins : list Join
}.

Fixpoint foldM {A B : Type} (f : B -> A -> outcome B) (l : list A) (b : B)
  : outcome B :=
  match l with
  | [] => Ok b
  | a :: l' => b' ← f b a; foldM f l' b'
  end.

Section Pairing.
Variable datasets : list Dataset.
Variable group_config : gmap string string.
(** The warehouse's answer to a join query. *)
Variable query : JoinQuery -> list Row.

(** The body of the loop over [j], for the entries at [i] and [j]. *)
Definition pair_body (name : string) (join_group : list string)
  (i : nat) (st : pstate) (j : nat) : outcome pstate :=
  if (j =? i)%nat then Ok st
  else
    match join_group !! i, join_group !! j with
    | Some entry_i, Some entry_j =>
        '(first_table, first_column) ← unpack2 (split bar_char entry_i);
        '(second_table, second_column) ← unpack2 (split bar_char entry_j);
        if negb (startswith_plus first_table)
           && negb (startswith_plus second_table)
        then Ok st
        else
          let first_table := lstrip_plus first_table in
          let second_table := lstrip_plus second_table in
          let key :=
            first_table +:+ first_column +:+ second_table +:+ second_column in
          if bool_decide (key ∈ join_done st)
             || (bool_decide (first_table = second_table)
                 && bool_decide (first_column = second_column))
          then Ok st
          else
            let done := {[key]} ∪ join_done st in
            from ← find_field datasets first_table first_column;
            to ← find_field datasets second_table second_column;
            match from, to with
            | Some from_f, Some to_f =>
                let group_by := group_config !! first_table in
                let q :=
                  {| q_first_table := tsql first_table;
                     q_first_column := first_column;
                     q_second_table := tsql second_table;
                     q_second_column := second_column;
                     q_group_by :=
                       if no_group_by group_by then None else group_by |} in
                '(p, n, js) ← join_statistics group_by (query q);
                Ok {| join_done := done;
                      joins := joins st ++
                        [ {| join_name := name;
                             from_table := first_table;
                             from_field := from_f;
                             to_table := second_table;
                             to_field := to_f;
                             percent := p; num_rows := n;
                             join_stats := js; sql := q |} ] |}
            | _, _ =>
                Raise (TypeError_fields_not_found
                         entry_i (bool_decide (is_Some from))
                         entry_j (bool_decide (is_Some to)))
            end
    | _, _ => Raise IndexError
    end.

(** Lines 247-322 for one join group. *)
Definition pair_group (st : pstate) (g : string * list string)
  : outcome pstate :=
  let '(name, join_group) := g in
  let n := List.length join_group in
  foldM (fun st i => foldM (pair_body name join_group i) (seq 0 n) st)
    (seq 0 n) st.

Definition enumerate_joins (config : join_config) : outcome pstate :=
  foldM pair_group config {| join_done := ∅; joins := [] |}.
End Pairing.


(** ** Reference definitions

    The behaviour the program is compared with below. *)

(** Pre-order flattening of a schema: a field, then the flattening of its
    nested fields under its qualified name, in the order of declaration. *)
Definition qualify (parent n : string) : string :=
  if bool_decide (parent = "") then n else parent +:+ "." +:+ n.

Fixpoint flatten_field (parent : string) (f : schema_field) : list Field :=
  match f with
  | SchemaField n d ty mo sub =>
      {| field_name := qualify parent n;
         field_description := default "" d;
         field_type := default "" ty;
         field_mode := default "" mo |}
      :: match sub with
         | Some fs => concat (map (flatten_field (qualify parent n)) fs)
         | None => []
         end
  end.

Definition flatten (parent : string) (fs : list schema_field) : list Field :=
  concat (map (flatten_field parent) fs).

(** The names and [old_version] flags of all tables, in order. *)
Definition names_old (ds : list Dataset) : list (string * bool) :=
  map (fun t => (table_name t, old_version t)) (all_tables ds).

(** The detection loop seen as one pass over all tables. *)
Definition detect_state (st : vstate) (ts : list Table) : vstate :=
  fold_left (fun st t => fst (detect_table st t)) ts st.

(** Sums over the rows of an answer. *)
Definition sum_cnt (result : list Row) : Z :=
  fold_right (fun row acc => (cnt row + acc)%Z) 0%Z result.

Definition sum_second_cnt (result : list Row) : Z :=
  fold_right (fun row acc => (second_cnt row + acc)%Z) 0%Z result.

(** The first table with a given name, in the order [find_field] visits
    the tables. *)
Definition first_table_named (ds : list Dataset) (name : string)
  : option Table :=
  List.find (fun t => bool_decide (table_name t = name)) (all_tables ds).

(** Wildcard expansion read as a replacement in place: the entries are
    visited from left to right, an entry without [*] stays, an entry with
    [*] gives way to its matches. *)
Fixpoint expand_entries (datasets : list Dataset) (entries : list string)
  : outcome (list string) :=
  match entries with
  | [] => Ok []
  | entry :: rest =>
      if negb (has_star entry) then
        r ← expand_entries datasets rest; mret (entry :: r)
      else
        '(table_fmt, column_fmt) ← unpack2 (split bar_char entry);
        matches ← match_datasets table_fmt column_fmt datasets [];
        r ← expand_entries datasets rest;
        mret (matches ++ r)
  end.

(** Wildcard patterns: [*] stands for any sequence of characters, [.] for
    any one character (neither for a line break), every other character
    for itself; a subject matches when one of its prefixes does. *)
Definition glob_char (c : ascii) : bool :=
  negb (is_postfix c && negb (Ascii.eqb c star_char))
  && negb (is_other_special c)
  && negb (existsb (Ascii.eqb c) ["^"%char; "["%char; "]"%char; "("%char; ")"%char]).

Definition glob_pattern (p : string) : Prop :=
  Forall (fun c => glob_char c = true) (chars p).

(** [f] holds after skipping some characters of [s], none a line break. *)
Fixpoint any_skip (f : list ascii -> bool) (s : list ascii) : bool :=
  f s
  || match s with
     | x :: s' => negb (Ascii.eqb x newline_char) && any_skip f s'
     | [] => false
     end.

Fixpoint glob_prefixb (p s : list ascii) : bool :=
  match p with
  | [] => true
  | c :: p' =>
      if Ascii.eqb c star_char then any_skip (glob_prefixb p') s
      else
        match s with
        | x :: s' =>
            (if Ascii.eqb c dot_char then negb (Ascii.eqb x newline_char)
             else Ascii.eqb x c)
            && glob_prefixb p' s'
        | [] => false
        end
  end.

Definition glob_match (p s : string) : bool := glob_prefixb (chars p) (chars s).

(** The [table|column] pairs of the tables that are not old versions and
    match [table_fmt] and of their fields that match [column_fmt], tables
    and fields in their order. *)
Definition glob_matches (table_fmt column_fmt : string) (ds : list Dataset)
  : list string :=
  concat
    (map (fun t =>
            if glob_match table_fmt (table_name t) && negb (old_version t)
            then map (fun f => table_name t +:+ "|" +:+ field_name f)
                   (List.filter (fun f => glob_match column_fmt (field_name f))
                      (default [] (fields t)))
            else [])
       (all_tables ds)).

(** Every table that is not an old version has its fields loaded. *)
Definition loaded (ds : list Dataset) : Prop :=
  forall t, t ∈ all_tables ds -> old_version t = false -> is_Some (fields t).

(** The ordered pair a join was computed for. *)
Definition join_pair (j : Join) : string * string * string * string :=
  (from_table j, field_name (from_field j), to_table j, field_name (to_field j)).

(** ** Example data *)

Definition plain_field (n : string) : schema_field :=
  SchemaField n None None None None.

(** The nested schema [[{a, fields:[{b},{c}]}]]. *)
Definition nested_schema : list schema_field :=
  [SchemaField "a" None None None (Some [plain_field "b"; plain_field "c"])].

(** Tables [x] with the columns [col1], [col2] and [y] with [col1]. *)
Definition xy_show (name : string) : list schema_field :=
  if bool_decide (name = "x") then [plain_field "col1"; plain_field "col2"]
  else [plain_field "col1"].

Definition xy_datasets : list Dataset :=
  load_datasets xy_show (resolve_versions (discovered [("d", ["x"; "y"])])).

(** Tables [A], [B], [C] with the columns [c1], [c2], [c3]. *)
Definition abc_show (name : string) : list schema_field :=
  [plain_field "c1"; plain_field "c2"; plain_field "c3"].

Definition abc_datasets : list Dataset :=
  load_datasets abc_show (resolve_versions (discovered [("d", ["A"; "B"; "C"])])).

Definition abc_group : list string := ["+A|c1"; "+B|c2"; "+C|c3"].

(** The buckets (total 10, matched 5) and (total 20, matched 0). *)
Definition two_buckets : list Row :=
  [ {| cnt := 10; second_cnt := 5; grouped := "p"; sample_value := "" |};
    {| cnt := 20; second_cnt := 0; grouped := "q"; sample_value := "" |} ].

(** Tables [t_1] and [t_2]: [t_1] is an old version. *)
Definition old_datasets : list Dataset :=
  load_datasets abc_show (resolve_versions (discovered [("d", ["t_1"; "t_2"])])).

(** ** Auxiliary definitions of the proofs *)

(** What detection leaves untouched in a table. *)
Definition table_key (t : Table) : string * bool * option (list Field) :=
  (table_name t, old_version t, fields t).

(** The flag [resolve_versions] gives to a table depends on the flat
    sequence of all tables only. *)
Definition flag_of (latest : gset string) (k : string * bool * option (list Field))
  : string * bool :=
  (k.1.1, if bool_decide (k.1.1 ∈ latest) then k.1.2 else true).

(** The flags for tables as discovered, by the flat list of their names. *)
Definition old_flags (names : list string) : list (string * bool) :=
  let latest := latest_tables (detect_state vstate_init (map new_table names)) in
  map (fun n => (n, negb (bool_decide (n ∈ latest)))) names.

(** The invariant of the detection loop: a name recorded in
    [no_version_tables] is its own latest table. *)
Definition own_latest (st : vstate) : Prop :=
  forall n, n ∈ no_version_tables st -> latest_table_base st !! n = Some n.

(** Induction over schemas, with the hypothesis for every nested field. *)
Section schema_field_induction.
Variable P : schema_field -> Prop.
Hypothesis P_leaf : forall n d ty mo, P (SchemaField n d ty mo None).
Hypothesis P_node : forall n d ty mo fs,
  Forall P fs -> P (SchemaField n d ty mo (Some fs)).

Fixpoint schema_field_nested_ind (f : schema_field) : P f :=
  match f with
  | SchemaField n d ty mo None => P_leaf n d ty mo
  | SchemaField n d ty mo (Some fs) =>
      P_node n d ty mo fs
        ((fix all (l : list schema_field) : Forall P l :=
            match l with
            | [] => List.Forall_nil P
            | g :: gs =>
                List.Forall_cons P g gs (schema_field_nested_ind g) (all gs)
            end) fs)
  end.
End schema_field_induction.

Definition stats_init : stats_state :=
  {| total_rows := 0; joined_rows := 0; stats := ∅ |}.

(** The mean of the per-bucket percentages, which the program does not
    compute. *)
Definition mean_percent (js : gmap string JoinStat) : Q :=
  let ps := map (fun kv => stat_percent (snd kv)) (map_to_list js) in
  (fold_right Qplus 0 ps / inject_Z (Z.of_nat (List.length ps)))%Q.

Definition join_key (j : Join) : string :=
  from_table j +:+ field_name (from_field j) +:+ to_table j
  +:+ field_name (to_field j).

Definition self_pair (j : Join) : Prop :=
  from_table j = to_table j /\ field_name (from_field j) = field_name (to_field j).

(** The invariant of the enumeration: the joins have pairwise different
    keys, all recorded in [join_done], and none joins a column to
    itself. *)
Definition pairs_once (st : pstate) : Prop :=
  NoDup (map join_key (joins st))
  /\ (forall j, j ∈ joins st -> join_key j ∈ join_done st)
  /\ (forall j, j ∈ joins st -> ~ self_pair j).

Definition abc_pairs : list (string * string * string * string) :=
  [ ("A", "c1", "B", "c2"); ("A", "c1", "C", "c3");
    ("B", "c2", "A", "c1"); ("B", "c2", "C", "c3");
    ("C", "c3", "A", "c1"); ("C", "c3", "B", "c2") ].

(** [sem whole r s c s' c']: starting at [s] with the groups [c], the
    pattern [r] can take a prefix of [s], leaving [s'] and the groups
    [c']. *)
Inductive sem (whole : nat)
  : re -> list ascii -> caps -> list ascii -> caps -> Prop :=
| sem_eps s c : sem whole REps s c s c
| sem_char a s c : sem whole (RChar a) (a :: s) c s c
| sem_any x s c :
    Ascii.eqb x newline_char = false -> sem whole RAny (x :: s) c s c
| sem_set rs x s c :
    in_ranges x rs = true -> sem whole (RSet rs) (x :: s) c s c
| sem_bol s c : List.length s = whole -> sem whole RBol s c s c
| sem_seq a b s c s1 c1 s2 c2 :
    sem whole a s c s1 c1 -> sem whole b s1 c1 s2 c2 ->
    sem whole (RSeq a b) s c s2 c2
| sem_star_stop a s c : sem whole (RStar a) s c s c
| sem_star_more a s c s1 c1 s2 c2 :
    sem whole a s c s1 c1 -> (List.length s1 < List.length s)%nat ->
    sem whole (RStar a) s1 c1 s2 c2 ->
    sem whole (RStar a) s c s2 c2
| sem_plus a s c s1 c1 s2 c2 :
    sem whole a s c s1 c1 -> sem whole (RStar a) s1 c1 s2 c2 ->
    sem whole (RPlus a) s c s2 c2
| sem_opt_skip a s c : sem whole (ROpt a) s c s c
| sem_opt_take a s c s1 c1 :
    sem whole a s c s1 c1 -> sem whole (ROpt a) s c s1 c1
| sem_group n a s c s1 c1 :
    sem whole a s c s1 c1 ->
    sem whole (RGroup n a) s c s1
      (set_group n (take (List.length s - List.length s1) s) c1).

Definition sound (whole : nat) (a : re) (body : matcher) : Prop :=
  forall s c k r, body s c k = Some r ->
    exists s' c', sem whole a s c s' c' /\ k s' c' = Some r.

(** Patterns for one character. *)
Definition atom_ok (a : re) (x : ascii) : bool :=
  match a with
  | RChar y => Ascii.eqb x y
  | RAny => negb (Ascii.eqb x newline_char)
  | RSet rs => in_ranges x rs
  | _ => false
  end.

Definition is_atom (a : re) : bool :=
  match a with
  | RChar _ | RAny | RSet _ => true
  | _ => false
  end.

Definition is_digit (x : ascii) : bool := in_ranges x [("0"%char, "9"%char)].

Definition is_alnum (x : ascii) : bool :=
  in_ranges x [("0"%char, "9"%char); ("a"%char, "z"%char); ("A"%char, "Z"%char)].

Ltac sem_inv H := inversion H; subst; clear H.

Definition complete (whole : nat) (a : re) (body : matcher) : Prop :=
  forall s c s' c' k,
    sem whole a s c s' c' -> is_Some (k s' c') -> is_Some (body s c k).

(** The item the compiler makes of one character of a wildcard pattern,
    after [*] was replaced by [.*]. *)
Definition glob_item (c : ascii) : re :=
  if Ascii.eqb c star_char then RStar RAny
  else if Ascii.eqb c dot_char then RAny
  else RChar c.

Definition accept : kont := fun _ c => Some c.

Definition entry_of (name : string) (f : Field) : string :=
  name +:+ "|" +:+ field_name f.

(** The matches one table contributes. *)
Definition table_matches (table_fmt column_fmt : string) (t : Table)
  : list string :=
  if glob_match table_fmt (table_name t) && negb (old_version t)
  then map (entry_of (table_name t))
         (List.filter (fun f => glob_match column_fmt (field_name f))
            (default [] (fields t)))
  else [].

(** ** Further reference definitions *)

(** The base a table name has under the version pattern, if it matches. *)
Definition base_of (name : string) : option string :=
  group_str 1 <$> match_re version_re name.

(** The state of the detection loop after the tables named [seen]:
    [no_version_tables] holds the names seen that do not match; such a
    name is its own latest table; for any other base the latest table is
    a greatest name seen of the family of the base, if any was seen. *)
Definition detect_inv (st : vstate) (seen : list string) : Prop :=
  (forall k, k ∈ no_version_tables st <-> (k ∈ seen /\ base_of k = None))
  /\ (forall k, k ∈ no_version_tables st -> latest_table_base st !! k = Some k)
  /\ (forall b, b ∉ no_version_tables st ->
        match latest_table_base st !! b with
        | None => forall n, n ∈ seen -> base_of n <> Some b
        | Some m =>
            m ∈ seen /\ base_of m = Some b
            /\ (forall n, n ∈ seen -> base_of n = Some b ->
                          (m <? n)%string = false)
        end).

(** An entry that wildcard expansion can write: a table that is not an
    old version, a bar, one of its loaded fields. *)
Definition table_field_entry (ds : list Dataset) (e : string) : Prop :=
  exists t fs f,
    t ∈ all_tables ds /\ old_version t = false /\ fields t = Some fs
    /\ f ∈ fs /\ e = table_name t +:+ "|" +:+ field_name f.

(** What holds of a join the enumeration made: its name, that its two
    fields are what [find_field] gives for its tables and columns, that
    its numbers are the statistics of the answer to its query, and that
    the query names its tables with [:] replaced. *)
Definition join_made (ds : list Dataset) (gc : gmap string string)
  (query : JoinQuery -> list Row) (j : Join) : Prop :=
  find_field ds (from_table j) (field_name (from_field j))
  = Ok (Some (from_field j))
  /\ find_field ds (to_table j) (field_name (to_field j))
     = Ok (Some (to_field j))
  /\ join_statistics (gc !! from_table j) (query (sql j))
     = Ok (percent j, num_rows j, join_stats j)
  /\ q_first_table (sql j) = tsql (from_table j)
  /\ q_first_column (sql j) = field_name (from_field j)
  /\ q_second_table (sql j) = tsql (to_table j)
  /\ q_second_column (sql j) = field_name (to_field j)
  /\ startswith_plus (from_table j) = false
  /\ startswith_plus (to_table j) = false.

(** An entry with exactly one bar whose table part has no marker. *)
Definition optional_entry (e : string) : Prop :=
  exists t c, unpack2 (split bar_char e) = Ok (t, c)
              /\ startswith_plus t = false.

(** The key under which a row of the answer is recorded, and the
    statistics recorded for it. *)
Definition key_of (group_by : option string) (row : Row) : string :=
  if no_group_by group_by then "" else grouped row.

Definition bucket_stat (group_by : option string) (row : Row) : JoinStat :=
  {| stat_percent := (inject_Z (second_cnt row) / inject_Z (cnt row))%Q;
     stat_num_rows := second_cnt row;
     stat_key := if no_group_by group_by then "all" else grouped row;
     stat_sample_value := sample_value row |}.

(** A row as a counting query gives it: some rows counted, and of them
    no more matched than counted. *)
Definition counted (row : Row) : Prop :=
  (0 <= second_cnt row <= cnt row)%Z /\ (0 < cnt row)%Z.

(** ** Config loader (lines 46-68)

    A parsed configuration file is given by the items of its "tables",
    "groups" and "joins" objects, in their order; an object that is
    absent has no items. Dictionaries whose order of insertion matters
    are lists of items with one item per key. *)

Record config_file : Type := mkConfigFile {
  cf_tables : list (string * list string);
  cf_groups : list (string * string);
  cf_joins : list (string * list string)
}.

(** [d.get(k)] *)
Fixpoint od_lookup {V : Type} (k : string) (d : list (string * V))
  : option V :=
  match d with
  | [] => None
  | (k', v) :: d' => if bool_decide (k' = k) then Some v else od_lookup k d'
  end.

(** [d[k] = v]: in place for a key of [d], at the end otherwise. *)
Fixpoint od_set {V : Type} (k : string) (v : V) (d : list (string * V))
  : list (string * V) :=
  match d with
  | [] => [(k, v)]
  | (k', v') :: d' =>
      if bool_decide (k' = k) then (k', v) :: d'
      else (k', v') :: od_set k v d'
  end.

(** The body of the loops over the items of "tables" and of "joins":
    [extend] for a key already there, a new entry otherwise. *)
Definition merge_item (config : list (string * list string))
  (kv : string * list string) : list (string * list string) :=
  match od_lookup kv.1 config with
  | Some old => od_set kv.1 (old ++ kv.2) config
  | None => od_set kv.1 kv.2 config
  end.

Definition merge_items (config : list (string * list string))
  (items : list (string * list string)) : list (string * list string) :=
  fold_left merge_item items config.

(** [group_config.update(...)] *)
Definition update_groups (config : gmap string string)
  (items : list (string * string)) : gmap string string :=
  fold_left (fun g kv => <[kv.1 := kv.2]> g) items config.

Record configs : Type := mkConfigs {
  table_config : list (string * list string);
  group_config : gmap string string;
  joins_config : join_config
}.

Definition read_config (c : configs) (f : config_file) : configs :=
  {| table_config := merge_items (table_config c) (cf_tables f);
     group_config := update_groups (group_config c) (cf_groups f);
     joins_config := merge_items (joins_config c) (cf_joins f) |}.

Definition read_configs (files : list config_file) : configs :=
  fold_left read_config files
    {| table_config := []; group_config := ∅; joins_config := [] |}.

(** The values the items have for a key, in order. *)
Definition values_of {V : Type} (k : string) (items : list (string * V))
  : list V :=
  map snd (List.filter (fun kv => bool_decide (kv.1 = k)) items).

(** ** Table discovery (lines 128-148)

    [ls dataset] is the list of table ids the warehouse returns for a
    dataset. *)

(** [dataset.tables.append(table)] for the dataset called [nice_name]. *)
Fixpoint append_table (nice_name : string) (table : Table)
  (datasets : list Dataset) : list Dataset :=
  match datasets with
  | [] => []
  | d :: ds' =>
      if bool_decide (dataset_name d = nice_name)
      then {| dataset_name := dataset_name d; tables := tables d ++ [table] |}
           :: ds'
      else d :: append_table nice_name table ds'
  end.

(** The loop over the listed tables. *)
Fixpoint discover_ids (nice_name dataset table_pattern : string)
  (ids : list string) (datasets : list Dataset) : outcome (list Dataset) :=
  match ids with
  | [] => Ok datasets
  | name :: ids' =>
      b ← re_matches (replace_star table_pattern) name;
      discover_ids nice_name dataset table_pattern ids'
        (if b : bool
         then append_table nice_name (new_table (dataset +:+ "." +:+ name))
                datasets
         else datasets)
  end.

(** The body of the loop over the table formats of one entry. *)
Definition discover_fmt (ls : string -> list string) (nice_name : string)
  (datasets : list Dataset) (table_fmt : string) : outcome (list Dataset) :=
  '(dataset, table_pattern) ← unpack2 (split dot_char table_fmt);
  let datasets :=
    if bool_decide (nice_name ∈ map dataset_name datasets) then datasets
    else datasets ++ [ {| dataset_name := nice_name; tables := [] |} ] in
  discover_ids nice_name dataset table_pattern (ls dataset) datasets.

Definition discover_entry (ls : string -> list string)
  (datasets : list Dataset) (kv : string * list string)
  : outcome (list Dataset) :=
  foldM (discover_fmt ls kv.1) kv.2 datasets.

Definition discover (ls : string -> list string)
  (config : list (string * list string)) : outcome (list Dataset) :=
  foldM (discover_entry ls) config [].

(** Whether a listed table id matches a table pattern. *)
Definition id_matches (table_pattern name : string) : bool :=
  match re_matches (replace_star table_pattern) name with
  | Ok b => b
  | _ => false
  end.

(** The names of the tables one table format selects, and those of the
    formats of one entry. *)
Definition fmt_names (ls : string -> list string) (table_fmt : string)
  : list string :=
  match split dot_char table_fmt with
  | [dataset; table_pattern] =>
      map (fun name => dataset +:+ "." +:+ name)
        (List.filter (id_matches table_pattern) (ls dataset))
  | _ => []
  end.

Definition entry_names (ls : string -> list string) (fmts : list string)
  : list string :=
  concat (map (fmt_names ls) fmts).

(** A table format with exactly one dot. *)
Definition dotted (table_fmt : string) : Prop :=
  exists dataset table_pattern,
    split dot_char table_fmt = [dataset; table_pattern].

Definition has_formats (kv : string * list string) : bool :=
  match kv.2 with
  | [] => false
  | _ :: _ => true
  end.

(** ** The date of a dataset (lines 205-207)

    [last_modified name] is the date string [ts_to_string] gives for the
    table; the conversion itself is the library's. *)

(** [if not dataset.last_updated or dataset.last_updated <
    table.last_updated: dataset.last_updated = table.last_updated] *)
Definition update_last_updated (last_updated : option string)
  (table_last_updated : string) : option string :=
  match last_updated with
  | None => Some table_last_updated
  | Some cur =>
      if bool_decide (cur = "") || (cur <? table_last_updated)%string
      then Some table_last_updated
      else Some cur
  end.

(** The loading loop, as far as [dataset.last_updated] goes: the tables
    of the dataset in order, old versions skipped. *)
Definition dataset_last_updated (last_modified : string -> string)
  (d : Dataset) : option string :=
  fold_left
    (fun cur t =>
       if old_version t then cur
       else update_last_updated cur (last_modified (table_name t)))
    (tables d) None.

(** The dates of the tables of a dataset that are loaded. *)
Definition loaded_dates (last_modified : string -> string) (d : Dataset)
  : list string :=
  map (fun t => last_modified (table_name t))
    (List.filter (fun t => negb (old_version t)) (tables d)).

(** The greatest of the dates seen so far. *)
Definition greatest_of (dates : list string) (cur : option string) : Prop :=
  match cur with
  | None => dates = []
  | Some m => m ∈ dates /\ forall d, d ∈ dates -> (m <? d)%string = false
  end.

(** The part of the version pattern after the first group. *)
Definition version_tail : re :=
  RSeq (RChar "_"%char)
    (RSeq
       (RGroup 2
          (RSeq (RPlus (RSet [("0"%char, "9"%char)]))
             (RSeq
                (RStar (RSet [("0"%char, "9"%char); ("a"%char, "z"%char);
                              ("A"%char, "Z"%char)]))
                REps)))
       REps).

(** The names and [version] attributes of all tables, in order. *)
Definition names_versions (ds : list Dataset) : list (string * option string) :=
  map (fun t => (table_name t, version t)) (all_tables ds).

(** ** The record classes (lines 77-108)

    [namedtuple(name, field_list)] makes a class whose attributes named
    in [field_list] default to [None], with the methods [__init__] and
    [__repr__]. An instance is given by the attributes set on it. The
    text [__repr__] returns is left out. *)

Inductive attribute_error : Type :=
| AttributeError (k : string).

(** [fields = field_list.split(" ")] *)
Definition namedtuple_fields (field_list : string) : list string :=
  split " "%char field_list.

(** [init]: the keyword arguments in order; one that is no field raises,
    the others are set. *)
Fixpoint init {V : Type} (fields : list string) (kwargs : list (string * V))
  (self : gmap string V) : attribute_error + gmap string V :=
  match kwargs with
  | [] => inr self
  | (k, v) :: kwargs' =>
      if bool_decide (k ∈ fields) then init fields kwargs' (<[k := v]> self)
      else inl (AttributeError k)
  end.

(** An attribute as read: a value set on the instance, or the default
    [None] of the class for a field ([Value None]); or one of the two
    methods of the class, bound to the instance. *)
Inductive attribute (V : Type) : Type :=
| Value (v : option V)
| Method (name : string).
Arguments Value {V} v.
Arguments Method {V} name.

(** Reading an attribute returns it or raises; [ReadUnmodelled]: what
    the read does is not modelled. *)
Inductive read (V : Type) : Type :=
| Read (a : attribute V)
| ReadError (e : attribute_error)
| ReadUnmodelled.
Arguments Read {V} a.
Arguments ReadError {V} e.
Arguments ReadUnmodelled {V}.

(** The methods line 98 puts into the class. *)
Definition method_names : list string := ["__init__"; "__repr__"].

(** Names that begin with two underscores: [type] and [object] define
    attributes under some of them ([__class__], [__dict__], [__doc__],
    ...), and no attribute under any other name. *)
Definition reserved_name (k : string) : bool := String.prefix "__" k.

(** Reading an attribute: the instance's, else the class's (a method, or
    the default of a field); a name found nowhere raises. Reads under
    reserved names other than the two methods are not modelled. *)
Definition getattr {V : Type} (fields : list string) (self : gmap string V)
  (k : string) : read V :=
  if bool_decide (k ∈ method_names) then
    match self !! k with
    | Some v => Read (Value (Some v))
    | None => Read (Method k)
    end
  else if reserved_name k then ReadUnmodelled
  else
    match self !! k with
    | Some v => Read (Value (Some v))
    | None => if bool_decide (k ∈ fields) then Read (Value None)
              else ReadError (AttributeError k)
    end.

(** The field lists of the five classes. *)
Definition Dataset_fields : list string :=
  namedtuple_fields "name last_updated tables".
Definition Table_fields : list string :=
  namedtuple_fields
    "name version dataset_description description dataset fields last_updated num_rows from_joins num_bytes old_version".
Definition Field_fields : list string :=
  namedtuple_fields "name table description type mode from_joins to_joins".
Definition Join_fields : list string :=
  namedtuple_fields "name from_field to_field percent num_rows join_stats sql".
Definition JoinStat_fields : list string :=
  namedtuple_fields "percent num_rows key sample_value".

(** The keywords of the constructor calls of the program. *)
Definition constructor_calls : list (list string * list string) :=
  [ (Dataset_fields, ["name"]);
    (Table_fields, ["name"; "dataset"; "dataset_description"]);
    (Field_fields, ["name"; "table"; "description"; "type"; "mode"]);
    (JoinStat_fields, ["key"; "num_rows"]);
    (Join_fields, ["name"; "from_field"; "to_field"; "join_stats"; "sql"]);
    (JoinStat_fields, ["percent"; "num_rows"; "key"; "sample_value"]) ].

(** * Properties *)

(** ** Version resolver *)

Lemma detect_table_key st t : table_key (detect_table st t).2 = table_key t.
Proof.
  unfold detect_table.
  destruct (match_re version_re (table_name t)) as [m|]; [|done].
  destruct (latest_table_base st !! group_str 1 m) as [latest|]; [|done].
  by destruct (_ && _).
Qed.

Lemma detect_tables_cons st t ts :
  detect_tables st (t :: ts)
  = ((detect_tables (detect_table st t).1 ts).1,
     (detect_table st t).2 :: (detect_tables (detect_table st t).1 ts).2).
Proof.
  cbn [detect_tables]. destruct (detect_table st t) as [st1 t'].
  cbn [fst snd]. by destruct (detect_tables st1 ts).
Qed.

Lemma detect_datasets_cons st d ds :
  detect_datasets st (d :: ds)
  = ((detect_datasets (detect_tables st (tables d)).1 ds).1,
     {| dataset_name := dataset_name d;
        tables := (detect_tables st (tables d)).2 |}
     :: (detect_datasets (detect_tables st (tables d)).1 ds).2).
Proof.
  cbn [detect_datasets]. destruct (detect_tables st (tables d)) as [st1 ts].
  cbn [fst snd]. by destruct (detect_datasets st1 ds).
Qed.

Lemma detect_tables_state st ts :
  (detect_tables st ts).1 = detect_state st ts.
Proof.
  revert st. induction ts as [|t ts IH]; intros st; [done|].
  rewrite detect_tables_cons. cbn [fst]. by rewrite IH.
Qed.

Lemma detect_tables_keys st ts :
  map table_key (detect_tables st ts).2 = map table_key ts.
Proof.
  revert st. induction ts as [|t ts IH]; intros st; [done|].
  rewrite detect_tables_cons. cbn [snd map].
  by rewrite detect_table_key, IH.
Qed.

Lemma detect_state_app st ts1 ts2 :
  detect_state st (ts1 ++ ts2) = detect_state (detect_state st ts1) ts2.
Proof. apply fold_left_app. Qed.

Lemma all_tables_cons d ds : all_tables (d :: ds) = tables d ++ all_tables ds.
Proof. done. Qed.

Lemma detect_datasets_state st ds :
  (detect_datasets st ds).1 = detect_state st (all_tables ds).
Proof.
  revert st. induction ds as [|d ds IH]; intros st; [done|].
  rewrite detect_datasets_cons, all_tables_cons, detect_state_app.
  cbn [fst]. by rewrite IH, detect_tables_state.
Qed.

Lemma detect_datasets_keys st ds :
  map table_key (all_tables (detect_datasets st ds).2)
  = map table_key (all_tables ds).
Proof.
  revert st. induction ds as [|d ds IH]; intros st; [done|].
  rewrite detect_datasets_cons. cbn [snd].
  rewrite !all_tables_cons, !map_app. cbn [tables].
  by rewrite detect_tables_keys, IH.
Qed.

Lemma all_tables_mark latest ds :
  all_tables (mark_datasets latest ds)
  = map (mark_table latest) (all_tables ds).
Proof.
  unfold all_tables, mark_datasets.
  induction ds as [|d ds IH]; [done|].
  simpl. by rewrite map_app, IH.
Qed.

Lemma all_tables_discovered names :
  all_tables (discovered names) = map new_table (concat (map snd names)).
Proof.
  unfold all_tables, discovered.
  induction names as [|[n ts] names IH]; [done|].
  simpl. by rewrite map_app, IH.
Qed.

Lemma names_old_resolve ds :
  names_old (resolve_versions ds)
  = map (flag_of (latest_tables (detect_state vstate_init (all_tables ds))))
      (map table_key (all_tables ds)).
Proof.
  unfold names_old, resolve_versions.
  pose proof (detect_datasets_state vstate_init ds) as Hs.
  pose proof (detect_datasets_keys vstate_init ds) as Hk.
  destruct (detect_datasets vstate_init ds) as [st ds'].
  simpl in *. subst st. rewrite all_tables_mark, <- Hk.
  rewrite !map_map. apply map_ext. intros t.
  unfold mark_table, flag_of, table_key. simpl.
  by destruct (bool_decide _).
Qed.

Lemma names_old_discovered names :
  names_old (resolve_versions (discovered names))
  = old_flags (concat (map snd names)).
Proof.
  rewrite names_old_resolve, all_tables_discovered.
  unfold old_flags. rewrite !map_map. apply map_ext. intros n.
  unfold flag_of. simpl. by destruct (bool_decide _).
Qed.

Lemma own_latest_init : own_latest vstate_init.
Proof. intros n Hn. by apply not_elem_of_empty in Hn. Qed.

Lemma detect_table_own_latest st t :
  own_latest st -> own_latest (detect_table st t).1.
Proof.
  intros Hinv. unfold detect_table.
  destruct (match_re version_re (table_name t)) as [m|].
  - destruct (latest_table_base st !! group_str 1 m) as [latest|] eqn:Hl.
    + destruct (_ <? _)%string; cbn [andb]; [|done].
      destruct (bool_decide (group_str 1 m ∈ no_version_tables st)) eqn:Hb;
        cbn [negb]; [done|].
      apply bool_decide_eq_false in Hb.
      intros n Hn. cbn [fst latest_table_base no_version_tables] in *.
      rewrite lookup_insert_ne; [by apply Hinv|].
      intros Heq. apply Hb. by rewrite Heq.
    + intros n Hn. cbn [fst latest_table_base no_version_tables] in *.
      pose proof (Hinv n Hn) as Hnn.
      rewrite lookup_insert_ne; [done|]. intros Heq. congruence.
  - intros n Hn. cbn [fst latest_table_base no_version_tables] in *.
    destruct (decide (table_name t = n)) as [->|Hne].
    + by rewrite lookup_insert_eq.
    + rewrite lookup_insert_ne; [|done]. apply Hinv.
      apply elem_of_union in Hn as [Hn|Hn]; [|done].
      apply elem_of_singleton in Hn. congruence.
Qed.

Lemma detect_table_no_version_mono st t n :
  n ∈ no_version_tables st -> n ∈ no_version_tables (detect_table st t).1.
Proof.
  intros Hn. unfold detect_table.
  destruct (match_re version_re (table_name t)) as [m|].
  - destruct (latest_table_base st !! group_str 1 m); [|done].
    by destruct (_ && _).
  - cbn. set_solver.
Qed.

Lemma detect_table_no_version_add st t :
  match_re version_re (table_name t) = None ->
  table_name t ∈ no_version_tables (detect_table st t).1.
Proof. intros Hm. unfold detect_table. rewrite Hm. cbn. set_solver. Qed.

Lemma detect_state_cons st t ts :
  detect_state st (t :: ts) = detect_state (detect_table st t).1 ts.
Proof. done. Qed.

Lemma detect_state_own_latest ts st :
  own_latest st -> own_latest (detect_state st ts).
Proof.
  revert st. induction ts as [|t ts IH]; intros st Hinv; [done|].
  rewrite detect_state_cons. apply IH. by apply detect_table_own_latest.
Qed.

Lemma detect_state_no_version_mono ts st n :
  n ∈ no_version_tables st -> n ∈ no_version_tables (detect_state st ts).
Proof.
  revert st. induction ts as [|t ts IH]; intros st Hn; [done|].
  rewrite detect_state_cons. apply IH. by apply detect_table_no_version_mono.
Qed.

Lemma detect_state_no_version_add ts st t :
  t ∈ ts -> match_re version_re (table_name t) = None ->
  table_name t ∈ no_version_tables (detect_state st ts).
Proof.
  intros Hin Hm. revert st.
  induction ts as [|t' ts IH]; intros st.
  - by apply elem_of_nil in Hin.
  - rewrite detect_state_cons. apply elem_of_cons in Hin as [Heq|Hin].
    + subst t'. apply detect_state_no_version_mono.
      by apply detect_table_no_version_add.
    + by apply IH.
Qed.

(** A table without version is among the latest tables at the end. *)
Lemma no_version_table_latest ts t :
  t ∈ ts -> match_re version_re (table_name t) = None ->
  table_name t ∈ latest_tables (detect_state vstate_init ts).
Proof.
  intros Hin Hm. unfold latest_tables. apply elem_of_map_img.
  exists (table_name t).
  apply (detect_state_own_latest ts vstate_init own_latest_init).
  by apply detect_state_no_version_add.
Qed.

(** C5: after version resolution of the discovered tables, whatever their
    names and their order, a table whose name does not match the version
    pattern is not marked as an old version. *)
Theorem no_version_table_never_old
  (names : list (string * list string)) (n : string) (old : bool) :
  (n, old) ∈ names_old (resolve_versions (discovered names)) ->
  match_re version_re n = None ->
  old = false.
Proof.
  rewrite names_old_discovered. unfold old_flags.
  intros Hin Hm. apply list_elem_of_fmap in Hin as (n' & Heq & Hin).
  inversion Heq; subst n' old; clear Heq.
  apply negb_false_iff, bool_decide_eq_true.
  apply (no_version_table_latest _ (new_table n)); [|done].
  apply list_elem_of_fmap. by exists n.
Qed.

Lemma no_version_table_never_old_witness :
  (("b", false) ∈
     names_old (resolve_versions (discovered [("d", ["b_2"; "b"; "b_10"])])))
  /\ match_re version_re "b" = None.
Proof.
  assert (H1 : ("b", false) ∈
     names_old (resolve_versions (discovered [("d", ["b_2"; "b"; "b_10"])]))).
  { vm_compute. apply list_elem_of_In. right. left. reflexivity. }
  assert (H2 : match_re version_re "b" = None) by reflexivity.
  pose proof (no_version_table_never_old _ _ _ H1 H2) as H3.
  split; assumption.
Defined.

(** ** Schema flattening *)

Lemma add_field_node parent n d ty mo fs acc :
  add_field parent (SchemaField n d ty mo (Some fs)) acc
  = add_fields (qualify parent n) fs
      (acc ++ [ {| field_name := qualify parent n;
                   field_description := default "" d;
                   field_type := default "" ty;
                   field_mode := default "" mo |} ]).
Proof.
  cbn [add_field]. fold (qualify parent n).
  generalize (acc ++ [ {| field_name := qualify parent n;
                          field_description := default "" d;
                          field_type := default "" ty;
                          field_mode := default "" mo |} ]).
  induction fs as [|g gs IH]; intros l; [done|].
  cbn [add_fields]. apply IH.
Qed.

Lemma add_fields_app_flatten parent fs acc :
  Forall (fun f => forall p l, add_field p f l = l ++ flatten_field p f) fs ->
  add_fields parent fs acc = acc ++ flatten parent fs.
Proof.
  intros Hall. revert acc.
  induction Hall as [|g gs Hg _ IH]; intros acc.
  - unfold flatten. simpl. by rewrite app_nil_r.
  - cbn [add_fields]. rewrite IH, Hg. unfold flatten. simpl.
    by rewrite app_assoc.
Qed.

Lemma add_field_flatten f :
  forall parent acc, add_field parent f acc = acc ++ flatten_field parent f.
Proof.
  induction f as [n d ty mo|n d ty mo fs IH] using schema_field_nested_ind;
    intros parent acc.
  - done.
  - rewrite add_field_node, (add_fields_app_flatten _ _ _ IH).
    cbn [flatten_field]. unfold flatten. by rewrite <- app_assoc.
Qed.

(** C7: [add_fields] appends to [table_fields] the pre-order flattening
    of the schema: every field under its dot-qualified name, directly
    followed by its nested fields, in the order of declaration. The nested
    schema [{a, fields:[{b},{c}]}] gives a, a.b, a.c, and these are the
    fields a loaded table gets. *)
Theorem add_fields_preorder :
  (forall parent fs acc, add_fields parent fs acc = acc ++ flatten parent fs)
  /\ (forall show t, old_version t = false ->
        fields (load_table show t) = Some (flatten "" (show (table_name t))))
  /\ map field_name (add_fields "" nested_schema []) = ["a"; "a.b"; "a.c"].
Proof.
  assert (H : forall parent fs acc,
             add_fields parent fs acc = acc ++ flatten parent fs).
  { intros parent fs acc. apply add_fields_app_flatten.
    apply Forall_forall. intros f _. apply add_field_flatten. }
  split; [exact H|]. split; [|reflexivity].
  intros show t Hold. unfold load_table. rewrite Hold. cbn [fields].
  by rewrite H.
Qed.

Lemma add_fields_preorder_witness :
  fields (load_table (fun _ => nested_schema) (new_table "d.t"))
  = Some (flatten "" nested_schema).
Proof.
  apply (proj1 (proj2 add_fields_preorder) (fun _ => nested_schema)
           (new_table "d.t")).
  reflexivity.
Defined.

(** ** Join statistics *)

Lemma true_div_nonzero a b :
  b <> 0%Z -> true_div a b = Ok (inject_Z a / inject_Z b)%Q.
Proof. intros Hb. unfold true_div. by apply Z.eqb_neq in Hb as ->. Qed.

Lemma true_div_zero a : true_div a 0 = Raise ZeroDivisionError.
Proof. done. Qed.

Lemma stats_row_cases group_by st row :
  (cnt row = 0%Z /\ stats_row group_by st row = Raise ZeroDivisionError)
  \/ (cnt row <> 0%Z /\
      exists js, stats_row group_by st row
                 = Ok {| total_rows := total_rows st + cnt row;
                         joined_rows := joined_rows st + second_cnt row;
                         stats := js |}).
Proof.
  unfold stats_row. destruct (decide (cnt row = 0%Z)) as [Hz|Hz].
  - left. split; [done|]. by rewrite Hz, true_div_zero.
  - right. split; [done|]. rewrite (true_div_nonzero _ _ Hz). cbn.
    destruct (no_group_by group_by); eauto.
Qed.

(** The loop over the rows either stops at a row with a zero count or
    ends with the sums of the counts. *)
Lemma stats_rows_cases group_by result st :
  (Exists (fun row => cnt row = 0%Z) result
   /\ stats_rows group_by st result = Raise ZeroDivisionError)
  \/ (Forall (fun row => cnt row <> 0%Z) result /\
      exists js, stats_rows group_by st result
                 = Ok {| total_rows := total_rows st + sum_cnt result;
                         joined_rows := joined_rows st + sum_second_cnt result;
                         stats := js |}).
Proof.
  revert st. induction result as [|row result IH]; intros st.
  - right. split; [constructor|]. exists (stats st). cbn.
    rewrite !Z.add_0_r. by destruct st.
  - cbn [stats_rows].
    destruct (stats_row_cases group_by st row) as [[Hz ->]|[Hz [js ->]]].
    + left. split; [by constructor|done].
    + cbn. destruct (IH {| total_rows := total_rows st + cnt row;
                           joined_rows := joined_rows st + second_cnt row;
                           stats := js |}) as [[Hex ->]|[Hall [js' ->]]].
      * left. split; [by apply Exists_cons_tl|done].
      * right. split; [by constructor|]. exists js'. cbn.
        by rewrite !Z.add_assoc.
Qed.

Lemma join_statistics_sums group_by result :
  Forall (fun row => cnt row <> 0%Z) result ->
  sum_cnt result <> 0%Z ->
  exists js,
    join_statistics group_by result
    = Ok ((inject_Z (sum_second_cnt result) / inject_Z (sum_cnt result))%Q,
          sum_second_cnt result, js).
Proof.
  intros Hall Hsum. unfold join_statistics.
  destruct (stats_rows_cases group_by result
              {| total_rows := 0; joined_rows := 0; stats := ∅ |})
    as [[Hex _]|[_ [js ->]]].
  - exfalso. apply Exists_exists in Hex as (row & Hin & Hz).
    rewrite Forall_forall in Hall. by apply (Hall row).
  - cbn. rewrite (true_div_nonzero _ _ Hsum). cbn. by exists js.
Qed.

(** C2: when no bucket of the answer is empty and the total is not zero,
    the percent of the join is the sum of the matched counts divided by
    the sum of the total counts, and its row count is the sum of the
    matched counts. For the buckets (10, 5) and (20, 0) the percent is
    5/30, which differs from the mean 1/4 of the per-bucket percentages. *)
Theorem join_percent_sums_counts :
  (forall group_by result,
     Forall (fun row => cnt row <> 0%Z) result ->
     sum_cnt result <> 0%Z ->
     exists js,
       join_statistics group_by result
       = Ok ((inject_Z (sum_second_cnt result) / inject_Z (sum_cnt result))%Q,
             sum_second_cnt result, js))
  /\ (exists js,
        join_statistics (Some "g") two_buckets = Ok ((5 # 30)%Q, 5%Z, js)
        /\ (mean_percent js == 1 # 4)%Q
        /\ ~ ((5 # 30) == mean_percent js)%Q).
Proof.
  split.
  - apply join_statistics_sums.
  - eexists. split; [vm_compute; reflexivity|].
    split; vm_compute; congruence.
Qed.

Lemma join_percent_sums_counts_witness :
  exists js, join_statistics None two_buckets = Ok ((5 # 30)%Q, 5%Z, js).
Proof.
  apply (proj1 join_percent_sums_counts None two_buckets).
  - repeat constructor; discriminate.
  - discriminate.
Defined.

(** C9: when the counts of the answer add up to zero, as for an empty
    from table, the statistics raise ZeroDivisionError: no percent is
    produced. When no single row has a zero count (in particular when the
    answer has no rows) the loop over the rows ends with a total of zero
    and it is the division for the overall percent that raises. *)
Theorem zero_total_division_by_zero (group_by : option string)
  (result : list Row) :
  sum_cnt result = 0%Z ->
  join_statistics group_by result = Raise ZeroDivisionError
  /\ (Forall (fun row => cnt row <> 0%Z) result ->
      exists st,
        stats_rows group_by stats_init result = Ok st
        /\ total_rows st = 0%Z
        /\ true_div (joined_rows st) (total_rows st) = Raise ZeroDivisionError).
Proof.
  intros Hsum. unfold join_statistics. fold stats_init.
  destruct (stats_rows_cases group_by result stats_init)
    as [[Hex Hr]|[Hall [js Hr]]]; rewrite Hr; cbn; rewrite ?Hsum.
  - split; [done|]. intros Hall. exfalso.
    apply Exists_exists in Hex as (row & Hin & Hz).
    rewrite Forall_forall in Hall. by apply (Hall row).
  - split; [done|]. intros _. eexists. split; [done|]. by cbn.
Qed.

Lemma zero_total_division_by_zero_witness :
  join_statistics None [] = Raise ZeroDivisionError
  /\ join_statistics None
       [ {| cnt := 0; second_cnt := 0; grouped := ""; sample_value := "" |} ]
     = Raise ZeroDivisionError.
Proof.
  split.
  - apply (zero_total_division_by_zero None []). reflexivity.
  - apply (zero_total_division_by_zero None
             [ {| cnt := 0; second_cnt := 0; grouped := "";
                  sample_value := "" |} ]).
    reflexivity.
Defined.

(** ** Field lookup *)

Lemma find_in_tables_app name column ts1 ts2 :
  find_in_tables name column (ts1 ++ ts2)
  = match find_in_tables name column ts1 with
    | Ok None => find_in_tables name column ts2
    | r => r
    end.
Proof.
  induction ts1 as [|t ts1 IH]; [done|].
  cbn [app find_in_tables].
  destruct (bool_decide (table_name t = name)); [|done].
  destruct (fields t) as [fs|]; [|done].
  by destruct (find_in_fields column fs).
Qed.

(** [find_field] visits the tables of all datasets as one sequence. *)
Lemma find_field_all_tables ds name column :
  find_field ds name column = find_in_tables name column (all_tables ds).
Proof.
  induction ds as [|d ds IH]; [done|].
  rewrite all_tables_cons, find_in_tables_app. cbn [find_field].
  rewrite IH. by destruct (find_in_tables name column (tables d)) as [[?|]| |].
Qed.

Lemma find_in_tables_first_unloaded name column ts t :
  List.find (fun t => bool_decide (table_name t = name)) ts = Some t ->
  fields t = None ->
  find_in_tables name column ts = Raise TypeError_not_iterable.
Proof.
  intros Hfind Hnone. induction ts as [|t' ts IH]; [done|].
  cbn [List.find find_in_tables] in *.
  destruct (bool_decide (table_name t' = name)).
  - injection Hfind as ->. by rewrite Hnone.
  - by apply IH.
Qed.

(** After loading, exactly the old versions have no fields. *)
Lemma all_tables_load show ds :
  all_tables (load_datasets show ds) = map (load_table show) (all_tables ds).
Proof.
  unfold all_tables, load_datasets.
  induction ds as [|d ds IH]; [done|].
  simpl. by rewrite map_app, IH.
Qed.

Lemma resolve_versions_fields names t :
  t ∈ all_tables (resolve_versions (discovered names)) -> fields t = None.
Proof.
  unfold resolve_versions.
  pose proof (detect_datasets_keys vstate_init (discovered names)) as Hk.
  destruct (detect_datasets vstate_init (discovered names)) as [st ds'].
  cbn [snd] in Hk. rewrite all_tables_mark. intros Hin.
  apply list_elem_of_fmap in Hin as (t0 & -> & Hin).
  assert (Hf : fields t0 = None).
  { assert (Hin' : table_key t0 ∈ map table_key (all_tables ds'))
      by (apply list_elem_of_fmap; eauto).
    rewrite Hk, all_tables_discovered, map_map in Hin'.
    apply list_elem_of_fmap in Hin' as (n & Heq & _).
    unfold table_key in Heq. cbn in Heq. congruence. }
  unfold mark_table. by destruct (bool_decide _).
Qed.

Lemma loaded_old_version_fields show names t :
  t ∈ all_tables (load_datasets show (resolve_versions (discovered names))) ->
  old_version t = true -> fields t = None.
Proof.
  rewrite all_tables_load. intros Hin Hold.
  apply list_elem_of_fmap in Hin as (t0 & -> & Hin).
  apply resolve_versions_fields in Hin.
  unfold load_table in *. destruct (old_version t0) eqn:E; [done|].
  cbn in Hold. congruence.
Qed.


(** ** Pair enumeration *)

Lemma find_in_fields_name column fs f :
  find_in_fields column fs = Some f -> field_name f = column.
Proof.
  induction fs as [|f' fs IH]; [done|]. cbn.
  destruct (bool_decide (column = field_name f')) eqn:E.
  - intros [= ->]. by apply bool_decide_eq_true in E.
  - apply IH.
Qed.

Lemma find_field_name ds name column f :
  find_field ds name column = Ok (Some f) -> field_name f = column.
Proof.
  rewrite find_field_all_tables.
  induction (all_tables ds) as [|t ts IH]; [done|]. cbn.
  destruct (bool_decide (table_name t = name)); [|done].
  destruct (fields t) as [fs|]; [|done].
  destruct (find_in_fields column fs) as [f'|] eqn:E; [|done].
  intros [= ->]. by apply find_in_fields_name in E.
Qed.

(** One round of the inner loop leaves the state as it is or adds one
    join, whose key was not yet in [join_done]. *)
Lemma pair_body_ok ds gc query name jg i st j st' :
  pair_body ds gc query name jg i st j = Ok st' ->
  st' = st
  \/ exists jn,
       joins st' = joins st ++ [jn]
       /\ join_done st' = ({[join_key jn]} ∪ join_done st)
       /\ (join_key jn ∉ join_done st)
       /\ ~ self_pair jn
       /\ join_name jn = name.
Proof.
  unfold pair_body. destruct (j =? i)%nat; [intros [= <-]; by left|].
  destruct (jg !! i) as [ei|]; [|done].
  destruct (jg !! j) as [ej|]; [|done].
  destruct (unpack2 (split bar_char ei)) as [[t1 c1]| |]; [|done..].
  destruct (unpack2 (split bar_char ej)) as [[t2 c2]| |]; [|done..].
  cbn. destruct (_ && _); [intros [= <-]; by left|].
  destruct (bool_decide (_ ∈ join_done st)) eqn:Hdone;
    [intros [= <-]; by left|].
  apply bool_decide_eq_false in Hdone.
  destruct (bool_decide (lstrip_plus t1 = lstrip_plus t2)
            && bool_decide (c1 = c2)) eqn:Hself;
    cbn; [intros [= <-]; by left|].
  destruct (find_field ds (lstrip_plus t1) c1) as [from| |] eqn:Hfrom;
    [|done..].
  destruct (find_field ds (lstrip_plus t2) c2) as [to| |] eqn:Hto;
    [|done..].
  cbn. destruct from as [f1|]; [|done]. destruct to as [f2|]; [|done].
  destruct (join_statistics _ _) as [[[p n] js]| |]; [|done..].
  cbn. intros [= <-]. right. eexists. split; [reflexivity|].
  apply find_field_name in Hfrom, Hto.
  unfold join_key, self_pair. cbn. rewrite Hfrom, Hto.
  repeat split; try done.
  intros [H1 H2]. apply andb_false_iff in Hself as [H|H];
    apply bool_decide_eq_false in H; done.
Qed.

Lemma foldM_cons {A B : Type} (f : B -> A -> outcome B) a l b :
  foldM f (a :: l) b = f b a ≫= foldM f l.
Proof. done. Qed.

Lemma foldM_invariant {A B : Type} (f : B -> A -> outcome B) (P : B -> Prop) :
  (forall b a b', f b a = Ok b' -> P b -> P b') ->
  forall l b b', foldM f l b = Ok b' -> P b -> P b'.
Proof.
  intros Hstep l. induction l as [|a l IH]; intros b b'.
  - by intros [= <-].
  - rewrite foldM_cons. destruct (f b a) as [b1| |] eqn:E; [|done..].
    cbn. intros Hrest Hb. apply (IH b1 b' Hrest). by apply (Hstep b a).
Qed.

Lemma pairs_once_init : pairs_once {| join_done := ∅; joins := [] |}.
Proof.
  split; [constructor|]. split; intros j Hj; by apply elem_of_nil in Hj.
Qed.

Lemma pair_body_pairs_once ds gc query name jg i st j st' :
  pair_body ds gc query name jg i st j = Ok st' ->
  pairs_once st -> pairs_once st'.
Proof.
  intros Hok (Hnd & Hdone & Hself).
  apply pair_body_ok in Hok as [->|(jn & Hj & Hd & Hnew & Hns & _)]; [done|].
  unfold pairs_once. rewrite Hj, Hd. repeat split.
  - rewrite map_app. apply NoDup_app. split; [done|]. split.
    + intros k Hk Hk'. apply list_elem_of_fmap in Hk as (j' & -> & Hin).
      apply list_elem_of_singleton in Hk'. apply Hnew. rewrite <- Hk'.
      by apply Hdone.
    + apply NoDup_singleton.
  - intros j' Hin. apply elem_of_app in Hin as [Hin|Hin].
    + apply elem_of_union_r. by apply Hdone.
    + apply list_elem_of_singleton in Hin as ->.
      apply elem_of_union_l. by apply elem_of_singleton.
  - intros j' Hin. apply elem_of_app in Hin as [Hin|Hin].
    + by apply Hself.
    + by apply list_elem_of_singleton in Hin as ->.
Qed.

Lemma enumerate_joins_pairs_once ds gc query config st :
  enumerate_joins ds gc query config = Ok st -> pairs_once st.
Proof.
  intros Hok. unfold enumerate_joins in Hok.
  refine (foldM_invariant _ pairs_once _ _ _ _ Hok pairs_once_init).
  intros b [name jg] b' Hg. unfold pair_group in Hg.
  refine (foldM_invariant _ pairs_once _ _ _ _ Hg).
  intros b1 i b1' Hi.
  refine (foldM_invariant _ pairs_once _ _ _ _ Hi).
  intros b2 j b2'. apply pair_body_pairs_once.
Qed.

Lemma pair_body_same ds gc query name jg i st :
  pair_body ds gc query name jg i st i = Ok st.
Proof. unfold pair_body. by rewrite Nat.eqb_refl. Qed.

(** A round for two entries that pass the tests, with both fields found
    and a usable answer, adds the join of the ordered pair. *)
Lemma pair_body_accept ds gc query name jg i j st ei ej t1 c1 t2 c2 f1 f2 :
  (j =? i)%nat = false ->
  jg !! i = Some ei -> jg !! j = Some ej ->
  unpack2 (split bar_char ei) = Ok (t1, c1) ->
  unpack2 (split bar_char ej) = Ok (t2, c2) ->
  negb (startswith_plus t1) && negb (startswith_plus t2) = false ->
  bool_decide (lstrip_plus t1 +:+ c1 +:+ lstrip_plus t2 +:+ c2 ∈ join_done st)
  = false ->
  bool_decide (lstrip_plus t1 = lstrip_plus t2) && bool_decide (c1 = c2)
  = false ->
  find_field ds (lstrip_plus t1) c1 = Ok (Some f1) ->
  find_field ds (lstrip_plus t2) c2 = Ok (Some f2) ->
  (forall q, Forall (fun row => cnt row <> 0%Z) (query q)
             /\ sum_cnt (query q) <> 0%Z) ->
  exists st',
    pair_body ds gc query name jg i st j = Ok st'
    /\ join_done st'
       = ({[lstrip_plus t1 +:+ c1 +:+ lstrip_plus t2 +:+ c2]} ∪ join_done st)
    /\ map join_pair (joins st')
       = map join_pair (joins st) ++ [(lstrip_plus t1, c1, lstrip_plus t2, c2)].
Proof.
  intros Hji Hi Hj Hs1 Hs2 Hplus Hdone Hself Hf1 Hf2 Hq.
  unfold pair_body. rewrite Hji, Hi, Hj, Hs1, Hs2. cbn.
  rewrite Hplus, Hdone, Hself. cbn. rewrite Hf1, Hf2. cbn.
  match goal with
  | |- context [join_statistics ?g (query ?q)] =>
      destruct (Hq q) as [Hall Hsum];
      destruct (join_statistics_sums g (query q) Hall Hsum) as [js ->]
  end.
  cbn. eexists. split; [reflexivity|]. cbn. split; [done|].
  rewrite map_app. cbn. unfold join_pair at 2. cbn.
  by rewrite (find_field_name _ _ _ _ Hf1), (find_field_name _ _ _ _ Hf2).
Qed.

(** A round for two entries that pass the tests raises what the lookup of
    the first field raises. *)
Lemma pair_body_lookup_raises ds gc query name jg i j st ei ej t1 c1 t2 c2 e :
  (j =? i)%nat = false ->
  jg !! i = Some ei -> jg !! j = Some ej ->
  unpack2 (split bar_char ei) = Ok (t1, c1) ->
  unpack2 (split bar_char ej) = Ok (t2, c2) ->
  negb (startswith_plus t1) && negb (startswith_plus t2) = false ->
  bool_decide (lstrip_plus t1 +:+ c1 +:+ lstrip_plus t2 +:+ c2 ∈ join_done st)
  = false ->
  bool_decide (lstrip_plus t1 = lstrip_plus t2) && bool_decide (c1 = c2)
  = false ->
  find_field ds (lstrip_plus t1) c1 = Raise e ->
  pair_body ds gc query name jg i st j = Raise e.
Proof.
  intros Hji Hi Hj Hs1 Hs2 Hplus Hdone Hself Hf1.
  unfold pair_body. rewrite Hji, Hi, Hj, Hs1, Hs2. cbn.
  rewrite Hplus, Hdone, Hself. cbn. by rewrite Hf1.
Qed.

(** C10: once the schemas are loaded, a lookup by the name of a table
    whose first entry is an old version raises the type error of
    iterating [None], whatever the column; it does not return [None].
    So a round of the pair enumeration whose first entry names such a
    table, and which passes the tests before the lookup, raises this
    error and not the "fields not found" error. *)
Theorem find_field_old_version_raises
  (show : string -> list schema_field) (names : list (string * list string))
  (name column : string) (t : Table) :
  first_table_named
    (load_datasets show (resolve_versions (discovered names))) name = Some t ->
  old_version t = true ->
  find_field (load_datasets show (resolve_versions (discovered names)))
    name column
  = Raise TypeError_not_iterable
  /\ (forall gc query gname jg i j st ei ej t1 t2 c2,
        (j =? i)%nat = false ->
        jg !! i = Some ei -> jg !! j = Some ej ->
        unpack2 (split bar_char ei) = Ok (t1, column) ->
        unpack2 (split bar_char ej) = Ok (t2, c2) ->
        lstrip_plus t1 = name ->
        negb (startswith_plus t1) && negb (startswith_plus t2) = false ->
        bool_decide (name +:+ column +:+ lstrip_plus t2 +:+ c2 ∈ join_done st)
        = false ->
        bool_decide (name = lstrip_plus t2) && bool_decide (column = c2)
        = false ->
        pair_body (load_datasets show (resolve_versions (discovered names)))
          gc query gname jg i st j
        = Raise TypeError_not_iterable).
Proof.
  unfold first_table_named. intros Hfind Hold.
  assert (Hraise :
    find_field (load_datasets show (resolve_versions (discovered names)))
      name column = Raise TypeError_not_iterable).
  { rewrite find_field_all_tables.
    apply (find_in_tables_first_unloaded _ _ _ t Hfind).
    apply (loaded_old_version_fields show names); [|done].
    apply find_some in Hfind as [Hin _]. by apply list_elem_of_In. }
  split; [exact Hraise|].
  intros gc query gname jg i j st ei ej t1 t2 c2 Hji Hi Hj Hs1 Hs2 Ht1.
  subst name. intros Hplus Hdone Hself.
  by apply (pair_body_lookup_raises _ _ _ _ _ _ _ _ ei ej t1 column t2 c2).
Qed.

Lemma find_field_old_version_raises_witness :
  find_field old_datasets "t_1" "c1" = Raise TypeError_not_iterable
  /\ enumerate_joins old_datasets ∅ (fun _ => two_buckets)
       [("g", ["+t_1|c1"; "t_2|c1"])]
     = Raise TypeError_not_iterable.
Proof.
  destruct (find_field_old_version_raises abc_show [("d", ["t_1"; "t_2"])]
              "t_1" "c1"
              {| table_name := "t_1"; version := Some "1"; fields := None;
                 old_version := true |}) as [H1 H2].
  - vm_compute. reflexivity.
  - reflexivity.
  - split; [exact H1|].
    unfold enumerate_joins, pair_group. cbn [foldM List.length seq].
    rewrite pair_body_same. cbn [mbind outcome_bind].
    unfold old_datasets.
    rewrite (H2 ∅ (fun _ => two_buckets) "g" ["+t_1|c1"; "t_2|c1"] 0%nat 1%nat
               {| join_done := ∅; joins := [] |} "+t_1|c1" "t_2|c1"
               "+t_1" "t_2" "c1");
      reflexivity.
Defined.


Lemma abc_group_joins ds gc query name fa fb fc :
  find_field ds "A" "c1" = Ok (Some fa) ->
  find_field ds "B" "c2" = Ok (Some fb) ->
  find_field ds "C" "c3" = Ok (Some fc) ->
  (forall q, Forall (fun row => cnt row <> 0%Z) (query q)
             /\ sum_cnt (query q) <> 0%Z) ->
  exists st,
    enumerate_joins ds gc query [(name, abc_group)] = Ok st
    /\ map join_pair (joins st) = abc_pairs.
Proof.
  intros Ha Hb Hc Hq.
  unfold enumerate_joins, pair_group, abc_group.
  cbn [foldM List.length seq].
  set (jg := ["+A|c1"; "+B|c2"; "+C|c3"]).
  set (st0 := {| join_done := ∅; joins := [] |}).
  rewrite pair_body_same. cbn [mbind outcome_bind].
  edestruct (pair_body_accept ds gc query name jg 0 1 st0)
    as (st1 & E1 & D1 & P1);
    [reflexivity..|exact Ha|exact Hb|exact Hq|].
  rewrite E1. cbn [mbind outcome_bind].
  edestruct (pair_body_accept ds gc query name jg 0 2 st1)
    as (st2 & E2 & D2 & P2);
    [reflexivity..|rewrite D1; reflexivity|reflexivity
    |exact Ha|exact Hc|exact Hq|].
  rewrite E2. cbn [mbind outcome_bind].
  edestruct (pair_body_accept ds gc query name jg 1 0 st2)
    as (st3 & E3 & D3 & P3);
    [reflexivity..|rewrite D2, D1; reflexivity|reflexivity
    |exact Hb|exact Ha|exact Hq|].
  rewrite E3. cbn [mbind outcome_bind].
  rewrite pair_body_same. cbn [mbind outcome_bind].
  edestruct (pair_body_accept ds gc query name jg 1 2 st3)
    as (st4 & E4 & D4 & P4);
    [reflexivity..|rewrite D3, D2, D1; reflexivity|reflexivity
    |exact Hb|exact Hc|exact Hq|].
  rewrite E4. cbn [mbind outcome_bind].
  edestruct (pair_body_accept ds gc query name jg 2 0 st4)
    as (st5 & E5 & D5 & P5);
    [reflexivity..|rewrite D4, D3, D2, D1; reflexivity|reflexivity
    |exact Hc|exact Ha|exact Hq|].
  rewrite E5. cbn [mbind outcome_bind].
  edestruct (pair_body_accept ds gc query name jg 2 1 st5)
    as (st6 & E6 & D6 & P6);
    [reflexivity..|rewrite D5, D4, D3, D2, D1; reflexivity|reflexivity
    |exact Hc|exact Hb|exact Hq|].
  rewrite E6. cbn [mbind outcome_bind].
  rewrite pair_body_same. cbn [mbind outcome_bind].
  exists st6. split; [reflexivity|].
  rewrite P6, P5, P4, P3, P2, P1. reflexivity.
Qed.

(** A round for two entries whose key is already in [join_done] leaves
    the state as it is: no lookup, no query. *)
Lemma pair_body_skip ds gc query name jg i j st ei ej t1 c1 t2 c2 :
  jg !! i = Some ei -> jg !! j = Some ej ->
  unpack2 (split bar_char ei) = Ok (t1, c1) ->
  unpack2 (split bar_char ej) = Ok (t2, c2) ->
  lstrip_plus t1 +:+ c1 +:+ lstrip_plus t2 +:+ c2 ∈ join_done st ->
  pair_body ds gc query name jg i st j = Ok st.
Proof.
  intros Hi Hj Hs1 Hs2 Hdone. unfold pair_body.
  destruct (j =? i)%nat; [done|]. rewrite Hi, Hj, Hs1, Hs2. cbn.
  destruct (_ && _); [done|].
  by rewrite (bool_decide_eq_true_2 _ Hdone).
Qed.

(** Two entries whose concatenations differ in the two orders are not
    the same table and column. *)
Lemma keys_differ_not_self (a c1 b c2 : string) :
  b +:+ c2 +:+ a +:+ c1 <> a +:+ c1 +:+ b +:+ c2 ->
  bool_decide (a = b) && bool_decide (c1 = c2) = false.
Proof.
  intros Hkey. apply andb_false_iff.
  destruct (decide (a = b)) as [Hab|Hab];
    [|left; by apply bool_decide_eq_false].
  right. apply bool_decide_eq_false. intros Hc. apply Hkey.
  by rewrite Hab, Hc.
Qed.

(** A group of two entries, at least one required, whose keys in the two
    orders differ: the pair and its mirror are both joined. *)
Lemma pair_and_mirror_joins ds gc query name e1 e2 t1 c1 t2 c2 f1 f2 :
  unpack2 (split bar_char e1) = Ok (t1, c1) ->
  unpack2 (split bar_char e2) = Ok (t2, c2) ->
  negb (startswith_plus t1) && negb (startswith_plus t2) = false ->
  lstrip_plus t2 +:+ c2 +:+ lstrip_plus t1 +:+ c1
  <> lstrip_plus t1 +:+ c1 +:+ lstrip_plus t2 +:+ c2 ->
  find_field ds (lstrip_plus t1) c1 = Ok (Some f1) ->
  find_field ds (lstrip_plus t2) c2 = Ok (Some f2) ->
  (forall q, Forall (fun row => cnt row <> 0%Z) (query q)
             /\ sum_cnt (query q) <> 0%Z) ->
  exists st,
    enumerate_joins ds gc query [(name, [e1; e2])] = Ok st
    /\ map join_pair (joins st)
       = [ (lstrip_plus t1, c1, lstrip_plus t2, c2);
           (lstrip_plus t2, c2, lstrip_plus t1, c1) ].
Proof.
  intros Hs1 Hs2 Hplus Hkey Hf1 Hf2 Hq.
  pose proof (keys_differ_not_self _ _ _ _ Hkey) as Hself.
  assert (Hself' : bool_decide (lstrip_plus t2 = lstrip_plus t1)
                   && bool_decide (c2 = c1) = false).
  { apply keys_differ_not_self. intros Heq. by apply Hkey. }
  unfold enumerate_joins, pair_group.
  cbn [foldM List.length seq].
  set (jg := [e1; e2]).
  set (st0 := {| join_done := ∅; joins := [] |}).
  rewrite pair_body_same. cbn [mbind outcome_bind].
  assert (Hd1 : bool_decide
                  (lstrip_plus t1 +:+ c1 +:+ lstrip_plus t2 +:+ c2
                   ∈ join_done st0) = false)
    by apply bool_decide_eq_false, not_elem_of_empty.
  destruct (pair_body_accept ds gc query name jg 0 1 st0 e1 e2 t1 c1 t2 c2
              f1 f2 eq_refl eq_refl eq_refl Hs1 Hs2 Hplus Hd1 Hself Hf1 Hf2
              Hq) as (st1 & E1 & D1 & P1).
  rewrite E1. cbn [mbind outcome_bind].
  assert (Hplus' : negb (startswith_plus t2) && negb (startswith_plus t1)
                   = false) by (by rewrite andb_comm).
  assert (Hd2 : bool_decide
                  (lstrip_plus t2 +:+ c2 +:+ lstrip_plus t1 +:+ c1
                   ∈ join_done st1) = false).
  { apply bool_decide_eq_false. rewrite D1.
    apply not_elem_of_union. split; [|apply not_elem_of_empty].
    by apply not_elem_of_singleton. }
  destruct (pair_body_accept ds gc query name jg 1 0 st1 e2 e1 t2 c2 t1 c1
              f2 f1 eq_refl eq_refl eq_refl Hs2 Hs1 Hplus' Hd2 Hself' Hf2 Hf1
              Hq) as (st2 & E2 & D2 & P2).
  rewrite E2. cbn [mbind outcome_bind].
  rewrite pair_body_same. cbn [mbind outcome_bind].
  exists st2. split; [reflexivity|]. by rewrite P2, P1.
Qed.

(** C1 (as amended): a pair whose key is already recorded is skipped,
    and the key under which a pair is recorded is the concatenation of
    first table, first column, second table and second column in this
    order, so it depends on the order of the pair: a group of two
    entries, at least one of them required, whose concatenations in the
    two orders differ, gives the join of the pair and the join of its
    mirror, once the fields are found and the answers usable. Whenever
    the enumeration succeeds, its joins have pairwise different keys and
    none joins a column to itself; and for the group
    [+A|c1, +B|c2, +C|c3], with the three fields found and usable
    answers, it produces the six joins of the ordered pairs of different
    entries, each once. *)
Theorem enumerate_joins_ordered_pairs :
  (forall ds gc query name jg i j st ei ej t1 c1 t2 c2,
     jg !! i = Some ei -> jg !! j = Some ej ->
     unpack2 (split bar_char ei) = Ok (t1, c1) ->
     unpack2 (split bar_char ej) = Ok (t2, c2) ->
     lstrip_plus t1 +:+ c1 +:+ lstrip_plus t2 +:+ c2 ∈ join_done st ->
     pair_body ds gc query name jg i st j = Ok st)
  /\ (forall ds gc query name e1 e2 t1 c1 t2 c2 f1 f2,
        unpack2 (split bar_char e1) = Ok (t1, c1) ->
        unpack2 (split bar_char e2) = Ok (t2, c2) ->
        negb (startswith_plus t1) && negb (startswith_plus t2) = false ->
        lstrip_plus t2 +:+ c2 +:+ lstrip_plus t1 +:+ c1
        <> lstrip_plus t1 +:+ c1 +:+ lstrip_plus t2 +:+ c2 ->
        find_field ds (lstrip_plus t1) c1 = Ok (Some f1) ->
        find_field ds (lstrip_plus t2) c2 = Ok (Some f2) ->
        (forall q, Forall (fun row => cnt row <> 0%Z) (query q)
                   /\ sum_cnt (query q) <> 0%Z) ->
        exists st,
          enumerate_joins ds gc query [(name, [e1; e2])] = Ok st
          /\ map join_pair (joins st)
             = [ (lstrip_plus t1, c1, lstrip_plus t2, c2);
                 (lstrip_plus t2, c2, lstrip_plus t1, c1) ])
  /\ (forall ds gc query config st,
        enumerate_joins ds gc query config = Ok st -> pairs_once st)
  /\ (forall ds gc query name fa fb fc,
        find_field ds "A" "c1" = Ok (Some fa) ->
        find_field ds "B" "c2" = Ok (Some fb) ->
        find_field ds "C" "c3" = Ok (Some fc) ->
        (forall q, Forall (fun row => cnt row <> 0%Z) (query q)
                   /\ sum_cnt (query q) <> 0%Z) ->
        exists st,
          enumerate_joins ds gc query [(name, abc_group)] = Ok st
          /\ map join_pair (joins st) = abc_pairs).
Proof.
  split; [|split; [|split]].
  - apply pair_body_skip.
  - apply pair_and_mirror_joins.
  - apply enumerate_joins_pairs_once.
  - apply abc_group_joins.
Qed.

Lemma enumerate_joins_ordered_pairs_witness :
  (exists st,
     enumerate_joins abc_datasets ∅ (fun _ => two_buckets) [("g", abc_group)]
     = Ok st
     /\ map join_pair (joins st) = abc_pairs)
  /\ (exists st,
        enumerate_joins abc_datasets ∅ (fun _ => two_buckets)
          [("g", ["+A|c1"; "B|c2"])] = Ok st
        /\ map join_pair (joins st)
           = [("A", "c1", "B", "c2"); ("B", "c2", "A", "c1")]).
Proof.
  split.
  - eapply (proj2 (proj2 (proj2 enumerate_joins_ordered_pairs)) abc_datasets ∅
              (fun _ => two_buckets) "g").
    + vm_compute. reflexivity.
    + vm_compute. reflexivity.
    + vm_compute. reflexivity.
    + intros q. split; [|discriminate].
      repeat constructor; discriminate.
  - eapply (proj1 (proj2 enumerate_joins_ordered_pairs) abc_datasets ∅
              (fun _ => two_buckets) "g" "+A|c1" "B|c2" "+A" "c1" "B" "c2").
    + reflexivity.
    + reflexivity.
    + reflexivity.
    + discriminate.
    + vm_compute. reflexivity.
    + vm_compute. reflexivity.
    + intros q. split; [|discriminate].
      repeat constructor; discriminate.
Defined.

(** C1 as stated fails: the group [+A|c1, +B|c2, +C|c3] gives six joins,
    not three, with both the pair (A.c1, B.c2) and its mirror. *)
Lemma abc_group_mirror_pairs_kept :
  exists st,
    enumerate_joins abc_datasets ∅ (fun _ => two_buckets) [("g", abc_group)]
    = Ok st
    /\ List.length (joins st) = 6
    /\ List.length (joins st) <> 3
    /\ In ("A", "c1", "B", "c2") (map join_pair (joins st))
    /\ In ("B", "c2", "A", "c1") (map join_pair (joins st)).
Proof.
  eexists. split; [vm_compute; reflexivity|].
  cbn. repeat split; auto 10.
Qed.

(** ** The version pattern *)

Lemma version_pattern_compiled :
  re_compile version_pattern = Compiled version_re.
Proof. reflexivity. Qed.

(** C4 as stated fails: the pattern does not match foo_bar_v2, whose
    last part does not begin with a digit. *)
Lemma version_pattern_foo_bar_v2 :
  re_match version_pattern "foo_bar_v2" = Ok None
  /\ ~ (exists m, re_match version_pattern "foo_bar_v2" = Ok (Some m)
                  /\ group_str 1 m = "foo_bar" /\ group_str 2 m = "v2").
Proof.
  split; [reflexivity|]. intros (m & Hm & _). vm_compute in Hm. discriminate.
Qed.

(** *** What the matcher finds *)

Lemma star_sound whole a body :
  sound whole a body ->
  forall fuel, sound whole (RStar a) (star body fuel).
Proof.
  intros Hbody fuel. induction fuel as [|fuel IH]; intros s c k r; cbn [star].
  - intros Hk. exists s, c. split; [constructor|done].
  - destruct (body s c _) as [r0|] eqn:E.
    + intros [= ->]. apply Hbody in E as (s1 & c1 & Ha & Hk).
      cbn beta in Hk.
      destruct (List.length s1 <? List.length s)%nat eqn:Hlt; [|done].
      apply Nat.ltb_lt in Hlt.
      apply IH in Hk as (s2 & c2 & Hstar & Hk).
      exists s2, c2. split; [|done]. by eapply sem_star_more.
    + intros Hk. exists s, c. split; [constructor|done].
Qed.

(** A result of the matcher is a result of the pattern. *)
Lemma run_sound whole r : sound whole r (run whole r).
Proof.
  induction r as [|a| |rs| |a IHa b IHb|a IHa|a IHa|a IHa|n a IHa];
    intros s c k res; cbn [run].
  - intros Hk. exists s, c. split; [constructor|done].
  - destruct s as [|x s]; [done|].
    destruct (Ascii.eqb x a) eqn:E; [|done]. apply Ascii.eqb_eq in E as ->.
    intros Hk. exists s, c. split; [constructor|done].
  - destruct s as [|x s]; [done|].
    destruct (Ascii.eqb x newline_char) eqn:E; [done|].
    intros Hk. exists s, c. split; [by constructor|done].
  - destruct s as [|x s]; [done|].
    destruct (in_ranges x rs) eqn:E; [|done].
    intros Hk. exists s, c. split; [by constructor|done].
  - destruct (List.length s =? whole)%nat eqn:E; [|done].
    apply Nat.eqb_eq in E.
    intros Hk. exists s, c. split; [by constructor|done].
  - intros H. apply IHa in H as (s1 & c1 & Ha & H).
    apply IHb in H as (s2 & c2 & Hb & Hk).
    exists s2, c2. split; [by econstructor|done].
  - apply (star_sound whole a _ IHa).
  - intros H. apply IHa in H as (s1 & c1 & Ha & H).
    cbn beta in H.
    apply (star_sound whole a _ IHa) in H as (s2 & c2 & Hs & Hk).
    exists s2, c2. split; [by econstructor|done].
  - destruct (run whole a s c k) as [r0|] eqn:E.
    + intros [= ->]. apply IHa in E as (s1 & c1 & Ha & Hk).
      exists s1, c1. split; [by apply sem_opt_take|done].
    + intros Hk. exists s, c. split; [apply sem_opt_skip|done].
  - intros H. apply IHa in H as (s1 & c1 & Ha & Hk).
    eexists _, _. split; [by apply sem_group|done].
Qed.

Lemma sem_atom whole a s c s' c' :
  is_atom a = true -> sem whole a s c s' c' ->
  exists x, s = x :: s' /\ atom_ok a x = true /\ c' = c.
Proof.
  intros Ha H. destruct H; try discriminate; eexists; cbn.
  - split; [done|]. split; [apply Ascii.eqb_refl|done].
  - split; [done|]. split; [by rewrite H|done].
  - by split.
Qed.

Lemma sem_star_atom whole a s c s' c' :
  is_atom a = true -> sem whole (RStar a) s c s' c' ->
  exists w, s = w ++ s' /\ Forall (fun x => atom_ok a x = true) w /\ c' = c.
Proof.
  intros Ha H. remember (RStar a) as r eqn:Hr.
  induction H; try discriminate; injection Hr as ->.
  - exists []. by repeat split.
  - apply (sem_atom _ _ _ _ _ _ Ha) in H as (x & -> & Hx & ->).
    destruct (IHsem2 eq_refl) as (w & -> & Hw & ->).
    exists (x :: w). split; [done|]. split; [by constructor|done].
Qed.

Lemma sem_plus_atom whole a s c s' c' :
  is_atom a = true -> sem whole (RPlus a) s c s' c' ->
  exists x w, s = x :: w ++ s'
    /\ Forall (fun x => atom_ok a x = true) (x :: w) /\ c' = c.
Proof.
  intros Ha H. inversion H; subst.
  match goal with
  | H1 : sem _ a _ _ _ _, H2 : sem _ (RStar a) _ _ _ _ |- _ =>
      apply (sem_atom _ _ _ _ _ _ Ha) in H1 as (x & -> & Hx & ->);
      apply (sem_star_atom _ _ _ _ _ _ Ha) in H2 as (w & -> & Hw & ->)
  end.
  exists x, w. split; [done|]. split; [by constructor|done].
Qed.

Lemma is_digit_alnum x : is_digit x = true -> is_alnum x = true.
Proof.
  unfold is_digit, is_alnum, in_ranges. cbn [existsb].
  rewrite orb_false_r. by intros ->.
Qed.

Lemma take_prefix_by_length (w s : list ascii) :
  take (List.length (w ++ s) - List.length s) (w ++ s) = w.
Proof.
  rewrite length_app.
  replace (List.length w + List.length s - List.length s)%nat
    with (List.length w) by lia.
  by rewrite take_app_length.
Qed.

Lemma str_app (a b : list ascii) : str (a ++ b) = str a +:+ str b.
Proof.
  unfold str. induction a as [|x a IH]; [done|]. simpl. by rewrite IH.
Qed.

(** The shape of a match of the version pattern: one or more characters,
    an underscore, a digit, more digits and alphanumerics; the two groups
    are the part before the underscore and the part from the digit on. *)
Lemma version_re_shape whole s s' m :
  sem whole version_re s [] s' m ->
  exists base d v,
    s = base ++ "_"%char :: (d :: v) ++ s'
    /\ base <> []
    /\ is_digit d = true
    /\ Forall (fun x => is_alnum x = true) v
    /\ m = [(2, d :: v); (1, base)].
Proof.
  unfold version_re. intros H.
  repeat match goal with
         | H : sem _ (RSeq _ _) _ _ _ _ |- _ => sem_inv H
         | H : sem _ (RGroup _ _) _ _ _ _ |- _ => sem_inv H
         | H : sem _ RBol _ _ _ _ |- _ => sem_inv H
         | H : sem _ REps _ _ _ _ |- _ => sem_inv H
         | H : sem _ (RChar _) _ _ _ _ |- _ => sem_inv H
         end.
  match goal with
  | H : sem _ (RPlus RAny) _ _ _ _ |- _ =>
      apply sem_plus_atom in H as (x & w & -> & Hw & ->); [|done]
  end.
  match goal with
  | H : sem _ (RPlus (RSet _)) _ _ _ _ |- _ =>
      apply sem_plus_atom in H as (d & v1 & -> & Hv1 & ->); [|done]
  end.
  match goal with
  | H : sem _ (RStar (RSet _)) _ _ _ _ |- _ =>
      apply sem_star_atom in H as (v2 & -> & Hv2 & ->); [|done]
  end.
  exists (x :: w), d, (v1 ++ v2).
  split; [cbn; by rewrite <- app_assoc|]. split; [done|].
  apply Forall_cons in Hv1 as [Hd Hv1]. split; [exact Hd|]. split.
  - apply Forall_app. split; [|exact Hv2].
    eapply Forall_impl; [exact Hv1|]. intros y. apply is_digit_alnum.
  - replace (d :: v1 ++ v2 ++ s') with ((d :: v1 ++ v2) ++ s')
      by (cbn; by rewrite <- app_assoc).
    rewrite (take_prefix_by_length (d :: v1 ++ v2)).
    change (x :: w ++ "_"%char :: (d :: v1 ++ v2) ++ s')
      with ((x :: w) ++ "_"%char :: (d :: v1 ++ v2) ++ s').
    by rewrite (take_prefix_by_length (x :: w)).
Qed.

Lemma star_complete whole a body :
  complete whole a body ->
  forall s c s' c', sem whole (RStar a) s c s' c' ->
  forall fuel k, (List.length s < fuel)%nat -> is_Some (k s' c') ->
  is_Some (star body fuel s c k).
Proof.
  intros Hbody s c s' c' H. remember (RStar a) as r eqn:Hr.
  induction H; try discriminate; injection Hr as ->; intros fuel k Hfuel Hk.
  - destruct fuel as [|fuel]; cbn [star]; [done|].
    by destruct (body s c _).
  - destruct fuel as [|fuel]; [lia|]. cbn [star].
    assert (Hs : is_Some (body s c (fun s' c' =>
                            if (List.length s' <? List.length s)%nat
                            then star body fuel s' c' k else None))).
    { apply (Hbody _ _ _ _ _ H). cbn beta.
      apply Nat.ltb_lt in H0 as Hlt. rewrite Hlt.
      apply IHsem2; [done|lia|done]. }
    destruct Hs as [r ->]. done.
Qed.

(** When the pattern has a result that the continuation accepts, the
    matcher finds a result. *)
Lemma run_complete whole r : complete whole r (run whole r).
Proof.
  induction r as [|a| |rs| |a IHa b IHb|a IHa|a IHa|a IHa|n a IHa];
    intros s c s' c' k H Hk; cbn [run].
  - by sem_inv H.
  - sem_inv H. by rewrite Ascii.eqb_refl.
  - sem_inv H.
    by match goal with Hx : Ascii.eqb _ _ = false |- _ => rewrite Hx end.
  - sem_inv H.
    by match goal with Hx : in_ranges _ _ = true |- _ => rewrite Hx end.
  - sem_inv H. by rewrite Nat.eqb_refl.
  - sem_inv H. eapply IHa; [eassumption|]. cbn beta. by eapply IHb.
  - by eapply (star_complete whole a _ IHa); [eassumption|lia|].
  - sem_inv H. eapply IHa; [eassumption|]. cbn beta.
    by eapply (star_complete whole a _ IHa); [eassumption|lia|].
  - destruct (run whole a s c k) as [r0|] eqn:E; [done|].
    sem_inv H; [done|].
    assert (Hs : is_Some (run whole a s c k)) by (by eapply IHa).
    rewrite E in Hs. by destruct Hs.
  - sem_inv H. eapply IHa; [eassumption|]. done.
Qed.

(** [re.match] succeeds exactly when the pattern can take a prefix of the
    subject. *)
Lemma match_re_is_Some r s :
  is_Some (match_re r s)
  <-> exists s' c', sem (List.length (chars s)) r (chars s) [] s' c'.
Proof.
  unfold match_re. split.
  - intros [m Hm]. apply run_sound in Hm as (s' & c' & Hsem & _). eauto.
  - intros (s' & c' & Hsem). by eapply run_complete.
Qed.

Lemma sem_star_atom_intro whole a w s c :
  is_atom a = true -> Forall (fun x => atom_ok a x = true) w ->
  sem whole (RStar a) (w ++ s) c s c.
Proof.
  intros Ha Hw. induction Hw as [|x w Hx _ IH]; [constructor|].
  apply sem_star_more with (w ++ s) c; [|cbn; lia|exact IH].
  destruct a; try discriminate; cbn in Hx.
  - apply Ascii.eqb_eq in Hx as ->. constructor.
  - constructor. by apply negb_true_iff.
  - by constructor.
Qed.

Lemma sem_plus_atom_intro whole a x w s c :
  is_atom a = true -> Forall (fun x => atom_ok a x = true) (x :: w) ->
  sem whole (RPlus a) (x :: w ++ s) c s c.
Proof.
  intros Ha Hw. apply Forall_cons in Hw as [Hx Hw].
  apply sem_plus with (w ++ s) c; [|by apply sem_star_atom_intro].
  destruct a; try discriminate; cbn in Hx.
  - apply Ascii.eqb_eq in Hx as ->. constructor.
  - constructor. by apply negb_true_iff.
  - by constructor.
Qed.

Lemma chars_app (a b : string) : chars (a +:+ b) = chars a ++ chars b.
Proof.
  unfold chars. induction a as [|x a IH]; [done|]. simpl. by rewrite IH.
Qed.

Lemma str_chars (s : string) : str (chars s) = s.
Proof. apply string_of_list_ascii_of_string. Qed.

Lemma chars_str (l : list ascii) : chars (str l) = l.
Proof. apply list_ascii_of_string_of_list_ascii. Qed.

Lemma re_match_version name :
  re_match version_pattern name = Ok (match_re version_re name).
Proof. unfold re_match. by rewrite version_pattern_compiled. Qed.

(** C4 (as amended): the version pattern matches a name exactly when the
    name begins with a base of one or more characters, an underscore and
    a digit; the base it yields is followed in the name by an underscore
    and the version it yields, and the version is a digit followed by
    digits and letters. Applied to foo_bar_2v it yields the base foo_bar
    and the version 2v; it does not match foo_bar_v2. *)
Theorem version_pattern_split :
  (forall name m,
     re_match version_pattern name = Ok (Some m) ->
     exists rest d v,
       name = group_str 1 m +:+ "_" +:+ group_str 2 m +:+ rest
       /\ group_str 1 m <> ""
       /\ chars (group_str 2 m) = d :: v
       /\ is_digit d = true
       /\ Forall (fun x => is_alnum x = true) v)
  /\ (forall base d rest,
        base <> "" ->
        Forall (fun x => Ascii.eqb x newline_char = false) (chars base) ->
        is_digit d = true ->
        exists m,
          re_match version_pattern (base +:+ "_" +:+ String d rest)
          = Ok (Some m))
  /\ (exists m,
        re_match version_pattern "foo_bar_2v" = Ok (Some m)
        /\ group_str 1 m = "foo_bar" /\ group_str 2 m = "2v")
  /\ re_match version_pattern "foo_bar_v2" = Ok None.
Proof.
  split; [|split; [|split; [|reflexivity]]].
  - intros name m Hm. rewrite re_match_version in Hm.
    injection Hm as Hm. unfold match_re in Hm.
    apply run_sound in Hm as (s' & c' & Hsem & [= ->]).
    apply version_re_shape in Hsem as (base & d & v & Hs & Hb & Hd & Hv & ->).
    exists (str s'), d, v.
    change (group_str 1 [(2, d :: v); (1, base)]) with (str base).
    change (group_str 2 [(2, d :: v); (1, base)]) with (str (d :: v)).
    change "_" with (str ["_"%char]).
    rewrite <- !str_app.
    replace (base ++ ["_"%char] ++ (d :: v) ++ s') with (chars name)
      by (by rewrite Hs).
    rewrite str_chars.
    split; [done|]. split.
    + intros Hempty. apply Hb. destruct base; [done|discriminate].
    + by rewrite (chars_str (d :: v)).
  - intros base d rest Hbase Hnl Hd. rewrite re_match_version.
    assert (Hs : is_Some (match_re version_re (base +:+ "_" +:+ String d rest))).
    { apply match_re_is_Some.
      rewrite !chars_app. cbn [chars list_ascii_of_string].
      fold (chars rest).
      destruct (chars base) as [|x w] eqn:Hc.
      { exfalso. apply Hbase. by rewrite <- (str_chars base), Hc. }
      eexists (chars rest), _. unfold version_re.
      apply sem_seq with ((x :: w) ++ "_"%char :: d :: chars rest) [];
        [by constructor|].
      eapply sem_seq.
      { apply sem_group. eapply sem_seq; [|apply sem_eps].
        apply (sem_plus_atom_intro _ RAny x w); [done|].
        eapply Forall_impl; [exact Hnl|]. intros y Hy. cbn. by rewrite Hy. }
      eapply sem_seq; [apply sem_char|].
      eapply sem_seq; [|apply sem_eps].
      apply sem_group. eapply sem_seq.
      { apply (sem_plus_atom_intro _ (RSet _) d []); [done|].
        by repeat constructor. }
      eapply sem_seq; [apply sem_star_stop|apply sem_eps]. }
    destruct Hs as [m ->]. by exists m.
  - eexists. split; [reflexivity|]. split; reflexivity.
Qed.

Lemma version_pattern_split_witness :
  exists rest d v,
    "foo_bar_2v" = "foo_bar" +:+ "_" +:+ "2v" +:+ rest
    /\ "foo_bar" <> ""
    /\ chars "2v" = d :: v
    /\ is_digit d = true
    /\ Forall (fun x => is_alnum x = true) v.
Proof.
  apply (proj1 version_pattern_split "foo_bar_2v"
           [(2, chars "2v"); (1, chars "foo_bar")]).
  reflexivity.
Defined.

(** ** Wildcard expansion *)

Lemma insert_matches_app matches (done rest : list string) :
  insert_matches matches (List.length done) (done ++ rest)
  = ((List.length done + List.length matches)%nat, done ++ matches ++ rest).
Proof.
  revert done. induction matches as [|v vs IH]; intros done.
  - cbn. by rewrite Nat.add_0_r.
  - cbn [insert_matches]. unfold list_insert_at.
    rewrite take_app_length, drop_app_length.
    replace (done ++ v :: rest) with ((done ++ [v]) ++ rest)
      by (by rewrite <- app_assoc).
    replace (S (List.length done)) with (List.length (done ++ [v]))
      by (rewrite length_app; cbn; lia).
    rewrite IH, length_app, <- app_assoc. cbn. f_equal. lia.
Qed.

(** The loop with an index is the replacement in place, and it ends
    within one round per entry. *)
Lemma expand_loop_entries ds todo :
  forall (done : list string) fuel,
    (List.length todo <= fuel)%nat ->
    expand_loop fuel ds (List.length done) (done ++ todo)
    = Some (r ← expand_entries ds todo; mret (done ++ r)).
Proof.
  induction todo as [|e todo IH]; intros done fuel Hfuel.
  - destruct fuel; cbn [expand_loop];
      rewrite lookup_ge_None_2 by (rewrite length_app; cbn; lia); done.
  - destruct fuel as [|fuel]; [cbn in Hfuel; lia|].
    cbn [expand_loop expand_entries]. rewrite list_lookup_middle by done.
    cbn in Hfuel.
    destruct (has_star e); cbn [negb].
    + destruct (unpack2 (split bar_char e)) as [[tf cf]| |]; [|done..].
      cbn. destruct (match_datasets tf cf ds []) as [matches| |]; [|done..].
      cbn. rewrite delete_middle, insert_matches_app.
      replace (List.length done + List.length matches)%nat
        with (List.length (done ++ matches)) by (by rewrite length_app).
      rewrite app_assoc, IH by lia.
      destruct (expand_entries ds todo); cbn; [|done..].
      by rewrite <- app_assoc.
    + replace (List.length done + 1)%nat with (List.length (done ++ [e]))
        by (rewrite length_app; cbn; lia).
      replace (done ++ e :: todo) with ((done ++ [e]) ++ todo)
        by (by rewrite <- app_assoc).
      rewrite IH by lia.
      destruct (expand_entries ds todo); cbn; [|done..].
      by rewrite <- app_assoc.
Qed.

Lemma expand_group_entries ds join_group :
  expand_group ds join_group = Some (expand_entries ds join_group).
Proof.
  unfold expand_group.
  change (expand_loop (List.length join_group) ds 0 join_group)
    with (expand_loop (List.length join_group) ds
            (List.length (@nil string)) ([] ++ join_group)).
  rewrite expand_loop_entries by done.
  by destruct (expand_entries ds join_group).
Qed.

Lemma expand_entries_plain ds entries :
  Forall (fun e => has_star e = false) entries ->
  expand_entries ds entries = Ok entries.
Proof.
  induction 1 as [|e entries He _ IH]; [done|].
  cbn. by rewrite He, IH.
Qed.

Lemma expand_entries_app_plain ds pre entries :
  Forall (fun e => has_star e = false) pre ->
  expand_entries ds (pre ++ entries)
  = (r ← expand_entries ds entries; mret (pre ++ r)).
Proof.
  induction 1 as [|e pre He _ IH]; cbn.
  - by destruct (expand_entries ds entries).
  - rewrite He, IH. cbn. by destruct (expand_entries ds entries).
Qed.

(** *** A required marker on a wildcard entry *)

Lemma split_chars_head sep cur l :
  exists a rest, split_chars sep cur l = (rev cur ++ a) :: rest.
Proof.
  revert cur. induction l as [|c l IH]; intros cur; cbn [split_chars].
  - exists [], []. by rewrite app_nil_r.
  - destruct (Ascii.eqb c sep).
    + exists [], (split_chars sep [] l). by rewrite app_nil_r.
    + destruct (IH (c :: cur)) as (a & rest & ->).
      exists (c :: a), rest. cbn [rev]. by rewrite <- app_assoc.
Qed.

(** The table pattern of an entry that begins with [+] begins with [+]. *)
Lemma split_first_plus entry table_fmt column_fmt :
  startswith_plus entry = true ->
  unpack2 (split bar_char entry) = Ok (table_fmt, column_fmt) ->
  exists l, chars table_fmt = plus_char :: l.
Proof.
  unfold split. destruct entry as [|c entry]; [done|].
  cbn [startswith_plus]. intros Hc. apply Ascii.eqb_eq in Hc as ->.
  cbn [chars list_ascii_of_string split_chars].
  change (Ascii.eqb plus_char bar_char) with false. cbv iota.
  destruct (split_chars_head bar_char [plus_char] (list_ascii_of_string entry))
    as (a & rest & ->).
  cbn [map rev app]. destruct rest as [|b [|? ?]]; try done.
  cbn [map unpack2]. intros [= <- _]. exists a.
  apply (chars_str (plus_char :: a)).
Qed.

Lemma replace_star_chars_plus l :
  replace_star_chars (plus_char :: l) = plus_char :: replace_star_chars l.
Proof. done. Qed.

(** Such a table pattern does not compile: its first character is a
    postfix operator with nothing to repeat. *)
Lemma re_matches_plus_error table_fmt l s :
  chars table_fmt = plus_char :: l ->
  re_matches (replace_star table_fmt) s = Raise re_error.
Proof.
  intros Hc. unfold re_matches, re_match, re_compile, replace_star.
  by rewrite chars_str, Hc, replace_star_chars_plus.
Qed.

Lemma match_tables_plus_error table_fmt column_fmt l ts matches :
  chars table_fmt = plus_char :: l -> ts <> [] ->
  match_tables table_fmt column_fmt ts matches = Raise re_error.
Proof.
  intros Hc Hts. destruct ts as [|t ts]; [done|].
  cbn [match_tables]. unfold match_table.
  by rewrite (re_matches_plus_error _ _ _ Hc).
Qed.

Lemma match_datasets_plus_error table_fmt column_fmt l ds :
  chars table_fmt = plus_char :: l -> all_tables ds <> [] ->
  match_datasets table_fmt column_fmt ds [] = Raise re_error.
Proof.
  intros Hc. induction ds as [|d ds IH]; [done|].
  rewrite all_tables_cons. cbn [match_datasets]. intros Hne.
  destruct (tables d) as [|t ts] eqn:Ht.
  - cbn. apply IH. by rewrite app_nil_l in Hne.
  - by rewrite (match_tables_plus_error _ _ _ _ _ Hc).
Qed.

Lemma match_datasets_no_tables table_fmt column_fmt ds matches :
  all_tables ds = [] ->
  match_datasets table_fmt column_fmt ds matches = Ok matches.
Proof.
  induction ds as [|d ds IH]; [done|].
  rewrite all_tables_cons. intros Hnil.
  apply app_eq_nil in Hnil as [Ht Hds].
  cbn [match_datasets]. rewrite Ht. cbn. by apply IH.
Qed.

(** C8 (a defect of the code): wildcard expansion leaves the required
    marker in the table pattern, where it is a repetition with nothing
    to repeat, whereas the pair enumeration strips the marker before it
    uses the table name. For an entry that begins with [+] and contains
    [*], the first wildcard entry of its group, the expansion raises the
    error of the pattern compiler as soon as one table was discovered;
    with no table at all the pattern is never compiled and the entry is
    removed. *)
Theorem expand_required_wildcard
  (ds : list Dataset) (pre post : list string)
  (entry table_fmt column_fmt : string) :
  Forall (fun e => has_star e = false) pre ->
  startswith_plus entry = true ->
  has_star entry = true ->
  unpack2 (split bar_char entry) = Ok (table_fmt, column_fmt) ->
  (all_tables ds <> [] ->
   expand_group ds (pre ++ entry :: post) = Some (Raise re_error))
  /\ (all_tables ds = [] ->
      expand_group ds (pre ++ entry :: post)
      = Some (r ← expand_entries ds post; mret (pre ++ r))).
Proof.
  intros Hpre Hplus Hstar Hsplit.
  destruct (split_first_plus _ _ _ Hplus Hsplit) as [l Hl].
  rewrite expand_group_entries, (expand_entries_app_plain _ _ _ Hpre).
  cbn [expand_entries]. rewrite Hstar, Hsplit. cbn.
  split; intros Hts.
  - by rewrite (match_datasets_plus_error _ _ _ _ Hl Hts).
  - rewrite (match_datasets_no_tables _ _ _ _ Hts). cbn.
    by destruct (expand_entries ds post).
Qed.

Lemma expand_required_wildcard_witness :
  expand_group xy_datasets ["a|b"; "+x*|col*"; "c|d"] = Some (Raise re_error).
Proof.
  refine (proj1 (expand_required_wildcard xy_datasets ["a|b"] ["c|d"]
                   "+x*|col*" "+x*" "col*" _ _ _ _) _).
  - repeat constructor.
  - reflexivity.
  - reflexivity.
  - reflexivity.
  - discriminate.
Defined.

(** C8 does not hold of the code: with the tables x and y discovered,
    the expansion of the entry +x*|col* raises the error of the pattern
    compiler, while the same entry without its marker, x*|col*, is
    expanded. *)
Lemma expand_required_wildcard_fails :
  expand_group xy_datasets ["+x*|col*"] = Some (Raise re_error)
  /\ expand_group xy_datasets ["x*|col*"] = Some (Ok ["x|col1"; "x|col2"])
  /\ ~ (exists r, expand_group xy_datasets ["+x*|col*"] = Some (Ok r)).
Proof.
  split; [reflexivity|]. split; [reflexivity|].
  intros [r Hr]. vm_compute in Hr. discriminate.
Qed.

(** *** Wildcard patterns *)

Lemma parse_items_plain stack next items rep c p :
  glob_char c = true ->
  Ascii.eqb c star_char = false ->
  Ascii.eqb c dot_char = false ->
  parse_items stack next items rep None (c :: p)
  = parse_items stack next (RChar c :: items) false None p.
Proof.
  destruct c as [[] [] [] [] [] [] [] []]; intros H1 H2 H3;
    cbv in H1, H2, H3; try discriminate; reflexivity.
Qed.

Lemma glob_char_no_bar c :
  glob_char c = true -> Ascii.eqb c bar_char = false.
Proof.
  destruct c as [[] [] [] [] [] [] [] []]; intros H1;
    cbv in H1; try discriminate; reflexivity.
Qed.

Lemma parse_glob p :
  Forall (fun c => glob_char c = true) p ->
  forall items rep,
    parse_items [] 1 items rep None (replace_star_chars p)
    = Compiled (seq_of (rev items ++ map glob_item p)).
Proof.
  induction 1 as [|c p Hc _ IH]; intros items rep.
  - cbn. by rewrite app_nil_r.
  - cbn [replace_star_chars map]. unfold glob_item at 1.
    destruct (Ascii.eqb c star_char) eqn:Hstar.
    + change (parse_items [] 1 items rep None
                (dot_char :: star_char :: replace_star_chars p))
        with (parse_items [] 1 (RStar RAny :: items) true None
                (replace_star_chars p)).
      rewrite IH. cbn [rev]. by rewrite <- app_assoc.
    + destruct (Ascii.eqb c dot_char) eqn:Hdot.
      * apply Ascii.eqb_eq in Hdot as ->.
        change (parse_items [] 1 items rep None
                  (dot_char :: replace_star_chars p))
          with (parse_items [] 1 (RAny :: items) false None
                  (replace_star_chars p)).
        rewrite IH. cbn [rev]. by rewrite <- app_assoc.
      * rewrite parse_items_plain by done.
        rewrite IH. cbn [rev]. by rewrite <- app_assoc.
Qed.

Lemma star_any_skip whole (K : kont) (f : list ascii -> bool) :
  (forall s c, is_Some (K s c) <-> f s = true) ->
  forall s fuel c, (List.length s < fuel)%nat ->
    is_Some (star (run whole RAny) fuel s c K) <-> any_skip f s = true.
Proof.
  intros HK s.
  assert (Hnil : forall c k, run whole RAny [] c k = None) by done.
  assert (Hcons : forall x s c k,
             run whole RAny (x :: s) c k
             = if Ascii.eqb x newline_char then None else k s c) by done.
  generalize dependent (run whole RAny). intros body Hnil Hcons.
  induction s as [|x s IH]; intros fuel c Hfuel;
    (destruct fuel as [|fuel]; [cbn in Hfuel; lia|]);
    cbn [star any_skip].
  - rewrite Hnil, orb_false_r. apply HK.
  - rewrite Hcons.
    destruct (Ascii.eqb x newline_char); cbn [negb andb].
    + rewrite orb_false_r. apply HK.
    + replace (List.length s <? List.length (x :: s))%nat with true
        by (symmetry; apply Nat.ltb_lt; cbn; lia).
      cbn in Hfuel. specialize (IH fuel c ltac:(lia)).
      rewrite orb_true_iff, <- IH, <- (HK (x :: s) c).
      destruct (star body fuel s c K) as [r|].
      * split; intros _; [right|]; by eexists.
      * split; [by left|]. by intros [H|[? [=]]].
Qed.

Lemma run_seq whole a b s c k :
  run whole (RSeq a b) s c k
  = run whole a s c (fun s' c' => run whole b s' c' k).
Proof. done. Qed.

Lemma run_star whole a s c k :
  run whole (RStar a) s c k = star (run whole a) (S (List.length s)) s c k.
Proof. done. Qed.

(** The compiled wildcard pattern matches exactly the subjects with a
    prefix of the pattern's shape. *)
Lemma run_glob whole p :
  forall s c,
    is_Some (run whole (seq_of (map glob_item p)) s c accept)
    <-> glob_prefixb p s = true.
Proof.
  induction p as [|c0 p IH]; intros s c.
  - cbn. split; [done|]. by eexists.
  - cbn [map seq_of foldr glob_prefixb]. rewrite run_seq.
    unfold glob_item at 1.
    destruct (Ascii.eqb c0 star_char).
    + rewrite run_star. apply star_any_skip; [|lia]. intros s' c'. apply IH.
    + destruct (Ascii.eqb c0 dot_char); cbn [run].
      * destruct s as [|x s]; [split; [by intros [? [=]]|done]|].
        destruct (Ascii.eqb x newline_char); cbn [negb andb].
        -- split; [by intros [? [=]]|done].
        -- apply IH.
      * destruct s as [|x s]; [split; [by intros [? [=]]|done]|].
        destruct (Ascii.eqb x c0); cbn [andb].
        -- apply IH.
        -- split; [by intros [? [=]]|done].
Qed.

Lemma re_matches_glob p s :
  glob_pattern p ->
  re_matches (replace_star p) s = Ok (glob_match p s).
Proof.
  intros Hp. unfold re_matches, re_match, re_compile, replace_star.
  rewrite chars_str, (parse_glob _ Hp). cbn [rev app mbind outcome_bind mret outcome_ret].
  f_equal. unfold match_re, glob_match.
  pose proof (run_glob (List.length (chars s)) (chars p) (chars s) []) as H.
  destruct (glob_prefixb (chars p) (chars s)).
  - apply bool_decide_eq_true_2. by apply H.
  - apply bool_decide_eq_false_2. intros Hs. apply H in Hs. done.
Qed.

Lemma match_fields_glob column_fmt name fs matches :
  glob_pattern column_fmt ->
  match_fields column_fmt name fs matches
  = Ok (matches
        ++ map (entry_of name)
             (List.filter (fun f => glob_match column_fmt (field_name f)) fs)).
Proof.
  intros Hc. revert matches.
  induction fs as [|f fs IH]; intros matches.
  - cbn. by rewrite app_nil_r.
  - cbn [match_fields List.filter]. rewrite (re_matches_glob _ _ Hc).
    cbn [mbind outcome_bind]. rewrite IH.
    destruct (glob_match column_fmt (field_name f)); [|done].
    cbn [map]. by rewrite <- app_assoc.
Qed.

Lemma match_table_glob table_fmt column_fmt t matches :
  glob_pattern table_fmt -> glob_pattern column_fmt ->
  (old_version t = false -> is_Some (fields t)) ->
  match_table table_fmt column_fmt t matches
  = Ok (matches ++ table_matches table_fmt column_fmt t).
Proof.
  intros Ht Hc Hl. unfold match_table, table_matches.
  rewrite (re_matches_glob _ _ Ht). cbn [mbind outcome_bind].
  destruct (glob_match table_fmt (table_name t)); cbn [negb orb andb].
  - destruct (old_version t); cbn [negb].
    + by rewrite app_nil_r.
    + destruct (Hl eq_refl) as [fs ->]. by apply match_fields_glob.
  - by rewrite app_nil_r.
Qed.

Lemma match_tables_glob table_fmt column_fmt ts matches :
  glob_pattern table_fmt -> glob_pattern column_fmt ->
  Forall (fun t => old_version t = false -> is_Some (fields t)) ts ->
  match_tables table_fmt column_fmt ts matches
  = Ok (matches ++ concat (map (table_matches table_fmt column_fmt) ts)).
Proof.
  intros Ht Hc Hl. revert matches.
  induction Hl as [|t ts Hl1 _ IH]; intros matches.
  - cbn. by rewrite app_nil_r.
  - cbn [match_tables]. rewrite (match_table_glob _ _ _ _ Ht Hc Hl1).
    cbn [mbind outcome_bind]. rewrite IH. cbn. by rewrite <- app_assoc.
Qed.

Lemma match_datasets_glob table_fmt column_fmt ds matches :
  glob_pattern table_fmt -> glob_pattern column_fmt -> loaded ds ->
  match_datasets table_fmt column_fmt ds matches
  = Ok (matches
        ++ concat (map (table_matches table_fmt column_fmt) (all_tables ds))).
Proof.
  intros Ht Hc. revert matches.
  induction ds as [|d ds IH]; intros matches Hl.
  - cbn. by rewrite app_nil_r.
  - cbn [match_datasets]. rewrite all_tables_cons, map_app, concat_app.
    rewrite (match_tables_glob _ _ _ _ Ht Hc).
    + cbn [mbind outcome_bind]. rewrite IH.
      * by rewrite <- app_assoc.
      * intros t Hin. apply Hl. rewrite all_tables_cons.
        apply elem_of_app. by right.
    + apply Forall_forall. intros t Hin. apply Hl.
      rewrite all_tables_cons. apply elem_of_app. by left.
Qed.

Lemma glob_matches_tables table_fmt column_fmt ds :
  glob_matches table_fmt column_fmt ds
  = concat (map (table_matches table_fmt column_fmt) (all_tables ds)).
Proof. done. Qed.

Lemma loaded_load show ds : loaded (load_datasets show ds).
Proof.
  intros t. rewrite all_tables_load. intros Hin Hold.
  apply list_elem_of_fmap in Hin as (t0 & -> & _).
  unfold load_table in *. destruct (old_version t0) eqn:E.
  - congruence.
  - by eexists.
Qed.

Lemma split_chars_no_sep sep cur l :
  Forall (fun c => Ascii.eqb c sep = false) l ->
  split_chars sep cur l = [rev cur ++ l].
Proof.
  intros Hl. revert cur. induction Hl as [|c l Hc _ IH]; intros cur.
  - cbn. by rewrite app_nil_r.
  - cbn [split_chars]. rewrite Hc, IH. cbn [rev]. by rewrite <- app_assoc.
Qed.

Lemma split_chars_one sep cur a b :
  Forall (fun c => Ascii.eqb c sep = false) a ->
  Forall (fun c => Ascii.eqb c sep = false) b ->
  split_chars sep cur (a ++ sep :: b) = [rev cur ++ a; b].
Proof.
  intros Ha Hb. revert cur. induction Ha as [|c a Hc _ IH]; intros cur.
  - cbn [app split_chars]. rewrite Ascii.eqb_refl.
    by rewrite app_nil_r, (split_chars_no_sep _ _ _ Hb).
  - cbn [app split_chars]. rewrite Hc, IH. cbn [rev]. by rewrite <- app_assoc.
Qed.

Lemma glob_pattern_no_bar p :
  glob_pattern p -> Forall (fun c => Ascii.eqb c bar_char = false) (chars p).
Proof.
  unfold glob_pattern. intros Hp. eapply Forall_impl; [exact Hp|].
  intros c. apply glob_char_no_bar.
Qed.

Lemma split_entry table_fmt column_fmt :
  glob_pattern table_fmt -> glob_pattern column_fmt ->
  split bar_char (table_fmt +:+ "|" +:+ column_fmt) = [table_fmt; column_fmt].
Proof.
  intros Ht Hc. unfold split. rewrite !chars_app.
  change (chars "|") with [bar_char]. cbn [app].
  rewrite (split_chars_one _ _ _ _ (glob_pattern_no_bar _ Ht)
             (glob_pattern_no_bar _ Hc)).
  cbn. by rewrite !str_chars.
Qed.

Lemma has_star_entry table_fmt column_fmt :
  has_star (table_fmt +:+ "|" +:+ column_fmt)
  = has_star table_fmt || has_star column_fmt.
Proof.
  unfold has_star. rewrite !chars_app, !existsb_app.
  change (existsb (Ascii.eqb star_char) (chars "|")) with false.
  by rewrite orb_false_l.
Qed.

(** C6 (as amended): wildcard expansion is a replacement in place from
    left to right, and always ends. A wildcard entry made of [*], [.]
    and ordinary characters gives way to the [table|column] pairs, in
    the order of the tables and of their fields, of the tables that are
    not old versions and whose name has a prefix of the shape of the
    table pattern and of their fields whose name has a prefix of the
    shape of the column pattern, where [*] stands for any sequence and
    [.] for any one character. With the tables x (col1, col2) and
    y (col1), the pattern x*|col* gives x|col1 and x|col2, and x.*|col*
    gives nothing, as x has no character after the x. *)
Theorem expand_wildcard_in_place :
  (forall ds join_group,
     expand_group ds join_group = Some (expand_entries ds join_group))
  /\ (forall ds pre post table_fmt column_fmt,
        loaded ds ->
        glob_pattern table_fmt -> glob_pattern column_fmt ->
        has_star table_fmt || has_star column_fmt = true ->
        Forall (fun e => has_star e = false) pre ->
        Forall (fun e => has_star e = false) post ->
        expand_group ds (pre ++ (table_fmt +:+ "|" +:+ column_fmt) :: post)
        = Some (Ok (pre ++ glob_matches table_fmt column_fmt ds ++ post)))
  /\ expand_group xy_datasets ["x*|col*"] = Some (Ok ["x|col1"; "x|col2"])
  /\ expand_group xy_datasets ["x.*|col*"] = Some (Ok []).
Proof.
  split; [apply expand_group_entries|]. split; [|by split].
  intros ds pre post tf cf Hl Ht Hc Hstar Hpre Hpost.
  rewrite expand_group_entries, (expand_entries_app_plain _ _ _ Hpre).
  cbn [expand_entries]. rewrite has_star_entry, Hstar, (split_entry _ _ Ht Hc).
  cbn [negb unpack2 mbind outcome_bind].
  rewrite (match_datasets_glob _ _ _ _ Ht Hc Hl).
  cbn [mbind outcome_bind app]. rewrite (expand_entries_plain _ _ Hpost).
  cbn. by rewrite glob_matches_tables.
Qed.

Lemma expand_wildcard_in_place_witness :
  expand_group xy_datasets ["a|b"; "x*|col*"; "c|d"]
  = Some (Ok ["a|b"; "x|col1"; "x|col2"; "c|d"]).
Proof.
  refine (proj1 (proj2 expand_wildcard_in_place) xy_datasets ["a|b"] ["c|d"]
            "x*" "col*" _ _ _ _ _ _).
  - apply loaded_load.
  - repeat constructor.
  - repeat constructor.
  - reflexivity.
  - repeat constructor.
  - repeat constructor.
Defined.

(** C6 as stated fails: with the tables x (col1, col2) and y (col1),
    the pattern x.*|col* is replaced by no entry at all. *)
Lemma expand_x_dot_star_empty :
  expand_group xy_datasets ["x.*|col*"] = Some (Ok [])
  /\ expand_group xy_datasets ["x.*|col*"] <> Some (Ok ["x|col1"; "x|col2"]).
Proof. split; [reflexivity|]. vm_compute. discriminate. Qed.

(** * Further properties *)

(** ** The order of names *)

Lemma ascii_compare_lt_trans a b c :
  Ascii.compare a b = Lt -> Ascii.compare b c = Lt -> Ascii.compare a c = Lt.
Proof.
  unfold Ascii.compare. rewrite !N.compare_lt_iff. apply N.lt_trans.
Qed.

Lemma ascii_compare_refl a : Ascii.compare a a = Eq.
Proof. apply N.compare_refl. Qed.

Lemma string_compare_refl s : String.compare s s = Eq.
Proof.
  induction s as [|a s IH]; [done|]. cbn. by rewrite ascii_compare_refl.
Qed.

Lemma string_compare_lt_trans s1 :
  forall s2 s3,
    String.compare s1 s2 = Lt -> String.compare s2 s3 = Lt ->
    String.compare s1 s3 = Lt.
Proof.
  induction s1 as [|a s1 IH]; intros [|b s2] [|c s3]; cbn; try done.
  destruct (Ascii.compare a b) eqn:Hab; try done;
    destruct (Ascii.compare b c) eqn:Hbc; try done.
  - apply Ascii.compare_eq_iff in Hab as ->, Hbc as ->.
    rewrite ascii_compare_refl. apply IH.
  - apply Ascii.compare_eq_iff in Hab as ->. by rewrite Hbc.
  - apply Ascii.compare_eq_iff in Hbc as <-. by rewrite Hab.
  - by rewrite (ascii_compare_lt_trans _ _ _ Hab Hbc).
Qed.

Lemma ltb_irrefl s : (s <? s)%string = false.
Proof. unfold String.ltb. by rewrite string_compare_refl. Qed.

Lemma ltb_trans s1 s2 s3 :
  (s1 <? s2)%string = true -> (s2 <? s3)%string = true ->
  (s1 <? s3)%string = true.
Proof.
  unfold String.ltb.
  destruct (String.compare s1 s2) eqn:H12; try done.
  destruct (String.compare s2 s3) eqn:H23; try done.
  by rewrite (string_compare_lt_trans _ _ _ H12 H23).
Qed.

Lemma ltb_trichotomy s1 s2 :
  (s1 <? s2)%string = false -> s1 <> s2 -> (s2 <? s1)%string = true.
Proof.
  unfold String.ltb. rewrite (String.compare_antisym s2 s1).
  destruct (String.compare s1 s2) eqn:H12; try done.
  apply String.compare_eq_iff in H12. done.
Qed.

(** ** Version families *)

Lemma base_of_Some n m :
  match_re version_re n = Some m -> base_of n = Some (group_str 1 m).
Proof. unfold base_of. by intros ->. Qed.

Lemma base_of_None n : match_re version_re n = None -> base_of n = None.
Proof. unfold base_of. by intros ->. Qed.

Lemma detect_inv_init : detect_inv vstate_init [].
Proof.
  split; [|split].
  - intros k. split.
    + intros Hk. by apply not_elem_of_empty in Hk.
    + intros [Hk _]. by apply elem_of_nil in Hk.
  - intros k Hk. by apply not_elem_of_empty in Hk.
  - intros b _. cbn. rewrite lookup_empty. intros n Hn.
    by apply elem_of_nil in Hn.
Qed.

Lemma elem_of_snoc (seen : list string) n k :
  k ∈ seen ++ [n] <-> k ∈ seen \/ k = n.
Proof. by rewrite elem_of_app, list_elem_of_singleton. Qed.

(** A name that does not match becomes its own latest table. *)
Lemma detect_inv_no_version st seen n :
  base_of n = None ->
  detect_inv st seen ->
  detect_inv
    {| latest_table_base := <[n := n]> (latest_table_base st);
       no_version_tables := {[n]} ∪ no_version_tables st |}
    (seen ++ [n]).
Proof.
  intros Hn (H1 & H2 & H3).
  split; [|split]; cbn [latest_table_base no_version_tables].
  - intros k. rewrite elem_of_union, elem_of_singleton, elem_of_snoc, H1.
    split.
    + intros [->|[Hk Hb]]; [by split; [right|]|by split; [left|]].
    + intros [[Hk| ->] Hb]; [by right|by left].
  - intros k. rewrite elem_of_union, elem_of_singleton.
    destruct (decide (k = n)) as [->|Hne].
    + intros _. by rewrite lookup_insert_eq.
    + intros [Hk|Hk]; [done|]. rewrite lookup_insert_ne by done. by apply H2.
  - intros b. rewrite elem_of_union, elem_of_singleton. intros Hb.
    assert (Hbn : n <> b) by (intros ->; apply Hb; by left).
    assert (Hbv : b ∉ no_version_tables st) by (intros ?; apply Hb; by right).
    rewrite lookup_insert_ne by done. specialize (H3 b Hbv).
    destruct (latest_table_base st !! b) as [m|].
    + destruct H3 as (Hm & Hbm & Hmax). split; [|split; [done|]].
      * apply elem_of_snoc. by left.
      * intros n0. rewrite elem_of_snoc. intros [Hn0| ->] Hb0.
        -- by apply Hmax.
        -- congruence.
    + intros n0. rewrite elem_of_snoc. intros [Hn0| ->].
      * by apply H3.
      * congruence.
Qed.

(** A matching name that replaces the latest table of its base. *)
Lemma detect_inv_replace st seen n b :
  base_of n = Some b ->
  b ∉ no_version_tables st ->
  match latest_table_base st !! b with
  | None => True
  | Some l => (l <? n)%string = true
  end ->
  detect_inv st seen ->
  detect_inv
    {| latest_table_base := <[b := n]> (latest_table_base st);
       no_version_tables := no_version_tables st |}
    (seen ++ [n]).
Proof.
  intros Hn Hb Hl (H1 & H2 & H3).
  split; [|split]; cbn [latest_table_base no_version_tables].
  - intros k. rewrite elem_of_snoc, H1. split.
    + intros [Hk Hbk]. by split; [left|].
    + intros [[Hk| ->] Hbk]; [done|congruence].
  - intros k Hk. rewrite lookup_insert_ne; [by apply H2|].
    intros ->. done.
  - intros b' Hb'. destruct (decide (b = b')) as [<-|Hne].
    + rewrite lookup_insert_eq. split; [|split; [done|]].
      * apply elem_of_snoc. by right.
      * intros n0. rewrite elem_of_snoc. intros [Hn0| ->] Hb0.
        -- specialize (H3 b Hb).
           destruct (latest_table_base st !! b) as [l|].
           ++ destruct H3 as (_ & _ & Hmax). specialize (Hmax n0 Hn0 Hb0).
              destruct (n <? n0)%string eqn:E; [|done].
              by rewrite (ltb_trans _ _ _ Hl E) in Hmax.
           ++ by destruct (H3 n0 Hn0).
        -- apply ltb_irrefl.
    + rewrite lookup_insert_ne by done. specialize (H3 b' Hb').
      destruct (latest_table_base st !! b') as [m|].
      * destruct H3 as (Hm & Hbm & Hmax). split; [|split; [done|]].
        -- apply elem_of_snoc. by left.
        -- intros n0. rewrite elem_of_snoc. intros [Hn0| ->] Hb0.
           ++ by apply Hmax.
           ++ congruence.
      * intros n0. rewrite elem_of_snoc. intros [Hn0| ->].
        -- by apply H3.
        -- congruence.
Qed.

(** A matching name that leaves the latest table of its base. *)
Lemma detect_inv_keep st seen n b l :
  base_of n = Some b ->
  latest_table_base st !! b = Some l ->
  (l <? n)%string && negb (bool_decide (b ∈ no_version_tables st)) = false ->
  detect_inv st seen ->
  detect_inv st (seen ++ [n]).
Proof.
  intros Hn Hl Hc (H1 & H2 & H3). split; [|split].
  - intros k. rewrite elem_of_snoc, H1. split.
    + intros [Hk Hbk]. by split; [left|].
    + intros [[Hk| ->] Hbk]; [done|congruence].
  - done.
  - intros b' Hb'. specialize (H3 b' Hb').
    destruct (latest_table_base st !! b') as [m|] eqn:Hm.
    + destruct H3 as (Hin & Hbm & Hmax). split; [|split; [done|]].
      * apply elem_of_snoc. by left.
      * intros n0. rewrite elem_of_snoc. intros [Hn0| ->] Hb0.
        -- by apply Hmax.
        -- assert (b = b') by congruence. subst b'.
           assert (m = l) by congruence. subst m.
           apply andb_false_iff in Hc as [Hc|Hc]; [done|].
           apply negb_false_iff, bool_decide_eq_true in Hc. done.
    + intros n0. rewrite elem_of_snoc. intros [Hn0| ->].
      * by apply H3.
      * intros Hb0. assert (b = b') by congruence. subst b'. congruence.
Qed.

Lemma detect_inv_step st seen n :
  detect_inv st seen ->
  detect_inv (detect_table st (new_table n)).1 (seen ++ [n]).
Proof.
  intros Hinv. unfold detect_table. cbn [table_name new_table].
  destruct (match_re version_re n) as [m|] eqn:Hm.
  - pose proof (base_of_Some _ _ Hm) as Hb.
    destruct (latest_table_base st !! group_str 1 m) as [l|] eqn:Hl.
    + destruct ((l <? n)%string
                && negb (bool_decide (group_str 1 m ∈ no_version_tables st)))
        eqn:Hc; cbn [fst].
      * apply andb_true_iff in Hc as [Hlt Hnv].
        apply negb_true_iff, bool_decide_eq_false in Hnv.
        apply detect_inv_replace; [done..| |done]. by rewrite Hl.
      * by eapply detect_inv_keep.
    + cbn [fst]. apply detect_inv_replace; [done| |by rewrite Hl|done].
      intros Hnv. destruct Hinv as (_ & H2 & _).
      rewrite (H2 _ Hnv) in Hl. done.
  - cbn [fst]. apply detect_inv_no_version; [|done]. by apply base_of_None.
Qed.

Lemma detect_inv_names st seen names :
  detect_inv st seen ->
  detect_inv (detect_state st (map new_table names)) (seen ++ names).
Proof.
  revert st seen. induction names as [|n names IH]; intros st seen Hinv.
  - cbn. by rewrite app_nil_r.
  - cbn [map]. rewrite detect_state_cons.
    replace (seen ++ n :: names) with ((seen ++ [n]) ++ names)
      by (by rewrite <- app_assoc).
    apply IH. by apply detect_inv_step.
Qed.

Lemma detect_inv_final names :
  detect_inv (detect_state vstate_init (map new_table names)) names.
Proof. apply (detect_inv_names vstate_init [] names detect_inv_init). Qed.

Lemma names_old_flag names n old :
  (n, old) ∈ names_old (resolve_versions (discovered names))
  <-> n ∈ concat (map snd names)
      /\ old = negb (bool_decide
                       (n ∈ latest_tables
                              (detect_state vstate_init
                                 (map new_table (concat (map snd names)))))).
Proof.
  rewrite names_old_discovered. unfold old_flags.
  rewrite list_elem_of_fmap. split.
  - intros (n' & [= -> ->] & Hin). done.
  - intros [Hin ->]. by exists n.
Qed.

(** A matching name is among the latest tables exactly when it is the
    latest table of its base and the base is no table without version. *)
Lemma versioned_latest st seen n b :
  detect_inv st seen -> base_of n = Some b ->
  n ∈ latest_tables st
  <-> (b ∉ no_version_tables st) /\ latest_table_base st !! b = Some n.
Proof.
  intros (H1 & H2 & H3) Hb. unfold latest_tables. rewrite elem_of_map_img.
  split.
  - intros [k Hk]. destruct (decide (k ∈ no_version_tables st)) as [Hnv|Hnv].
    + pose proof (H2 k Hnv) as Hkk. apply H1 in Hnv as [_ Hbk].
      assert (k = n) by congruence. subst k. congruence.
    + specialize (H3 k Hnv). rewrite Hk in H3. destruct H3 as (_ & Hbn & _).
      assert (k = b) by congruence. by subst k.
  - intros [_ Hl]. by exists b.
Qed.

(** The flags of the tables a_1, a_2 and a_10, in any order. *)
Lemma old_flags_a_1_2_10 (ns : list string) :
  ns ≡ₚ ["a_1"; "a_2"; "a_10"] ->
  old_flags ns = map (fun n => (n, negb (bool_decide (n = "a_2")))) ns.
Proof.
  intros Hp. symmetry in Hp. apply permutations_Permutation in Hp.
  set (ps := permutations _) in Hp.
  vm_compute in ps. subst ps.
  repeat (apply elem_of_cons in Hp as [->|Hp]; [vm_compute; reflexivity|]).
  by apply elem_of_nil in Hp.
Qed.

(** C3 (as amended): after version resolution of the discovered tables,
    whatever their names and their order, a table whose name matches
    the version pattern stays the latest one (is not marked as an old
    version) exactly when its base is not the name of a discovered table
    without version and no discovered table of the same base has a name
    that is greater in the order of strings. So for the discovered
    tables a_1, a_2 and a_10, in any order and in any distribution over
    the datasets, a_2 is the latest and a_1 and a_10 are marked as old
    versions: the names are compared as strings, not as numbers. *)
Theorem resolve_versions_lexicographic :
  (forall (names : list (string * list string)) (n b : string) (old : bool),
     (n, old) ∈ names_old (resolve_versions (discovered names)) ->
     base_of n = Some b ->
     (old = false
      <-> (~ (b ∈ concat (map snd names) /\ base_of b = None))
          /\ (forall n', n' ∈ concat (map snd names) ->
                         base_of n' = Some b ->
                         (n <? n')%string = false)))
  /\ (forall names : list (string * list string),
        concat (map snd names) ≡ₚ ["a_1"; "a_2"; "a_10"] ->
        names_old (resolve_versions (discovered names))
        = map (fun n => (n, negb (bool_decide (n = "a_2"))))
            (concat (map snd names))).
Proof.
  split.
  - intros names n b old Hin Hb. apply names_old_flag in Hin as [Hn ->].
    pose proof (detect_inv_final (concat (map snd names))) as Hinv.
    rewrite negb_false_iff, bool_decide_eq_true.
    rewrite (versioned_latest _ _ _ _ Hinv Hb).
    destruct Hinv as (H1 & H2 & H3). split.
    + intros [Hnv Hl]. split; [by rewrite <- H1|].
      specialize (H3 b Hnv). rewrite Hl in H3.
      by destruct H3 as (_ & _ & Hmax).
    + intros [Hnb Hmax]. rewrite H1. split; [done|].
      assert (Hnv : b ∉ no_version_tables
                          (detect_state vstate_init
                             (map new_table (concat (map snd names)))))
        by (by rewrite H1).
      specialize (H3 b Hnv).
      destruct (latest_table_base _ !! b) as [m|].
      * destruct H3 as (Hm & Hbm & Hmax'). f_equal.
        destruct (decide (m = n)) as [Heq|Hne]; [done|].
        pose proof (ltb_trichotomy _ _ (Hmax' n Hn Hb) Hne) as Hlt.
        by rewrite (Hmax m Hm Hbm) in Hlt.
      * by destruct (H3 n Hn).
  - intros names Hp. rewrite names_old_discovered.
    by apply old_flags_a_1_2_10.
Qed.

Lemma resolve_versions_lexicographic_witness :
  names_old
    (resolve_versions (discovered [("d", ["a_10"; "a_1"]); ("e", ["a_2"])]))
  = [("a_10", true); ("a_1", true); ("a_2", false)]
  /\ (forall n', n' ∈ ["a_10"; "a_1"; "a_2"] -> base_of n' = Some "a" ->
                 ("a_2" <? n')%string = false).
Proof.
  split.
  - apply (proj2 resolve_versions_lexicographic
             [("d", ["a_10"; "a_1"]); ("e", ["a_2"])]).
    simpl. apply Permutation_sym.
    apply perm_trans with ["a_1"; "a_10"; "a_2"].
    + apply perm_skip, perm_swap.
    + apply perm_swap.
  - refine (proj2 (proj1 (proj1 resolve_versions_lexicographic
                            [("d", ["a_10"; "a_1"]); ("e", ["a_2"])]
                            "a_2" "a" false _ _) eq_refl)).
    + vm_compute. apply list_elem_of_In. right. right. left. reflexivity.
    + reflexivity.
Defined.

(** C3 as stated fails: of the discovered tables a_1, a_2 and a, the
    name a_2 is the greatest of the version family of a, and it is
    marked as an old version, as a_1 is: the table a, which has no
    version, is the latest of the family. *)
Lemma version_family_greatest_marked_old :
  names_old (resolve_versions (discovered [("d", ["a_1"; "a_2"; "a"])]))
  = [("a_1", true); ("a_2", true); ("a", false)]
  /\ base_of "a_1" = Some "a" /\ base_of "a_2" = Some "a"
  /\ base_of "a" = None
  /\ ("a_1" <? "a_2")%string = true /\ ("a" <? "a_2")%string = true.
Proof. repeat split; vm_compute; reflexivity. Qed.

(** X1: a table whose name matches the version pattern and whose base is
    the name of a discovered table that does not match it is marked as an
    old version, whatever the other tables and the order. *)
Theorem version_with_unversioned_sibling_old
  (names : list (string * list string)) (n b : string) (old : bool) :
  (n, old) ∈ names_old (resolve_versions (discovered names)) ->
  base_of n = Some b ->
  b ∈ concat (map snd names) ->
  base_of b = None ->
  old = true.
Proof.
  intros Hin Hb Hbin Hbn. apply names_old_flag in Hin as [Hn ->].
  pose proof (detect_inv_final (concat (map snd names))) as Hinv.
  apply negb_true_iff, bool_decide_eq_false.
  rewrite (versioned_latest _ _ _ _ Hinv Hb). intros [Hnv _]. apply Hnv.
  destruct Hinv as (H1 & _). apply H1. done.
Qed.

Lemma version_with_unversioned_sibling_old_witness :
  (("t_2", true) ∈
     names_old (resolve_versions (discovered [("d", ["t_1"; "t_2"; "t"])])))
  /\ base_of "t_2" = Some "t".
Proof.
  assert (H1 : ("t_2", true) ∈
     names_old (resolve_versions (discovered [("d", ["t_1"; "t_2"; "t"])]))).
  { vm_compute. apply list_elem_of_In. right. left. reflexivity. }
  assert (H2 : base_of "t_2" = Some "t") by reflexivity.
  assert (H3 : "t" ∈ concat (map snd [("d", ["t_1"; "t_2"; "t"])])).
  { apply list_elem_of_In. cbn. auto. }
  assert (H4 : base_of "t" = None) by reflexivity.
  pose proof (version_with_unversioned_sibling_old _ _ _ _ H1 H2 H3 H4) as H5.
  split; assumption.
Defined.

(** X2: a table whose name matches the version pattern, and whose base is
    not the name of a discovered table without version, is marked as an
    old version exactly when some discovered table of the same base has
    a name that is greater in the order of strings. *)
Theorem version_old_iff_not_greatest
  (names : list (string * list string)) (n b : string) (old : bool) :
  (n, old) ∈ names_old (resolve_versions (discovered names)) ->
  base_of n = Some b ->
  ~ (b ∈ concat (map snd names) /\ base_of b = None) ->
  old = true
  <-> exists n', n' ∈ concat (map snd names) /\ base_of n' = Some b
                 /\ (n <? n')%string = true.
Proof.
  intros Hin Hb Hnb. apply names_old_flag in Hin as [Hn ->].
  pose proof (detect_inv_final (concat (map snd names))) as Hinv.
  rewrite negb_true_iff, bool_decide_eq_false.
  rewrite (versioned_latest _ _ _ _ Hinv Hb).
  destruct Hinv as (H1 & H2 & H3).
  assert (Hnv : b ∉ no_version_tables
                      (detect_state vstate_init
                         (map new_table (concat (map snd names)))))
    by (by rewrite H1).
  specialize (H3 b Hnv).
  destruct (latest_table_base _ !! b) as [m|].
  - destruct H3 as (Hm & Hbm & Hmax). split.
    + intros Hne. exists m. split; [done|]. split; [done|].
      apply ltb_trichotomy; [by apply Hmax|]. intros ->. by apply Hne.
    + intros (n' & Hn' & Hb' & Hlt) [_ [= ->]].
      by rewrite (Hmax n' Hn' Hb') in Hlt.
  - by destruct (H3 n Hn).
Qed.

Lemma version_old_iff_not_greatest_witness :
  exists n', n' ∈ concat (map snd [("d", ["a_10"; "a_2"]); ("e", ["a_1"])])
             /\ base_of n' = Some "a" /\ ("a_10" <? n')%string = true.
Proof.
  refine (proj1 (version_old_iff_not_greatest
                   [("d", ["a_10"; "a_2"]); ("e", ["a_1"])] "a_10" "a" true
                   _ _ _) eq_refl).
  - vm_compute. apply list_elem_of_In. left. reflexivity.
  - reflexivity.
  - intros [H _]. apply list_elem_of_In in H. cbn in H.
    intuition discriminate.
Defined.

(** ** Field lookup, in general *)

Lemma find_in_fields_Some column fs f :
  find_in_fields column fs = Some f -> f ∈ fs /\ field_name f = column.
Proof.
  induction fs as [|f' fs IH]; [done|]. cbn.
  destruct (bool_decide (column = field_name f')) eqn:E.
  - intros [= ->]. apply bool_decide_eq_true in E.
    split; [by left|done].
  - intros H. destruct (IH H) as [Hin Hn]. split; [by right|done].
Qed.

Lemma find_in_fields_None column fs :
  find_in_fields column fs = None
  <-> forall f, f ∈ fs -> field_name f <> column.
Proof.
  induction fs as [|f' fs IH]; cbn.
  - split; [|done]. intros _ f Hf. by apply elem_of_nil in Hf.
  - destruct (bool_decide (column = field_name f')) eqn:E.
    + apply bool_decide_eq_true in E. split; [done|].
      intros H. exfalso. apply (H f'); [by left|done].
    + apply bool_decide_eq_false in E. rewrite IH. split.
      * intros H f Hf. apply elem_of_cons in Hf as [->|Hf]; [congruence|].
        by apply H.
      * intros H f Hf. apply H. by right.
Qed.

Lemma find_in_tables_Some name column ts f :
  find_in_tables name column ts = Ok (Some f) ->
  exists t fs, t ∈ ts /\ table_name t = name /\ fields t = Some fs
               /\ f ∈ fs /\ field_name f = column.
Proof.
  induction ts as [|t ts IH]; [done|]. cbn [find_in_tables].
  destruct (bool_decide (table_name t = name)) eqn:E.
  - apply bool_decide_eq_true in E.
    destruct (fields t) as [fs|] eqn:Hfs; [|done].
    destruct (find_in_fields column fs) as [f'|] eqn:Hf.
    + intros [= ->]. apply find_in_fields_Some in Hf as [Hin Hn].
      exists t, fs. split; [by left|done].
    + intros H. destruct (IH H) as (t' & fs' & Hin & Hrest).
      exists t', fs'. split; [by right|done].
  - intros H. destruct (IH H) as (t' & fs' & Hin & Hrest).
    exists t', fs'. split; [by right|done].
Qed.

Lemma find_in_tables_None name column ts :
  find_in_tables name column ts = Ok None
  <-> forall t, t ∈ ts -> table_name t = name ->
        exists fs, fields t = Some fs
                   /\ forall f, f ∈ fs -> field_name f <> column.
Proof.
  induction ts as [|t ts IH]; cbn [find_in_tables].
  - split; [|done]. intros _ t Ht. by apply elem_of_nil in Ht.
  - destruct (bool_decide (table_name t = name)) eqn:E.
    + apply bool_decide_eq_true in E.
      destruct (fields t) as [fs|] eqn:Hfs.
      * destruct (find_in_fields column fs) as [f'|] eqn:Hf.
        -- split; [done|]. intros H. exfalso.
           destruct (H t ltac:(by left) E) as (fs' & Hfs' & Hno).
           rewrite Hfs in Hfs'. injection Hfs' as <-.
           apply find_in_fields_Some in Hf as [Hin Hn]. by apply (Hno f').
        -- rewrite IH. split.
           ++ intros H t' Ht'. apply elem_of_cons in Ht' as [->|Ht'].
              ** intros _. exists fs. split; [done|].
                 by apply find_in_fields_None.
              ** by apply H.
           ++ intros H t' Ht'. apply H. by right.
      * split; [done|]. intros H. exfalso.
        destruct (H t ltac:(by left) E) as (fs' & Hfs' & _). congruence.
    + apply bool_decide_eq_false in E. rewrite IH. split.
      * intros H t' Ht'. apply elem_of_cons in Ht' as [->|Ht'].
        -- intros Hn. done.
        -- by apply H.
      * intros H t' Ht'. apply H. by right.
Qed.

(** X3: [find_field] returns a field only if it is a field, with the
    column's name, of a table with the given name whose fields are
    loaded; and it returns [None] exactly when every table with the given
    name has its fields loaded and none of them has the column: a name
    that no table has gives [None], not an error. *)
Theorem find_field_result (ds : list Dataset) (name column : string) :
  (forall f, find_field ds name column = Ok (Some f) ->
     exists t fs, t ∈ all_tables ds /\ table_name t = name
                  /\ fields t = Some fs /\ f ∈ fs /\ field_name f = column)
  /\ (find_field ds name column = Ok None
      <-> forall t, t ∈ all_tables ds -> table_name t = name ->
            exists fs, fields t = Some fs
                       /\ forall f, f ∈ fs -> field_name f <> column).
Proof.
  rewrite find_field_all_tables. split.
  - intros f. apply find_in_tables_Some.
  - apply find_in_tables_None.
Qed.

Lemma find_field_result_witness :
  find_field abc_datasets "no.such_table" "c1" = Ok None.
Proof.
  apply (proj2 (find_field_result abc_datasets "no.such_table" "c1")).
  intros t Ht Hn. exfalso.
  apply list_elem_of_In in Ht. vm_compute in Ht.
  repeat (destruct Ht as [Ht|Ht];
          [subst t; vm_compute in Hn; discriminate|]).
  destruct Ht.
Defined.

(** ** The loaded datasets *)

Lemma load_table_key_old show t :
  table_name (load_table show t) = table_name t
  /\ old_version (load_table show t) = old_version t.
Proof. unfold load_table. by destruct (old_version t) eqn:E. Qed.

(** X4: after the discovered tables went through version resolution and
    schema loading, a table has no fields exactly when it is an old
    version, the other tables have the flattened schema the warehouse
    shows for their name, and loading changes neither names nor flags. *)
Theorem loaded_fields_iff_not_old
  (show : string -> list schema_field) (names : list (string * list string)) :
  (forall t,
     t ∈ all_tables (load_datasets show (resolve_versions (discovered names))) ->
     (fields t = None <-> old_version t = true)
     /\ (old_version t = false ->
         fields t = Some (flatten "" (show (table_name t)))))
  /\ names_old (load_datasets show (resolve_versions (discovered names)))
     = names_old (resolve_versions (discovered names)).
Proof.
  split.
  - intros t Hin. pose proof Hin as Hin'.
    rewrite all_tables_load in Hin'.
    apply list_elem_of_fmap in Hin' as (t0 & -> & Hin0).
    pose proof (resolve_versions_fields _ _ Hin0) as Hf0.
    unfold load_table. destruct (old_version t0) eqn:Hold; cbv iota.
    + rewrite Hold, Hf0. split; [by split|done].
    + cbn [fields old_version table_name]. split; [by split|].
      intros _. f_equal.
      rewrite (add_fields_app_flatten "" (show (table_name t0)) []); [done|].
      apply Forall_forall. intros f _. apply add_field_flatten.
  - unfold names_old. rewrite all_tables_load, map_map. apply map_ext.
    intros t. by destruct (load_table_key_old show t) as [-> ->].
Qed.

(** ** What wildcard expansion writes *)

Lemma match_fields_entries column_fmt name fs matches r :
  match_fields column_fmt name fs matches = Ok r ->
  exists new, r = matches ++ new
    /\ forall e, e ∈ new ->
         exists f, f ∈ fs /\ e = name +:+ "|" +:+ field_name f.
Proof.
  revert matches. induction fs as [|f fs IH]; intros matches; cbn.
  - intros [= <-]. exists []. rewrite app_nil_r. split; [done|].
    intros e He. by apply elem_of_nil in He.
  - destruct (re_matches _ _) as [b| |]; [|done..]. cbn.
    intros H. apply IH in H as (new & -> & Hnew). destruct b.
    + exists ((name +:+ "|" +:+ field_name f) :: new).
      rewrite <- app_assoc. split; [done|].
      intros e He. apply elem_of_cons in He as [->|He].
      * exists f. split; [by left|done].
      * destruct (Hnew e He) as (f' & Hf' & ->). exists f'.
        split; [by right|done].
    + exists new. split; [done|].
      intros e He. destruct (Hnew e He) as (f' & Hf' & ->). exists f'.
      split; [by right|done].
Qed.

Lemma match_tables_entries table_fmt column_fmt ts matches r :
  match_tables table_fmt column_fmt ts matches = Ok r ->
  exists new, r = matches ++ new
    /\ forall e, e ∈ new ->
         exists t fs f, t ∈ ts /\ old_version t = false
           /\ fields t = Some fs /\ f ∈ fs
           /\ e = table_name t +:+ "|" +:+ field_name f.
Proof.
  revert matches. induction ts as [|t ts IH]; intros matches; cbn.
  - intros [= <-]. exists []. rewrite app_nil_r. split; [done|].
    intros e He. by apply elem_of_nil in He.
  - unfold match_table.
    destruct (re_matches _ _) as [b| |]; [|done..]. cbn.
    destruct (negb b || old_version t) eqn:Hc; cbn.
    + intros H. apply IH in H as (new & -> & Hnew). exists new.
      split; [done|]. intros e He.
      destruct (Hnew e He) as (t' & fs & f & Ht' & Hrest).
      exists t', fs, f. split; [by right|done].
    + apply orb_false_iff in Hc as [_ Hold].
      destruct (fields t) as [fs|] eqn:Hfs; [|done].
      destruct (match_fields _ _ _ _) as [m1| |] eqn:Hm; [|done..]. cbn.
      apply match_fields_entries in Hm as (new1 & -> & Hnew1).
      intros H. apply IH in H as (new & -> & Hnew).
      exists (new1 ++ new). rewrite app_assoc. split; [done|].
      intros e He. apply elem_of_app in He as [He|He].
      * destruct (Hnew1 e He) as (f & Hf & ->).
        exists t, fs, f. split; [by left|done].
      * destruct (Hnew e He) as (t' & fs' & f & Ht' & Hrest).
        exists t', fs', f. split; [by right|done].
Qed.

Lemma match_datasets_entries table_fmt column_fmt ds matches r :
  match_datasets table_fmt column_fmt ds matches = Ok r ->
  exists new, r = matches ++ new
    /\ forall e, e ∈ new -> table_field_entry ds e.
Proof.
  revert matches. induction ds as [|d ds IH]; intros matches; cbn.
  - intros [= <-]. exists []. rewrite app_nil_r. split; [done|].
    intros e He. by apply elem_of_nil in He.
  - destruct (match_tables _ _ _ _) as [m1| |] eqn:Hm; [|done..]. cbn.
    apply match_tables_entries in Hm as (new1 & -> & Hnew1).
    intros H. apply IH in H as (new & -> & Hnew).
    exists (new1 ++ new). rewrite app_assoc. split; [done|].
    intros e He. unfold table_field_entry. rewrite all_tables_cons.
    apply elem_of_app in He as [He|He].
    + destruct (Hnew1 e He) as (t & fs & f & Ht & Hrest).
      exists t, fs, f. split; [|done]. apply elem_of_app. by left.
    + destruct (Hnew e He) as (t & fs & f & Ht & Hrest).
      exists t, fs, f. split; [|done]. apply elem_of_app. by right.
Qed.

Lemma expand_entries_origin ds entries r :
  expand_entries ds entries = Ok r ->
  forall e, e ∈ r ->
    (e ∈ entries /\ has_star e = false) \/ table_field_entry ds e.
Proof.
  revert r. induction entries as [|entry rest IH]; intros r; cbn.
  - intros [= <-] e He. by apply elem_of_nil in He.
  - destruct (has_star entry) eqn:Hs; cbn.
    + destruct (unpack2 _) as [[tf cf]| |]; [|done..]. cbn.
      destruct (match_datasets tf cf ds []) as [m| |] eqn:Hm; [|done..]. cbn.
      apply match_datasets_entries in Hm as (new & -> & Hnew).
      destruct (expand_entries ds rest) as [r'| |]; [|done..]. cbn.
      intros [= <-] e He. apply elem_of_app in He as [He|He].
      * right. by apply Hnew.
      * destruct (IH r' eq_refl e He) as [[Hin Hst]|Ht]; [left|by right].
        split; [by right|done].
    + destruct (expand_entries ds rest) as [r'| |]; [|done..]. cbn.
      intros [= <-] e He. apply elem_of_cons in He as [->|He].
      * left. split; [by left|done].
      * destruct (IH r' eq_refl e He) as [[Hin Hst]|Ht]; [left|by right].
        split; [by right|done].
Qed.

(** X5: whenever the expansion of a join group succeeds, every entry of
    the result is either an entry of the group without wildcard or names
    a table that is not an old version and one of its loaded fields:
    the expansion writes no entry for an old version or for a field that
    does not exist; and a group without wildcard comes back unchanged,
    whatever was discovered. *)
Theorem expand_group_origin (ds : list Dataset) (join_group : list string) :
  (forall r, expand_group ds join_group = Some (Ok r) ->
     forall e, e ∈ r ->
       (e ∈ join_group /\ has_star e = false) \/ table_field_entry ds e)
  /\ (Forall (fun e => has_star e = false) join_group ->
      expand_group ds join_group = Some (Ok join_group)).
Proof.
  rewrite expand_group_entries. split.
  - intros r [= Hr]. by apply expand_entries_origin.
  - intros Hplain. by rewrite expand_entries_plain.
Qed.

Lemma expand_group_origin_witness :
  expand_group old_datasets ["t_1|c1"; "t_2|c2"]
  = Some (Ok ["t_1|c1"; "t_2|c2"]).
Proof.
  apply (proj2 (expand_group_origin old_datasets ["t_1|c1"; "t_2|c2"])).
  repeat constructor.
Defined.

(** ** Pair enumeration, in general *)

Lemma foldM_fixed {A B : Type} (f : B -> A -> outcome B) l b :
  (forall a, a ∈ l -> f b a = Ok b) -> foldM f l b = Ok b.
Proof.
  induction l as [|a l IH]; intros H; [done|].
  rewrite foldM_cons, (H a) by (by left). cbn. apply IH.
  intros a' Ha'. apply H. by right.
Qed.

Lemma foldM_invariant_in {A B : Type} (f : B -> A -> outcome B)
  (P : B -> Prop) l :
  (forall b a b', a ∈ l -> f b a = Ok b' -> P b -> P b') ->
  forall b b', foldM f l b = Ok b' -> P b -> P b'.
Proof.
  induction l as [|a l IH]; intros Hstep b b'.
  - by intros [= <-].
  - rewrite foldM_cons. destruct (f b a) as [b1| |] eqn:E; [|done..].
    cbn. intros Hrest Hb. apply (IH (fun b0 a0 b0' Ha0 => Hstep b0 a0 b0'
                                       ltac:(by right)) b1 b' Hrest).
    apply (Hstep b a b1); [by left|done..].
Qed.

Lemma lstrip_plus_no_plus s : startswith_plus (lstrip_plus s) = false.
Proof.
  induction s as [|c s IH]; [done|]. cbn.
  destruct (Ascii.eqb c plus_char) eqn:E; [done|]. cbn. exact E.
Qed.

Lemma pair_body_optional ds gc query name jg i st j :
  Forall optional_entry jg ->
  (i < List.length jg)%nat -> (j < List.length jg)%nat ->
  pair_body ds gc query name jg i st j = Ok st.
Proof.
  intros Hall Hi Hj. unfold pair_body.
  destruct (j =? i)%nat; [done|].
  destruct (lookup_lt_is_Some_2 jg i Hi) as [ei Hei].
  destruct (lookup_lt_is_Some_2 jg j Hj) as [ej Hej].
  rewrite Hei, Hej. rewrite Forall_forall in Hall.
  destruct (Hall ei (list_elem_of_lookup_2 _ _ _ Hei)) as (t1 & c1 & -> & H1).
  destruct (Hall ej (list_elem_of_lookup_2 _ _ _ Hej)) as (t2 & c2 & -> & H2).
  cbn. by rewrite H1, H2.
Qed.

(** X6: a join group none of whose entries carries the required marker
    leaves the enumeration as it is: no field is looked up and no query
    is sent, whether or not its tables exist. The same holds for a group
    of at most one entry, whatever the entry. *)
Theorem pair_group_without_required
  (ds : list Dataset) (gc : gmap string string)
  (query : JoinQuery -> list Row) (st : pstate) (name : string) :
  (forall jg, Forall optional_entry jg ->
     pair_group ds gc query st (name, jg) = Ok st)
  /\ (forall e, pair_group ds gc query st (name, [e]) = Ok st)
  /\ pair_group ds gc query st (name, []) = Ok st.
Proof.
  split; [|split; [|done]].
  - intros jg Hall. unfold pair_group. apply foldM_fixed.
    intros i Hi. apply elem_of_seq in Hi as [_ Hi].
    apply foldM_fixed. intros j Hj. apply elem_of_seq in Hj as [_ Hj].
    by apply pair_body_optional.
  - intros e. unfold pair_group. cbn [List.length seq foldM].
    by rewrite pair_body_same.
Qed.

Lemma pair_group_without_required_witness :
  pair_group [] ∅ (fun _ => []) {| join_done := ∅; joins := [] |}
    ("g", ["no.table|c1"; "other.table|c2"])
  = Ok {| join_done := ∅; joins := [] |}.
Proof.
  apply (proj1 (pair_group_without_required [] ∅ (fun _ => [])
                  {| join_done := ∅; joins := [] |} "g")).
  repeat constructor; by eexists _, _.
Defined.

(** One round of the inner loop leaves the joins or adds one join that
    was made from the datasets, the group configuration and the answer
    to its query. *)
Lemma pair_body_join_made ds gc query name jg i st j st' :
  pair_body ds gc query name jg i st j = Ok st' ->
  joins st' = joins st
  \/ exists jn, joins st' = joins st ++ [jn]
                /\ join_name jn = name /\ join_made ds gc query jn.
Proof.
  unfold pair_body. destruct (j =? i)%nat; [intros [= <-]; by left|].
  destruct (jg !! i) as [ei|]; [|done].
  destruct (jg !! j) as [ej|]; [|done].
  destruct (unpack2 (split bar_char ei)) as [[t1 c1]| |]; [|done..].
  destruct (unpack2 (split bar_char ej)) as [[t2 c2]| |]; [|done..].
  cbn. destruct (_ && _); [intros [= <-]; by left|].
  destruct (bool_decide (_ ∈ join_done st)); [intros [= <-]; by left|].
  destruct (bool_decide (lstrip_plus t1 = lstrip_plus t2)
            && bool_decide (c1 = c2));
    cbn; [intros [= <-]; by left|].
  destruct (find_field ds (lstrip_plus t1) c1) as [from| |] eqn:Hfrom;
    [|done..].
  destruct (find_field ds (lstrip_plus t2) c2) as [to| |] eqn:Hto;
    [|done..].
  cbn. destruct from as [f1|]; [|done]. destruct to as [f2|]; [|done].
  destruct (join_statistics _ _) as [[[p n] js]| |] eqn:Hst; [|done..].
  cbn. intros [= <-]. right. eexists. split; [reflexivity|].
  split; [done|]. unfold join_made. cbn.
  pose proof (find_field_name _ _ _ _ Hfrom) as ->.
  pose proof (find_field_name _ _ _ _ Hto) as ->.
  rewrite !lstrip_plus_no_plus.
  destruct (no_group_by (gc !! lstrip_plus t1)) eqn:Hg; done.
Qed.

(** X7: every join of a successful enumeration carries the name of a
    configured group; its from and to fields are the fields [find_field]
    gives for its tables and columns; its percent, row count and bucket
    statistics are the statistics of the warehouse's answer to its query;
    and its query names the two tables without marker, with [:] replaced
    by [.]. *)
Theorem enumerate_joins_made
  (ds : list Dataset) (gc : gmap string string)
  (query : JoinQuery -> list Row) (config : join_config) (st : pstate) :
  enumerate_joins ds gc query config = Ok st ->
  forall j, j ∈ joins st ->
    join_made ds gc query j /\ join_name j ∈ map fst config.
Proof.
  intros Hok. unfold enumerate_joins in Hok.
  set (P := fun st : pstate => forall j, j ∈ joins st ->
              join_made ds gc query j /\ join_name j ∈ map fst config).
  refine (foldM_invariant_in _ P _ _ _ _ Hok _).
  - intros b [name jg] b' Hg Hpg. unfold pair_group in Hpg.
    assert (Hname : name ∈ map fst config)
      by (apply list_elem_of_fmap; by exists (name, jg)).
    refine (foldM_invariant _ P _ _ _ _ Hpg).
    intros b1 i b1' Hi.
    refine (foldM_invariant _ P _ _ _ _ Hi).
    intros b2 k b2' Hk Hb2. unfold P.
    apply pair_body_join_made in Hk as [->|(jn & -> & Hn & Hm)]; [done|].
    intros j0 Hj0. apply elem_of_app in Hj0 as [Hj0|Hj0]; [by apply Hb2|].
    apply list_elem_of_singleton in Hj0 as ->. by rewrite Hn.
  - intros j0 Hj0. by apply elem_of_nil in Hj0.
Qed.

Lemma enumerate_joins_made_witness :
  exists st,
    enumerate_joins abc_datasets ∅ (fun _ => two_buckets) [("g", abc_group)]
    = Ok st
    /\ forall j, j ∈ joins st ->
         join_made abc_datasets ∅ (fun _ => two_buckets) j
         /\ join_name j ∈ map fst [("g", abc_group)].
Proof.
  eexists. split; [vm_compute; reflexivity|].
  apply (enumerate_joins_made abc_datasets ∅ (fun _ => two_buckets)
           [("g", abc_group)]).
  vm_compute. reflexivity.
Defined.

(** X8: in a round for two entries that pass the tests, when both
    lookups return and one of them returns [None], the run raises the
    "fields not found" error with the two entries as configured and, for
    each, whether its field was found. *)
Theorem pair_body_fields_not_found
  ds gc query name jg i j st ei ej t1 c1 t2 c2 r1 r2 :
  (j =? i)%nat = false ->
  jg !! i = Some ei -> jg !! j = Some ej ->
  unpack2 (split bar_char ei) = Ok (t1, c1) ->
  unpack2 (split bar_char ej) = Ok (t2, c2) ->
  negb (startswith_plus t1) && negb (startswith_plus t2) = false ->
  bool_decide (lstrip_plus t1 +:+ c1 +:+ lstrip_plus t2 +:+ c2 ∈ join_done st)
  = false ->
  bool_decide (lstrip_plus t1 = lstrip_plus t2) && bool_decide (c1 = c2)
  = false ->
  find_field ds (lstrip_plus t1) c1 = Ok r1 ->
  find_field ds (lstrip_plus t2) c2 = Ok r2 ->
  r1 = None \/ r2 = None ->
  pair_body ds gc query name jg i st j
  = Raise (TypeError_fields_not_found ei (bool_decide (is_Some r1))
             ej (bool_decide (is_Some r2))).
Proof.
  intros Hji Hi Hj Hs1 Hs2 Hplus Hdone Hself Hf1 Hf2 Hnone.
  unfold pair_body. rewrite Hji, Hi, Hj, Hs1, Hs2. cbn.
  rewrite Hplus, Hdone, Hself. cbn. rewrite Hf1, Hf2. cbn.
  destruct r1 as [f1|], r2 as [f2|]; try done.
  by destruct Hnone.
Qed.

Lemma pair_body_fields_not_found_witness :
  pair_body abc_datasets ∅ (fun _ => two_buckets) "g" ["+A|c1"; "Z|c9"] 0
    {| join_done := ∅; joins := [] |} 1
  = Raise (TypeError_fields_not_found "+A|c1" true "Z|c9" false).
Proof.
  apply (pair_body_fields_not_found abc_datasets ∅ (fun _ => two_buckets)
           "g" ["+A|c1"; "Z|c9"] 0%nat 1%nat
           {| join_done := ∅; joins := [] |} "+A|c1" "Z|c9"
           "+A" "c1" "Z" "c9"
           (Some {| field_name := "c1"; field_description := "";
                    field_type := ""; field_mode := "" |}) None);
    try reflexivity.
  by right.
Defined.

(** ** Join statistics, in general *)

Lemma stats_row_ok group_by st row :
  cnt row <> 0%Z ->
  stats_row group_by st row
  = Ok {| total_rows := total_rows st + cnt row;
          joined_rows := joined_rows st + second_cnt row;
          stats := <[key_of group_by row := bucket_stat group_by row]>
                     (stats st) |}.
Proof.
  intros Hz. unfold stats_row, key_of, bucket_stat.
  rewrite (true_div_nonzero _ _ Hz). cbn.
  by destruct (no_group_by group_by).
Qed.

Lemma stats_rows_buckets group_by rows :
  forall st st',
    stats_rows group_by st rows = Ok st' ->
    forall k,
      stats st' !! k
      = match last (List.filter (fun r => bool_decide (key_of group_by r = k))
                      rows) with
        | Some r => Some (bucket_stat group_by r)
        | None => stats st !! k
        end.
Proof.
  induction rows as [|row rows IH]; intros st st'.
  - by intros [= <-].
  - cbn [stats_rows].
    destruct (stats_row_cases group_by st row) as [[Hz ->]|[Hz _]]; [done|].
    rewrite (stats_row_ok _ _ _ Hz). cbn [mbind outcome_bind].
    intros Hrest k. rewrite (IH _ _ Hrest k). cbn [List.filter stats].
    destruct (bool_decide (key_of group_by row = k)) eqn:E.
    + apply bool_decide_eq_true in E. rewrite last_cons.
      destruct (last _); [done|]. by rewrite E, lookup_insert_eq.
    + apply bool_decide_eq_false in E.
      destruct (last _); [done|]. by rewrite lookup_insert_ne.
Qed.

Lemma join_statistics_stats group_by result p n js :
  join_statistics group_by result = Ok (p, n, js) ->
  exists st,
    stats_rows group_by
      {| total_rows := 0; joined_rows := 0; stats := ∅ |} result = Ok st
    /\ js = stats st.
Proof.
  unfold join_statistics. intros H.
  destruct (stats_rows group_by _ result) as [st| |]; [|done..].
  cbn in H. destruct (true_div _ _) as [q| |]; [|done..].
  cbn in H. injection H as _ _ <-. by exists st.
Qed.

(** X9: the bucket statistics of a join hold, under each key, the
    numbers of the last row of the answer with this key, and nothing
    under a key no row has: the key is the grouping value of the row, or
    the empty string for every row when the from table has no (or an
    empty) grouping column, in which case the bucket is labelled all. *)
Theorem join_statistics_buckets
  (group_by : option string) (result : list Row) (p : Q) (n : Z)
  (js : gmap string JoinStat) :
  join_statistics group_by result = Ok (p, n, js) ->
  forall k,
    js !! k
    = bucket_stat group_by
      <$> last (List.filter (fun r => bool_decide (key_of group_by r = k))
                  result).
Proof.
  unfold join_statistics. intros H k.
  destruct (stats_rows group_by _ result) as [st| |] eqn:Hst; [|done..].
  cbn in H. destruct (true_div _ _) as [q| |]; [|done..].
  cbn in H. injection H as _ _ <-.
  rewrite (stats_rows_buckets _ _ _ _ Hst k). cbn [stats].
  destruct (last _); [done|]. by rewrite lookup_empty.
Qed.

Lemma join_statistics_buckets_witness :
  exists p n js,
    join_statistics None two_buckets = Ok (p, n, js)
    /\ js !! "" = Some {| stat_percent := (0 # 20)%Q; stat_num_rows := 0;
                          stat_key := "all"; stat_sample_value := "" |}
    /\ js !! "p" = None.
Proof.
  destruct (join_statistics_sums None two_buckets) as [js Hjs].
  - repeat constructor; discriminate.
  - discriminate.
  - eexists _, _, js. split; [exact Hjs|].
    rewrite !(join_statistics_buckets None two_buckets _ _ js Hjs).
    split; reflexivity.
Defined.

Lemma ratio_bounds (a b : Z) :
  (0 <= a <= b)%Z -> (0 < b)%Z ->
  (0 <= inject_Z a / inject_Z b)%Q /\ (inject_Z a / inject_Z b <= 1)%Q.
Proof.
  intros Ha Hb. destruct b as [|b|b]; try lia.
  unfold Qle, Qdiv, Qmult, Qinv, inject_Z. cbn. split; lia.
Qed.

Lemma sums_counted result :
  Forall counted result ->
  (0 <= sum_second_cnt result <= sum_cnt result)%Z
  /\ (result <> [] -> 0 < sum_cnt result)%Z.
Proof.
  induction 1 as [|row result [H1 H2] _ [IH1 IH2]].
  - cbn. split; [lia|done].
  - change (sum_cnt (row :: result)) with (cnt row + sum_cnt result)%Z.
    change (sum_second_cnt (row :: result))
      with (second_cnt row + sum_second_cnt result)%Z.
    split; [lia|]. intros _. lia.
Qed.

(** X10: when the answer has at least one row and every row counts some
    rows and no more matches than rows, the statistics are computed, the
    percent of the join and of every bucket lies between 0 and 1, and the
    row count of the join lies between 0 and the number of rows
    counted. *)
Theorem join_statistics_bounds (group_by : option string)
  (result : list Row) :
  Forall counted result -> result <> [] ->
  exists p n js,
    join_statistics group_by result = Ok (p, n, js)
    /\ (0 <= p)%Q /\ (p <= 1)%Q
    /\ (0 <= n <= sum_cnt result)%Z
    /\ forall k s, js !! k = Some s ->
         (0 <= stat_percent s)%Q /\ (stat_percent s <= 1)%Q
         /\ (0 <= stat_num_rows s)%Z.
Proof.
  intros Hall Hne. destruct (sums_counted _ Hall) as [Hs Hpos].
  specialize (Hpos Hne).
  destruct (join_statistics_sums group_by result) as [js Hjs].
  - eapply Forall_impl; [exact Hall|]. intros row [_ H]. lia.
  - lia.
  - eexists _, _, js. split; [exact Hjs|].
    destruct (ratio_bounds _ _ Hs Hpos) as [Hp0 Hp1].
    split; [exact Hp0|]. split; [exact Hp1|]. split; [exact Hs|].
    intros k s.
    destruct (join_statistics_stats _ _ _ _ _ Hjs) as (st & Hst & ->).
    rewrite (stats_rows_buckets _ _ _ _ Hst k). cbn [stats].
    destruct (last _) as [row|] eqn:Hlast; [|by rewrite lookup_empty].
    intros [= <-].
    assert (Hrow : counted row).
    { apply last_Some_elem_of in Hlast.
      apply list_elem_of_In, filter_In in Hlast as [Hin _].
      rewrite Forall_forall in Hall. apply Hall. by apply list_elem_of_In. }
    destruct Hrow as [H1 H2]. cbn.
    destruct (ratio_bounds _ _ H1 H2) as [Hq0 Hq1].
    split; [exact Hq0|]. split; [exact Hq1|lia].
Qed.

Lemma join_statistics_bounds_witness :
  exists p n js,
    join_statistics (Some "g") two_buckets = Ok (p, n, js)
    /\ (0 <= p)%Q /\ (p <= 1)%Q
    /\ (0 <= n <= sum_cnt two_buckets)%Z
    /\ forall k s, js !! k = Some s ->
         (0 <= stat_percent s)%Q /\ (stat_percent s <= 1)%Q
         /\ (0 <= stat_num_rows s)%Z.
Proof.
  apply (join_statistics_bounds (Some "g") two_buckets).
  - repeat constructor; cbn; lia.
  - discriminate.
Defined.

(** ** Config loader *)

Lemma od_lookup_set_eq {V : Type} k (v : V) d :
  od_lookup k (od_set k v d) = Some v.
Proof.
  induction d as [|[k' v'] d IH]; cbn.
  - by rewrite bool_decide_eq_true_2.
  - destruct (bool_decide (k' = k)) eqn:E; cbn; by rewrite E.
Qed.

Lemma od_lookup_set_ne {V : Type} k k' (v : V) d :
  k <> k' -> od_lookup k (od_set k' v d) = od_lookup k d.
Proof.
  intros Hne. induction d as [|[k0 v0] d IH]; cbn.
  - by rewrite bool_decide_eq_false_2.
  - destruct (bool_decide (k0 = k')) eqn:E; cbn.
    + apply bool_decide_eq_true in E as ->.
      by rewrite !bool_decide_eq_false_2.
    + by rewrite IH.
Qed.

Lemma od_lookup_None {V : Type} k (d : list (string * V)) :
  od_lookup k d = None <-> k ∉ map fst d.
Proof.
  induction d as [|[k' v'] d IH]; cbn.
  - split; [|done]. intros _ H. by apply elem_of_nil in H.
  - rewrite not_elem_of_cons. destruct (bool_decide (k' = k)) eqn:E.
    + apply bool_decide_eq_true in E as ->. split; [done|]. by intros [? _].
    + apply bool_decide_eq_false in E. rewrite IH. split.
      * intros H. split; [congruence|done].
      * by intros [_ H].
Qed.

Lemma od_set_keys {V : Type} k (v : V) d :
  map fst (od_set k v d)
  = match od_lookup k d with
    | Some _ => map fst d
    | None => map fst d ++ [k]
    end.
Proof.
  induction d as [|[k' v'] d IH]; cbn; [done|].
  destruct (bool_decide (k' = k)) eqn:E; cbn; [done|].
  rewrite IH. by destruct (od_lookup k d).
Qed.

Lemma od_set_NoDup {V : Type} k (v : V) d :
  NoDup (map fst d) -> NoDup (map fst (od_set k v d)).
Proof.
  intros Hnd. rewrite od_set_keys.
  destruct (od_lookup k d) eqn:E; [done|].
  apply od_lookup_None in E. apply NoDup_app. split; [done|].
  split; [|apply NoDup_singleton].
  intros x Hx Hx'. apply list_elem_of_singleton in Hx' as ->. done.
Qed.

Lemma values_of_cons {V : Type} k k' (v : V) items :
  values_of k ((k', v) :: items)
  = if bool_decide (k' = k) then v :: values_of k items else values_of k items.
Proof. unfold values_of. cbn. by destruct (bool_decide (k' = k)). Qed.

Lemma values_of_app {V : Type} k (a b : list (string * V)) :
  values_of k (a ++ b) = values_of k a ++ values_of k b.
Proof. unfold values_of. by rewrite List.filter_app, map_app. Qed.

Lemma merge_item_lookup k kv config :
  od_lookup k (merge_item config kv)
  = if bool_decide (kv.1 = k)
    then Some (default [] (od_lookup k config) ++ kv.2)
    else od_lookup k config.
Proof.
  unfold merge_item. destruct kv as [k' v]. cbn [fst snd].
  destruct (bool_decide (k' = k)) eqn:E.
  - apply bool_decide_eq_true in E as ->.
    destruct (od_lookup k config); by rewrite od_lookup_set_eq.
  - apply bool_decide_eq_false in E.
    destruct (od_lookup k' config); by rewrite od_lookup_set_ne.
Qed.

Lemma merge_items_cons config kv items :
  merge_items config (kv :: items) = merge_items (merge_item config kv) items.
Proof. done. Qed.

Lemma update_groups_cons config (kv : string * string) items :
  update_groups config (kv :: items)
  = update_groups (<[kv.1 := kv.2]> config) items.
Proof. done. Qed.

Lemma merge_items_lookup k items :
  forall config,
    od_lookup k (merge_items config items)
    = match od_lookup k config, values_of k items with
      | Some old, vs => Some (old ++ concat vs)
      | None, [] => None
      | None, vs => Some (concat vs)
      end.
Proof.
  induction items as [|[k' v] items IH]; intros config.
  - cbn. destruct (od_lookup k config); [|done]. by rewrite app_nil_r.
  - rewrite merge_items_cons, IH, merge_item_lookup, values_of_cons.
    cbn [fst snd].
    destruct (bool_decide (k' = k)).
    + destruct (od_lookup k config); cbn; [by rewrite <- app_assoc|done].
    + done.
Qed.

Lemma merge_items_NoDup items :
  forall config,
    NoDup (map fst config) -> NoDup (map fst (merge_items config items)).
Proof.
  induction items as [|kv items IH]; intros config Hnd; [done|].
  rewrite merge_items_cons. apply IH. unfold merge_item.
  destruct (od_lookup kv.1 config); by apply od_set_NoDup.
Qed.

Lemma merge_items_app config a b :
  merge_items config (a ++ b) = merge_items (merge_items config a) b.
Proof. apply fold_left_app. Qed.

Lemma update_groups_lookup k items :
  forall config,
    update_groups config items !! k
    = match last (values_of k items) with
      | Some v => Some v
      | None => config !! k
      end.
Proof.
  induction items as [|[k' v] items IH]; intros config; [done|].
  rewrite update_groups_cons, IH, values_of_cons. cbn [fst snd].
  destruct (bool_decide (k' = k)) eqn:E.
  - apply bool_decide_eq_true in E as ->. rewrite last_cons.
    destruct (last (values_of k items)); [done|]. by rewrite lookup_insert_eq.
  - apply bool_decide_eq_false in E.
    destruct (last (values_of k items)); [done|]. by rewrite lookup_insert_ne.
Qed.

Lemma update_groups_app config a b :
  update_groups config (a ++ b) = update_groups (update_groups config a) b.
Proof. apply fold_left_app. Qed.

Lemma read_configs_fold files :
  forall c,
    fold_left read_config files c
    = {| table_config :=
           merge_items (table_config c) (concat (map cf_tables files));
         group_config :=
           update_groups (group_config c) (concat (map cf_groups files));
         joins_config :=
           merge_items (joins_config c) (concat (map cf_joins files)) |}.
Proof.
  induction files as [|f files IH]; intros c.
  - by destruct c.
  - cbn [fold_left map concat]. rewrite IH. unfold read_config. cbn.
    by rewrite !merge_items_app, update_groups_app.
Qed.

(** X11: after the configuration files are read, the tables (and the
    joins) configured under a key are the lists the files give for this
    key, concatenated in the order of the files, and a key no file has is
    absent; the grouping column of a table is the one given last; and no
    key occurs twice. *)
Theorem read_configs_merged (files : list config_file) :
  (forall k,
     od_lookup k (table_config (read_configs files))
     = match values_of k (concat (map cf_tables files)) with
       | [] => None
       | vs => Some (concat vs)
       end)
  /\ (forall k,
        od_lookup k (joins_config (read_configs files))
        = match values_of k (concat (map cf_joins files)) with
          | [] => None
          | vs => Some (concat vs)
          end)
  /\ (forall k,
        group_config (read_configs files) !! k
        = last (values_of k (concat (map cf_groups files))))
  /\ NoDup (map fst (table_config (read_configs files)))
  /\ NoDup (map fst (joins_config (read_configs files))).
Proof.
  unfold read_configs. rewrite read_configs_fold. cbn.
  split; [|split; [|split; [|split]]].
  - intros k. by rewrite merge_items_lookup.
  - intros k. by rewrite merge_items_lookup.
  - intros k. rewrite update_groups_lookup.
    destruct (last _); [done|]. by rewrite lookup_empty.
  - apply merge_items_NoDup. constructor.
  - apply merge_items_NoDup. constructor.
Qed.

(** ** Table discovery *)

Lemma unpack2_Ok parts a b :
  unpack2 parts = Ok (a, b) -> parts = [a; b].
Proof.
  destruct parts as [|x [|y [|z parts]]]; try done. by intros [= -> ->].
Qed.

Lemma append_table_last nice t ds0 d :
  nice ∉ map dataset_name ds0 -> dataset_name d = nice ->
  append_table nice t (ds0 ++ [d])
  = ds0 ++ [ {| dataset_name := dataset_name d; tables := tables d ++ [t] |} ].
Proof.
  intros Hnot Hd. induction ds0 as [|d0 ds0 IH]; cbn.
  - by rewrite bool_decide_eq_true_2.
  - cbn in Hnot. apply not_elem_of_cons in Hnot as [Hne Hnot].
    rewrite bool_decide_eq_false_2 by done. by rewrite IH.
Qed.

Lemma discover_ids_last nice dataset pattern ids :
  forall ds0 ts r,
    nice ∉ map dataset_name ds0 ->
    discover_ids nice dataset pattern ids
      (ds0 ++ [ {| dataset_name := nice; tables := ts |} ]) = Ok r ->
    r = ds0 ++ [ {| dataset_name := nice;
                    tables := ts ++ map new_table
                      (map (fun name => dataset +:+ "." +:+ name)
                         (List.filter (id_matches pattern) ids)) |} ].
Proof.
  induction ids as [|name ids IH]; intros ds0 ts r Hnot.
  - cbn. intros [= <-]. by rewrite app_nil_r.
  - cbn [discover_ids List.filter]. unfold id_matches at 1.
    destruct (re_matches (replace_star pattern) name) as [b| |]; [|done..].
    cbn [mbind outcome_bind]. destruct b.
    + rewrite append_table_last by done. cbn [dataset_name tables].
      intros H. apply IH in H; [|done]. rewrite H. cbn [map].
      by rewrite <- app_assoc.
    + by apply IH.
Qed.

Lemma discover_fmt_shape ls nice ds0 fmt r :
  nice ∉ map dataset_name ds0 ->
  (forall ts,
     discover_fmt ls nice (ds0 ++ [ {| dataset_name := nice; tables := ts |} ])
       fmt = Ok r ->
     r = ds0 ++ [ {| dataset_name := nice;
                     tables := ts ++ map new_table (fmt_names ls fmt) |} ])
  /\ (discover_fmt ls nice ds0 fmt = Ok r ->
      r = ds0 ++ [ {| dataset_name := nice;
                      tables := map new_table (fmt_names ls fmt) |} ]).
Proof.
  intros Hnot. unfold discover_fmt, fmt_names.
  destruct (unpack2 (split dot_char fmt)) as [[dn pat]| |] eqn:Hs;
    [|by split..].
  apply unpack2_Ok in Hs. rewrite Hs. cbn [mbind outcome_bind]. split.
  - intros ts. rewrite bool_decide_eq_true_2.
    + by apply discover_ids_last.
    + rewrite map_app. apply elem_of_app. right. by left.
  - rewrite bool_decide_eq_false_2 by done.
    intros H. by apply (discover_ids_last _ _ _ _ ds0 []) in H.
Qed.

Lemma discover_fmts_last ls nice ds0 fmts :
  forall ts r,
    nice ∉ map dataset_name ds0 ->
    foldM (discover_fmt ls nice) fmts
      (ds0 ++ [ {| dataset_name := nice; tables := ts |} ]) = Ok r ->
    r = ds0 ++ [ {| dataset_name := nice;
                    tables := ts ++ map new_table (entry_names ls fmts) |} ].
Proof.
  induction fmts as [|fmt fmts IH]; intros ts r Hnot.
  - cbn. intros [= <-]. by rewrite app_nil_r.
  - rewrite foldM_cons.
    destruct (discover_fmt ls nice _ fmt) as [r1| |] eqn:E; [|done..].
    apply (proj1 (discover_fmt_shape ls nice ds0 fmt r1 Hnot)) in E.
    subst r1. cbn [mbind outcome_bind]. intros H. apply IH in H; [|done].
    rewrite H. unfold entry_names. cbn [map concat].
    by rewrite map_app, app_assoc.
Qed.

Lemma discover_entry_shape ls ds0 nice fmts r :
  nice ∉ map dataset_name ds0 ->
  discover_entry ls ds0 (nice, fmts) = Ok r ->
  r = ds0 ++ discovered
              (map (fun kv => (kv.1, entry_names ls kv.2))
                 (List.filter has_formats [(nice, fmts)])).
Proof.
  intros Hnot. unfold discover_entry. cbn [fst snd].
  destruct fmts as [|fmt fmts].
  - cbn. intros [= <-]. by rewrite app_nil_r.
  - rewrite foldM_cons.
    destruct (discover_fmt ls nice ds0 fmt) as [r1| |] eqn:E; [|done..].
    apply (proj2 (discover_fmt_shape ls nice ds0 fmt r1 Hnot)) in E.
    subst r1. cbn [mbind outcome_bind]. intros H.
    apply discover_fmts_last in H; [|done]. rewrite H.
    unfold discovered, entry_names. cbn. by rewrite map_app.
Qed.

Lemma discovered_app a b : discovered (a ++ b) = discovered a ++ discovered b.
Proof. unfold discovered. apply map_app. Qed.

Lemma discovered_names names : map dataset_name (discovered names) = map fst names.
Proof. unfold discovered. rewrite map_map. by apply map_ext. Qed.

Lemma discover_from ls config :
  forall acc r,
    NoDup (map fst config) ->
    (forall k, k ∈ map fst config -> k ∉ map dataset_name acc) ->
    foldM (discover_entry ls) config acc = Ok r ->
    r = acc ++ discovered
                 (map (fun kv => (kv.1, entry_names ls kv.2))
                    (List.filter has_formats config)).
Proof.
  induction config as [|[nice fmts] config IH]; intros acc r Hnd Hfresh.
  - cbn. intros [= <-]. by rewrite app_nil_r.
  - rewrite foldM_cons. cbn [map fst] in Hnd, Hfresh.
    apply NoDup_cons in Hnd as [Hnice Hnd].
    destruct (discover_entry ls acc (nice, fmts)) as [r1| |] eqn:E; [|done..].
    apply discover_entry_shape in E; [|apply Hfresh; by left].
    cbn [mbind outcome_bind]. intros H. apply IH in H; [|done|].
    + rewrite H, E, <- app_assoc, <- discovered_app, <- map_app.
      by rewrite <- List.filter_app.
    + intros k Hk. rewrite E, map_app. intros Hin.
      apply elem_of_app in Hin as [Hin|Hin].
      * by apply (Hfresh k); [right|].
      * rewrite discovered_names, map_map in Hin. cbn [List.filter] in Hin.
        destruct (has_formats (nice, fmts)); cbn in Hin.
        -- apply list_elem_of_singleton in Hin as ->. done.
        -- by apply elem_of_nil in Hin.
Qed.

(** X12: when discovery succeeds on a table configuration (a dictionary,
    so without a repeated key), the datasets are, in the order of the
    configuration, one dataset for every entry that has at least one
    table format; its tables are new tables named dataset.id, for the
    formats of the entry in order and the ids the warehouse lists for the
    dataset of the format that match the pattern of the format, in the
    order of the listing. An entry without table formats gives no
    dataset. *)
Theorem discover_result (ls : string -> list string)
  (config : list (string * list string)) (ds : list Dataset) :
  NoDup (map fst config) ->
  discover ls config = Ok ds ->
  ds = discovered
         (map (fun kv => (kv.1, entry_names ls kv.2))
            (List.filter has_formats config)).
Proof.
  intros Hnd H. apply (discover_from ls config [] ds Hnd) in H; [done|].
  intros k _ Hk. by apply elem_of_nil in Hk.
Qed.

Lemma discover_result_witness :
  discovered [("Patents", ["p:patents.pub_1"; "p:patents.pub_2"])]
  = discovered
      (map (fun kv => (kv.1, entry_names
                               (fun _ => ["pub_1"; "pub_2"; "other"]) kv.2))
         (List.filter has_formats
            [("Patents", ["p:patents.pub*"]); ("Empty", [])])).
Proof.
  apply (discover_result (fun _ => ["pub_1"; "pub_2"; "other"])
           [("Patents", ["p:patents.pub*"]); ("Empty", [])]).
  - apply NoDup_cons. split.
    + intros H. apply list_elem_of_singleton in H. discriminate.
    + apply NoDup_singleton.
  - vm_compute. reflexivity.
Defined.

Lemma foldM_Ok_each {A B : Type} (f : B -> A -> outcome B) l :
  forall b b', foldM f l b = Ok b' ->
    forall a, a ∈ l -> exists b1 b2, f b1 a = Ok b2.
Proof.
  induction l as [|a0 l IH]; intros b b' H a Ha.
  - by apply elem_of_nil in Ha.
  - rewrite foldM_cons in H. destruct (f b a0) as [b1| |] eqn:E; [|done..].
    apply elem_of_cons in Ha as [->|Ha]; [by eauto|].
    by apply (IH b1 b' H).
Qed.

(** X13: discovery succeeds only if every configured table format has
    exactly one dot; and when the first table format has none or more
    than one, the run raises ValueError before the warehouse is asked
    anything. *)
Theorem discover_table_formats (ls : string -> list string) :
  (forall config ds,
     discover ls config = Ok ds ->
     forall nice fmts fmt, (nice, fmts) ∈ config -> fmt ∈ fmts -> dotted fmt)
  /\ (forall nice fmt fmts config,
        ~ dotted fmt ->
        discover ls ((nice, fmt :: fmts) :: config) = Raise ValueError).
Proof.
  split.
  - intros config ds H nice fmts fmt Hin Hfmt.
    destruct (foldM_Ok_each _ _ _ _ H _ Hin) as (b1 & b2 & He).
    unfold discover_entry in He. cbn [fst snd] in He.
    destruct (foldM_Ok_each _ _ _ _ He _ Hfmt) as (b3 & b4 & Hf).
    unfold discover_fmt in Hf.
    destruct (unpack2 (split dot_char fmt)) as [[dn pat]| |] eqn:Hs;
      [|done..].
    exists dn, pat. by apply unpack2_Ok.
  - intros nice fmt fmts config Hnot.
    assert (Hf : discover_fmt ls nice [] fmt = Raise ValueError).
    { unfold discover_fmt.
      destruct (split dot_char fmt) as [|a [|b [|c parts]]] eqn:Hs; try done.
      exfalso. apply Hnot. by exists a, b. }
    unfold discover. rewrite foldM_cons.
    change (discover_entry ls [] (nice, fmt :: fmts))
      with (discover_fmt ls nice [] fmt ≫= foldM (discover_fmt ls nice) fmts).
    by rewrite Hf.
Qed.

Lemma discover_table_formats_witness :
  discover (fun _ => ["t"]) [("Patents", ["project.dataset.table"])]
  = Raise ValueError.
Proof.
  apply (proj2 (discover_table_formats (fun _ => ["t"]))).
  intros (dn & pat & H). vm_compute in H. discriminate.
Defined.

(** ** The date of a dataset *)

Lemma ltb_empty_r s : (s <? "")%string = false.
Proof. by destruct s. Qed.

Lemma ltb_empty_l s : ("" <? s)%string = false -> s = "".
Proof. by destruct s. Qed.

Lemma update_last_updated_greatest dates cur d :
  greatest_of dates cur ->
  greatest_of (dates ++ [d]) (update_last_updated cur d).
Proof.
  unfold greatest_of, update_last_updated. destruct cur as [m|].
  - intros [Hm Hmax].
    destruct (bool_decide (m = "") || (m <? d)%string) eqn:Hc.
    + split; [apply elem_of_app; right; by left|].
      intros d' Hd'. apply elem_of_app in Hd' as [Hd'|Hd'].
      * apply orb_true_iff in Hc as [Hc|Hc].
        -- apply bool_decide_eq_true in Hc as ->.
           rewrite (ltb_empty_l _ (Hmax d' Hd')). apply ltb_empty_r.
        -- destruct (d <? d')%string eqn:E; [|done].
           pose proof (Hmax d' Hd') as Hx.
           by rewrite (ltb_trans _ _ _ Hc E) in Hx.
      * apply list_elem_of_singleton in Hd' as ->. apply ltb_irrefl.
    + apply orb_false_iff in Hc as [_ Hc].
      split; [apply elem_of_app; by left|].
      intros d' Hd'. apply elem_of_app in Hd' as [Hd'|Hd']; [by apply Hmax|].
      by apply list_elem_of_singleton in Hd' as ->.
  - intros ->. split; [by left|].
    intros d' Hd'. apply list_elem_of_singleton in Hd' as ->. apply ltb_irrefl.
Qed.

Lemma dataset_last_updated_fold last_modified ts :
  forall seen cur,
    greatest_of seen cur ->
    greatest_of
      (seen ++ map (fun t => last_modified (table_name t))
                 (List.filter (fun t => negb (old_version t)) ts))
      (fold_left
         (fun cur t =>
            if old_version t then cur
            else update_last_updated cur (last_modified (table_name t)))
         ts cur).
Proof.
  induction ts as [|t ts IH]; intros seen cur H.
  - cbn. by rewrite app_nil_r.
  - cbn [fold_left List.filter]. destruct (old_version t); cbn [negb].
    + by apply IH.
    + cbn [map].
      replace (seen ++ last_modified (table_name t) :: map _ _)
        with ((seen ++ [last_modified (table_name t)])
              ++ map (fun t => last_modified (table_name t))
                   (List.filter (fun t => negb (old_version t)) ts))
        by (by rewrite <- app_assoc).
      apply IH. by apply update_last_updated_greatest.
Qed.

(** X14: the date of a dataset after loading is the greatest, in the
    order of strings, of the dates of its tables that are not old
    versions: it is one of these dates and none of them is greater; and
    the dataset has no date exactly when all its tables are old versions
    (or it has none). *)
Theorem dataset_last_updated_greatest
  (last_modified : string -> string) (d : Dataset) :
  match dataset_last_updated last_modified d with
  | None => loaded_dates last_modified d = []
  | Some m =>
      m ∈ loaded_dates last_modified d
      /\ forall date, date ∈ loaded_dates last_modified d ->
                      (m <? date)%string = false
  end.
Proof.
  apply (dataset_last_updated_fold last_modified (tables d) [] None).
  reflexivity.
Qed.

(** ** Greedy matching of the version pattern *)

Lemma run_atom_nil whole a c k :
  is_atom a = true -> run whole a [] c k = None.
Proof. by destruct a. Qed.

Lemma run_atom_cons whole a x s c k :
  is_atom a = true ->
  run whole a (x :: s) c k = if atom_ok a x then k s c else None.
Proof.
  destruct a; try done. intros _. cbn.
  by destruct (Ascii.eqb x newline_char).
Qed.

Lemma star_atom_None whole a s c K fuel :
  is_atom a = true -> (List.length s < fuel)%nat ->
  star (run whole a) fuel s c K = None ->
  forall w s', s = w ++ s' -> Forall (fun x => atom_ok a x = true) w ->
    K s' c = None.
Proof.
  intros Ha Hfuel Hnone w s' -> Hw.
  destruct (K s' c) as [r|] eqn:HK; [|done]. exfalso.
  assert (Hs : is_Some (star (run whole a) fuel (w ++ s') c K)).
  { eapply (star_complete whole a _ (run_complete whole a));
      [by apply sem_star_atom_intro|done|by rewrite HK]. }
  rewrite Hnone in Hs. by destruct Hs.
Qed.

(** Repetition of a one-character pattern takes the longest run of
    characters after which the continuation succeeds. *)
Lemma star_atom_greedy whole a :
  is_atom a = true ->
  forall s fuel c K r,
    (List.length s < fuel)%nat ->
    star (run whole a) fuel s c K = Some r ->
    exists w s',
      s = w ++ s' /\ Forall (fun x => atom_ok a x = true) w
      /\ K s' c = Some r
      /\ forall w' s'',
           s = w' ++ s'' -> Forall (fun x => atom_ok a x = true) w' ->
           (List.length w < List.length w')%nat -> K s'' c = None.
Proof.
  intros Ha s. induction s as [|x s IH]; intros fuel c K r Hfuel;
    (destruct fuel as [|fuel]; [cbn in Hfuel; lia|]); cbn [star].
  - rewrite run_atom_nil by done. intros HK. exists [], [].
    split; [done|]. split; [constructor|]. split; [done|].
    intros w' s'' Heq _ Hlen. symmetry in Heq.
    apply app_eq_nil in Heq as [-> _]. cbn in Hlen. lia.
  - rewrite run_atom_cons by done.
    destruct (atom_ok a x) eqn:Hx.
    + replace (List.length s <? List.length (x :: s))%nat with true
        by (symmetry; apply Nat.ltb_lt; cbn; lia).
      cbn in Hfuel.
      destruct (star (run whole a) fuel s c K) as [r0|] eqn:Hstar.
      * intros [= ->]. apply IH in Hstar as (w & s' & -> & Hw & HK & Hmax);
          [|lia].
        exists (x :: w), s'. split; [done|]. split; [by constructor|].
        split; [done|]. intros w' s'' Heq Hw' Hlen.
        destruct w' as [|x' w']; [cbn in Hlen; lia|].
        injection Heq as <- Heq. apply Forall_cons in Hw' as [_ Hw'].
        apply (Hmax w' s'' Heq Hw'). cbn in Hlen. lia.
      * intros HK. exists [], (x :: s). split; [done|].
        split; [constructor|]. split; [done|].
        intros w' s'' Heq Hw' Hlen.
        destruct w' as [|x' w']; [cbn in Hlen; lia|].
        injection Heq as <- Heq. apply Forall_cons in Hw' as [_ Hw'].
        eapply (star_atom_None whole a s c K fuel Ha); [lia|done..].
    + intros HK. exists [], (x :: s). split; [done|].
      split; [constructor|]. split; [done|].
      intros w' s'' Heq Hw' Hlen.
      destruct w' as [|x' w']; [cbn in Hlen; lia|].
      injection Heq as <- Heq. apply Forall_cons in Hw' as [Hx' _].
      congruence.
Qed.

Lemma run_plus whole a s c k :
  run whole (RPlus a) s c k
  = run whole a s c
      (fun s' c' => star (run whole a) (S (List.length s')) s' c' k).
Proof. done. Qed.

Lemma plus_atom_greedy whole a :
  is_atom a = true ->
  forall s c K r,
    run whole (RPlus a) s c K = Some r ->
    exists x w s',
      s = x :: w ++ s' /\ Forall (fun x => atom_ok a x = true) (x :: w)
      /\ K s' c = Some r
      /\ forall w' s'',
           s = w' ++ s'' -> Forall (fun x => atom_ok a x = true) w' ->
           (List.length (x :: w) < List.length w')%nat -> K s'' c = None.
Proof.
  intros Ha s c K r. rewrite run_plus. destruct s as [|x s].
  - by rewrite run_atom_nil.
  - rewrite run_atom_cons by done. destruct (atom_ok a x) eqn:Hx; [|done].
    intros H. apply (star_atom_greedy whole a Ha) in H
      as (w & s' & -> & Hw & HK & Hmax); [|lia].
    exists x, w, s'. split; [done|]. split; [by constructor|].
    split; [done|]. intros w' s'' Heq Hw' Hlen.
    destruct w' as [|x' w']; [cbn in Hlen; lia|].
    injection Heq as <- Heq. apply Forall_cons in Hw' as [_ Hw'].
    apply (Hmax w' s'' Heq Hw'). cbn in Hlen. lia.
Qed.

Lemma run_group whole n a s c k :
  run whole (RGroup n a) s c k
  = run whole a s c
      (fun s' c' =>
         k s' (set_group n (take (List.length s - List.length s') s) c')).
Proof. done. Qed.

Lemma match_version_unfold name :
  match_re version_re name
  = run (List.length (chars name)) (RPlus RAny) (chars name) []
      (fun s' c' =>
         run (List.length (chars name)) version_tail s'
           (set_group 1
              (take (List.length (chars name) - List.length s') (chars name))
              c')
           accept).
Proof.
  unfold match_re, version_re, version_tail, accept. cbn [run].
  by rewrite Nat.eqb_refl.
Qed.

(** What the rest of the pattern finds after the base: an underscore, a
    digit, and the whole run of digits and letters that follows. *)
Lemma version_tail_Some whole s c r :
  run whole version_tail s c accept = Some r ->
  exists d v rest,
    s = "_"%char :: (d :: v) ++ rest
    /\ is_digit d = true
    /\ Forall (fun x => is_alnum x = true) v
    /\ r = set_group 2 (d :: v) c
    /\ match rest with
       | y :: _ => is_alnum y = false
       | [] => True
       end.
Proof.
  unfold version_tail. rewrite run_seq. destruct s as [|x s].
  { by rewrite run_atom_nil. }
  rewrite run_atom_cons by done. cbn [atom_ok].
  destruct (Ascii.eqb x "_"%char) eqn:Hx; [|done].
  apply Ascii.eqb_eq in Hx as ->.
  rewrite run_seq, run_group, run_seq. intros H.
  apply plus_atom_greedy in H as (d & w1 & sa & -> & Hw1 & H & _); [|done].
  rewrite run_seq, run_star in H.
  apply star_atom_greedy in H as (w2 & sb & -> & Hw2 & H & Hmax);
    [|done|lia].
  cbn [run] in H. unfold accept in H. injection H as <-.
  apply Forall_cons in Hw1 as [Hd Hw1].
  exists d, (w1 ++ w2), sb. split; [cbn; by rewrite <- app_assoc|].
  split; [exact Hd|]. split.
  { apply Forall_app. split; [|exact Hw2].
    eapply Forall_impl; [exact Hw1|]. intros y. apply is_digit_alnum. }
  split.
  { f_equal.
    change (S (List.length (w1 ++ w2 ++ sb)))
      with (List.length (d :: w1 ++ w2 ++ sb)).
    replace (d :: w1 ++ w2 ++ sb) with ((d :: w1 ++ w2) ++ sb)
      by (cbn; by rewrite <- app_assoc).
    by rewrite take_prefix_by_length. }
  destruct sb as [|y sb]; [done|].
  destruct (is_alnum y) eqn:Hy; [|done]. exfalso.
  assert (Hn := Hmax (w2 ++ [y]) sb).
  cbn [run] in Hn. unfold accept in Hn.
  assert (Hnone : None = Some (set_group 2 (take
            (List.length (d :: w1 ++ w2 ++ y :: sb) - List.length sb)
            (d :: w1 ++ w2 ++ y :: sb)) c)); [|done].
  symmetry. apply Hn.
  - by rewrite <- app_assoc.
  - apply Forall_app. split; [done|]. by constructor.
  - rewrite length_app. cbn. lia.
Qed.

Lemma version_tail_is_Some whole d rest c :
  is_digit d = true ->
  is_Some (run whole version_tail ("_"%char :: d :: rest) c accept).
Proof.
  intros Hd. eapply (run_complete whole version_tail); [|by eexists].
  unfold version_tail.
  eapply sem_seq; [apply sem_char|].
  eapply sem_seq; [|apply sem_eps].
  apply sem_group. eapply sem_seq.
  - apply (sem_plus_atom_intro _ (RSet _) d [] rest); [done|].
    by repeat constructor.
  - eapply sem_seq; [apply sem_star_stop|apply sem_eps].
Qed.

(** The base is the longest beginning of the name, within its first
    line, that an underscore and a digit follow; the version is the
    whole run of digits and letters from this digit on. *)
Lemma version_match_longest name m :
  match_re version_re name = Some m ->
  exists base version rest,
    chars name = base ++ "_"%char :: version ++ rest
    /\ group_str 1 m = str base /\ group_str 2 m = str version
    /\ (forall b' d' r',
          chars name = b' ++ "_"%char :: d' :: r' ->
          Forall (fun x => Ascii.eqb x newline_char = false) b' ->
          is_digit d' = true ->
          (List.length b' <= List.length base)%nat)
    /\ match rest with
       | y :: _ => is_alnum y = false
       | [] => True
       end.
Proof.
  rewrite match_version_unfold. intros H.
  apply plus_atom_greedy in H as (x & w & s' & Hs & Hw & H & Hmax); [|done].
  apply version_tail_Some in H as (d & v & rest & -> & Hd & Hv & -> & Hrest).
  exists (x :: w), (d :: v), rest.
  split; [exact Hs|].
  replace (take (List.length (chars name)
                 - List.length ("_"%char :: (d :: v) ++ rest)) (chars name))
    with (x :: w).
  2:{ rewrite Hs.
      change (x :: w ++ "_"%char :: (d :: v) ++ rest)
        with ((x :: w) ++ "_"%char :: (d :: v) ++ rest).
      by rewrite take_prefix_by_length. }
  split; [done|]. split; [done|]. split; [|exact Hrest].
  intros b' d' r' Hb' Hnl Hd'.
  destruct (decide (List.length b' <= List.length (x :: w))%nat) as [|Hgt];
    [done|]. exfalso.
  assert (Hnone := Hmax b' ("_"%char :: d' :: r') Hb').
  destruct (version_tail_is_Some (List.length (chars name)) d' r'
              (set_group 1
                 (take (List.length (chars name)
                        - List.length ("_"%char :: d' :: r')) (chars name))
                 []) Hd') as [r Hr].
  rewrite Hnone in Hr; [done| |lia].
  eapply Forall_impl; [exact Hnl|]. intros y Hy. cbn. by rewrite Hy.
Qed.

Lemma detect_table_name_version st n :
  (table_name (detect_table st (new_table n)).2,
   version (detect_table st (new_table n)).2)
  = (n, group_str 2 <$> match_re version_re n).
Proof.
  unfold detect_table. cbn [table_name new_table].
  destruct (match_re version_re n) as [m|]; [|done].
  destruct (latest_table_base st !! group_str 1 m); [|done].
  by destruct (_ && _).
Qed.

Lemma detect_tables_names_versions ns :
  forall st,
    map (fun t => (table_name t, version t))
      (detect_tables st (map new_table ns)).2
    = map (fun n => (n, group_str 2 <$> match_re version_re n)) ns.
Proof.
  induction ns as [|n ns IH]; intros st; [done|].
  cbn [map]. rewrite detect_tables_cons. cbn [snd map].
  by rewrite detect_table_name_version, IH.
Qed.

Lemma detect_datasets_names_versions names :
  forall st,
    map (fun t => (table_name t, version t))
      (all_tables (detect_datasets st (discovered names)).2)
    = map (fun n => (n, group_str 2 <$> match_re version_re n))
        (concat (map snd names)).
Proof.
  induction names as [|[nice ns] names IH]; intros st; [done|].
  change (discovered ((nice, ns) :: names))
    with ({| dataset_name := nice; tables := map new_table ns |}
          :: discovered names).
  rewrite detect_datasets_cons. cbn [snd tables map concat].
  rewrite all_tables_cons, !map_app. cbn [tables].
  by rewrite detect_tables_names_versions, IH.
Qed.

(** X15: after version resolution, the [version] of a discovered table
    is set exactly when its name matches the version pattern, to the
    second group of the match. The match is greedy: the base is the
    longest beginning of the name (within its first line) that is
    followed by an underscore and a digit, and the version is the whole
    run of digits and letters from this digit on, so a_1_2 has the base
    a_1 and the version 2. *)
Theorem version_attribute_greedy :
  (forall names,
     names_versions (resolve_versions (discovered names))
     = map (fun n => (n, group_str 2 <$> match_re version_re n))
         (concat (map snd names)))
  /\ (forall name m,
        match_re version_re name = Some m ->
        exists base version rest,
          chars name = base ++ "_"%char :: version ++ rest
          /\ group_str 1 m = str base /\ group_str 2 m = str version
          /\ (forall b' d' r',
                chars name = b' ++ "_"%char :: d' :: r' ->
                Forall (fun x => Ascii.eqb x newline_char = false) b' ->
                is_digit d' = true ->
                (List.length b' <= List.length base)%nat)
          /\ match rest with
             | y :: _ => is_alnum y = false
             | [] => True
             end).
Proof.
  split; [|apply version_match_longest].
  intros names. unfold names_versions, resolve_versions.
  pose proof (detect_datasets_names_versions names vstate_init) as H.
  destruct (detect_datasets vstate_init (discovered names)) as [st ds'].
  cbn [snd] in H. rewrite all_tables_mark, map_map, <- H.
  apply map_ext. intros t. unfold mark_table. by destruct (bool_decide _).
Qed.

Lemma version_attribute_greedy_witness :
  exists base version rest,
    chars "a_1_2x.y" = base ++ "_"%char :: version ++ rest
    /\ "a_1" = str base /\ "2x" = str version
    /\ (forall b' d' r',
          chars "a_1_2x.y" = b' ++ "_"%char :: d' :: r' ->
          Forall (fun x => Ascii.eqb x newline_char = false) b' ->
          is_digit d' = true ->
          (List.length b' <= List.length base)%nat)
    /\ match rest with
       | y :: _ => is_alnum y = false
       | [] => True
       end.
Proof.
  apply (proj2 version_attribute_greedy "a_1_2x.y"
           [(2, chars "2x"); (1, chars "a_1")]).
  reflexivity.
Defined.

(** ** The record classes *)

Lemma init_Ok {V : Type} fields (kwargs : list (string * V)) :
  forall self,
    Forall (fun kv => kv.1 ∈ fields) kwargs ->
    init fields kwargs self
    = inr (fold_left (fun o kv => <[kv.1 := kv.2]> o) kwargs self).
Proof.
  induction kwargs as [|[k v] kwargs IH]; intros self Hall; [done|].
  apply Forall_cons in Hall as [Hk Hall]. cbn [init fold_left fst snd] in *.
  rewrite bool_decide_eq_true_2 by done. by apply IH.
Qed.

Lemma init_error {V : Type} fields (kwargs : list (string * V)) :
  forall self k,
    init fields kwargs self = inl (AttributeError k) ->
    k ∈ map fst kwargs /\ k ∉ fields.
Proof.
  induction kwargs as [|[k0 v] kwargs IH]; intros self k; [done|].
  cbn [init map fst]. destruct (bool_decide (k0 ∈ fields)) eqn:E.
  - intros H. apply IH in H as [Hin Hnot]. split; [by right|done].
  - apply bool_decide_eq_false in E. intros [= <-]. split; [by left|done].
Qed.

Lemma init_inr {V : Type} fields (kwargs : list (string * V)) :
  forall self obj,
    init fields kwargs self = inr obj ->
    Forall (fun kv => kv.1 ∈ fields) kwargs.
Proof.
  induction kwargs as [|[k0 v] kwargs IH]; intros self obj; [constructor|].
  cbn [init]. destruct (bool_decide (k0 ∈ fields)) eqn:E; [|done].
  apply bool_decide_eq_true in E. intros H. constructor; [done|].
  by eapply IH.
Qed.

Lemma fold_insert_lookup {V : Type} (kwargs : list (string * V)) k :
  forall self : gmap string V,
    fold_left (fun o kv => <[kv.1 := kv.2]> o) kwargs self !! k
    = match last (values_of k kwargs) with
      | Some v => Some v
      | None => self !! k
      end.
Proof.
  induction kwargs as [|[k0 v] kwargs IH]; intros self; [done|].
  cbn [fold_left fst snd]. rewrite IH, values_of_cons.
  destruct (bool_decide (k0 = k)) eqn:E.
  - apply bool_decide_eq_true in E as ->. rewrite last_cons.
    destruct (last (values_of k kwargs)); [done|]. by rewrite lookup_insert_eq.
  - apply bool_decide_eq_false in E.
    destruct (last (values_of k kwargs)); [done|]. by rewrite lookup_insert_ne.
Qed.

Lemma method_names_reserved k : k ∈ method_names -> reserved_name k = true.
Proof.
  intros H. apply list_elem_of_In in H. cbn in H.
  destruct H as [<-|[<-|[]]]; reflexivity.
Qed.

Lemma values_of_no_field {V : Type} (fields : list string)
  (kwargs : list (string * V)) k :
  Forall (fun kv => kv.1 ∈ fields) kwargs -> k ∉ fields ->
  values_of k kwargs = [].
Proof.
  intros Hall Hk. induction Hall as [|[k0 v] kwargs Hk0 _ IH]; [done|].
  rewrite values_of_cons, IH. cbn [fst] in Hk0.
  rewrite bool_decide_eq_false_2; [done|]. by intros ->.
Qed.



(** ** Expansion of the whole configuration, and query names *)

Lemma expand_config_cons ds name jg config :
  expand_config ds ((name, jg) :: config)
  = match expand_entries ds jg with
    | Ok jg' =>
        match expand_config ds config with
        | Some (Ok config') => Some (Ok ((name, jg') :: config'))
        | r => r
        end
    | Raise e => Some (Raise e)
    | Unmodelled => Some Unmodelled
    end.
Proof. cbn [expand_config]. by rewrite expand_group_entries. Qed.

(** X17: the expansion of the join configuration always ends; when it
    succeeds it keeps the names of the groups and their order and
    replaces the entries of every group by their expansion against the
    same datasets. *)
Theorem expand_config_groups (ds : list Dataset) (config : join_config) :
  is_Some (expand_config ds config)
  /\ (forall config',
        expand_config ds config = Some (Ok config') ->
        map fst config' = map fst config
        /\ Forall2 (fun g g' => expand_entries ds g.2 = Ok g'.2)
             config config').
Proof.
  induction config as [|[name jg] config [IH1 IH2]].
  - split; [by eexists|]. intros config' [= <-]. split; [done|constructor].
  - rewrite expand_config_cons. split.
    + destruct (expand_entries ds jg); [|by eexists..].
      destruct IH1 as [[c'| |] ->]; by eexists.
    + intros config'. destruct (expand_entries ds jg) as [jg'| |] eqn:E;
        [|done..].
      destruct (expand_config ds config) as [[c'| |]|]; try done.
      intros [= <-]. destruct (IH2 c' eq_refl) as [Hn Hf].
      split; [cbn; by rewrite Hn|]. by constructor.
Qed.

Lemma tsql_chars table :
  chars (tsql table)
  = map (fun c => if Ascii.eqb c ":"%char then dot_char else c) (chars table).
Proof. unfold tsql. apply chars_str. Qed.

(** X18: the table name written into a query has the length of the
    configured name and no colon; a name without colon is written as it
    is, and replacing twice is replacing once. *)
Theorem tsql_no_colon (table : string) :
  (":"%char ∉ chars (tsql table))
  /\ List.length (chars (tsql table)) = List.length (chars table)
  /\ tsql (tsql table) = tsql table
  /\ (":"%char ∉ chars table -> tsql table = table).
Proof.
  assert (Hno : forall l,
    ":"%char ∉ map (fun c => if Ascii.eqb c ":"%char then dot_char else c) l).
  { induction l as [|c l IH]; cbn.
    - apply not_elem_of_nil.
    - apply not_elem_of_cons. split; [|done].
      destruct (Ascii.eqb c ":"%char) eqn:E; [done|].
      apply Ascii.eqb_neq in E. congruence. }
  assert (Hid : forall l, ":"%char ∉ l ->
    map (fun c => if Ascii.eqb c ":"%char then dot_char else c) l = l).
  { induction l as [|c l IH]; cbn; [done|].
    intros Hc. apply not_elem_of_cons in Hc as [Hc Hl].
    rewrite IH by done. destruct (Ascii.eqb c ":"%char) eqn:E; [|done].
    apply Ascii.eqb_eq in E. congruence. }
  split; [rewrite tsql_chars; apply Hno|].
  split; [by rewrite tsql_chars, length_map|]. split.
  - unfold tsql at 1. rewrite Hid; [apply str_chars|].
    rewrite tsql_chars. apply Hno.
  - intros Hc. unfold tsql. rewrite Hid by done. apply str_chars.
Qed.

Lemma tsql_no_colon_witness : tsql "dataset.table" = "dataset.table".
Proof.
  apply (proj2 (proj2 (proj2 (tsql_no_colon "dataset.table")))).
  intros H. apply list_elem_of_In in H. cbn in H.
  intuition discriminate.
Defined.

Lemma loaded_fields_iff_not_old_witness :
  names_old old_datasets
  = names_old (resolve_versions (discovered [("d", ["t_1"; "t_2"])])).
Proof.
  apply (proj2 (loaded_fields_iff_not_old abc_show [("d", ["t_1"; "t_2"])])).
Defined.
